(** * BTrack onset detection function: a shallow embedding of
      [src/OnsetDetectionFunction.cpp] and the properties of its specification.

    Numeric model.  The C++ code computes with [float] and [double].  Here both
    are the real numbers [R] of the Standard Library: arithmetic is exact, there
    is no rounding, no overflow, no NaN and no infinity.  [sqrt], [cos] and
    [atan2] of <math.h> are the mathematical functions, and [fftw_execute] is
    the discrete Fourier transform that FFTW documents.  The [int] values
    (sizes, indices, enumerators) are [Z]; for sizes between 0 and [INT_MAX]
    none of the index expressions of the source leaves the range of [int].

    Arrays ([std::vector<double>] and the FFTW buffers) are lists, read and
    written by index.  An access outside the array is undefined behaviour in
    C++; in the model such a read yields zero and such a write does nothing.
    The statements about the contents of the buffers assume buffers of
    [frameSize] elements ([sized]), which is what [initialise] builds and
    every call keeps; there the indices of the source are inside the arrays.

    A block obtained from [fftw_malloc] is not initialised; its content is a
    parameter of [initialise].

    Rounding.  Where a property of the specification depends on rounding,
    the functions concerned are embedded a second time, in the module
    [Binary], with [double] as binary64 and [float] as binary32; the
    statements made there say so. *)

From Stdlib Require Import Reals Lra Lia ZArith.
From Stdlib Require Floats.
From stdpp Require Import base list.
From Equations Require Import Equations.

Local Open Scope Z_scope.
Local Open Scope R_scope.

(** ** Numbers *)

(** The member [pi], set by both constructors ([pi = 3.14159265358979]). *)
Definition pi : R := 3.14159265358979.

(** [fftw_complex] is [double[2]]: index 0 the real part, index 1 the
    imaginary part. *)
Definition complex : Type := R * R.

Definition czero : complex := (0, 0).
Definition cadd (a b : complex) : complex := (fst a + fst b, snd a + snd b).
Definition cmul (a b : complex) : complex :=
  (fst a * fst b - snd a * snd b, fst a * snd b + snd a * fst b).

(** [atan2] of <math.h>, from the arctangent of the Standard Library. *)
Definition atan2 (y x : R) : R :=
  if Rlt_dec 0 x then atan (y / x)
  else if Rlt_dec x 0 then
         if Rle_dec 0 y then atan (y / x) + PI else atan (y / x) - PI
       else if Rlt_dec 0 y then PI / 2
            else if Rlt_dec y 0 then - PI / 2 else 0.

(** The comparisons [<=] and [>=] on [double], as truth values. *)
Definition Rle_b (x y : R) : bool := if Rle_dec x y then true else false.
Definition Rge_b (x y : R) : bool := if Rge_dec x y then true else false.

(** ** Arrays and loops *)

Definition rd {A} (d : A) (a : list A) (i : Z) : A :=
  if (i <? 0)%Z then d else default d (a !! Z.to_nat i).

Definition wr {A} (a : list A) (i : Z) (v : A) : list A :=
  if (i <? 0)%Z then a else <[Z.to_nat i := v]> a.

(** [a[i][0] = v] and [a[i][1] = v] on an array of [fftw_complex]. *)
Definition wr_re (a : list complex) (i : Z) (v : R) : list complex :=
  wr a i (v, snd (rd czero a i)).
Definition wr_im (a : list complex) (i : Z) (v : R) : list complex :=
  wr a i (fst (rd czero a i), v).

(** [std::vector::resize(n)] for [0 <= n]: keeps the first [n] elements and
    value-initialises the new ones. *)
Definition resize (n : nat) (a : list R) : list R :=
  take n a ++ replicate (n - length a) 0.

(** [for (int i = lo; i < hi; i++) body]: [for_loop] runs [n] iterations
    from index [i]. *)
Fixpoint for_loop {S : Type} (n : nat) (i : Z) (body : Z -> S -> S) (s : S) : S :=
  match n with
  | O => s
  | Datatypes.S n' => for_loop n' (i + 1)%Z body (body i s)
  end.

Definition for_range {S : Type} (lo hi : Z) (body : Z -> S -> S) (s : S) : S :=
  for_loop (Z.to_nat (hi - lo)) lo body s.

(** ** The enumerations of the header *)

(** Modelled from the spec: the header [OnsetDetectionFunction.h] with
    [enum OnsetDetectionFunctionType] is not among the sources; the ten
    enumerators are numbered from 0 in the order of the metric table. *)
Definition EnergyEnvelope : Z := 0.
Definition EnergyDifference : Z := 1.
Definition SpectralDifference : Z := 2.
Definition SpectralDifferenceHWR : Z := 3.
Definition PhaseDeviation : Z := 4.
Definition ComplexSpectralDifference : Z := 5.
Definition ComplexSpectralDifferenceHWR : Z := 6.
Definition HighFrequencyContent : Z := 7.
Definition HighFrequencySpectralDifference : Z := 8.
Definition HighFrequencySpectralDifferenceHWR : Z := 9.

(** Modelled from the spec: [enum WindowType] of the same header, the five
    enumerators numbered from 0 in the order of the window list. *)
Definition RectangularWindow : Z := 0.
Definition HanningWindow : Z := 1.
Definition HammingWindow : Z := 2.
Definition BlackmanWindow : Z := 3.
Definition TukeyWindow : Z := 4.

(** ** The object state *)

Record ODF : Type := mkODF {
  frameSize : Z;
  hopSize : Z;
  onsetDetectionFunctionType : Z;
  windowType : Z;
  complexIn : list complex;
  complexOut : list complex;
  initialised : bool;
  frame : list R;
  window : list R;
  prevEnergySum : R;
  magSpec : list R;
  prevMagSpec : list R;
  phase : list R;
  prevPhase : list R;
  prevPhase2 : list R
}.

Definition set_frameSize (v : Z) (s : ODF) : ODF :=
  mkODF v (hopSize s) (onsetDetectionFunctionType s) (windowType s)
    (complexIn s) (complexOut s) (initialised s) (frame s) (window s)
    (prevEnergySum s) (magSpec s) (prevMagSpec s) (phase s) (prevPhase s)
    (prevPhase2 s).
Definition set_hopSize (v : Z) (s : ODF) : ODF :=
  mkODF (frameSize s) v (onsetDetectionFunctionType s) (windowType s)
    (complexIn s) (complexOut s) (initialised s) (frame s) (window s)
    (prevEnergySum s) (magSpec s) (prevMagSpec s) (phase s) (prevPhase s)
    (prevPhase2 s).
Definition set_onsetDetectionFunctionType (v : Z) (s : ODF) : ODF :=
  mkODF (frameSize s) (hopSize s) v (windowType s)
    (complexIn s) (complexOut s) (initialised s) (frame s) (window s)
    (prevEnergySum s) (magSpec s) (prevMagSpec s) (phase s) (prevPhase s)
    (prevPhase2 s).
Definition set_windowType (v : Z) (s : ODF) : ODF :=
  mkODF (frameSize s) (hopSize s) (onsetDetectionFunctionType s) v
    (complexIn s) (complexOut s) (initialised s) (frame s) (window s)
    (prevEnergySum s) (magSpec s) (prevMagSpec s) (phase s) (prevPhase s)
    (prevPhase2 s).
Definition set_complexIn (v : list complex) (s : ODF) : ODF :=
  mkODF (frameSize s) (hopSize s) (onsetDetectionFunctionType s) (windowType s)
    v (complexOut s) (initialised s) (frame s) (window s)
    (prevEnergySum s) (magSpec s) (prevMagSpec s) (phase s) (prevPhase s)
    (prevPhase2 s).
Definition set_complexOut (v : list complex) (s : ODF) : ODF :=
  mkODF (frameSize s) (hopSize s) (onsetDetectionFunctionType s) (windowType s)
    (complexIn s) v (initialised s) (frame s) (window s)
    (prevEnergySum s) (magSpec s) (prevMagSpec s) (phase s) (prevPhase s)
    (prevPhase2 s).
Definition set_initialised (v : bool) (s : ODF) : ODF :=
  mkODF (frameSize s) (hopSize s) (onsetDetectionFunctionType s) (windowType s)
    (complexIn s) (complexOut s) v (frame s) (window s)
    (prevEnergySum s) (magSpec s) (prevMagSpec s) (phase s) (prevPhase s)
    (prevPhase2 s).
Definition set_frame (v : list R) (s : ODF) : ODF :=
  mkODF (frameSize s) (hopSize s) (onsetDetectionFunctionType s) (windowType s)
    (complexIn s) (complexOut s) (initialised s) v (window s)
    (prevEnergySum s) (magSpec s) (prevMagSpec s) (phase s) (prevPhase s)
    (prevPhase2 s).
Definition set_window (v : list R) (s : ODF) : ODF :=
  mkODF (frameSize s) (hopSize s) (onsetDetectionFunctionType s) (windowType s)
    (complexIn s) (complexOut s) (initialised s) (frame s) v
    (prevEnergySum s) (magSpec s) (prevMagSpec s) (phase s) (prevPhase s)
    (prevPhase2 s).
Definition set_prevEnergySum (v : R) (s : ODF) : ODF :=
  mkODF (frameSize s) (hopSize s) (onsetDetectionFunctionType s) (windowType s)
    (complexIn s) (complexOut s) (initialised s) (frame s) (window s)
    v (magSpec s) (prevMagSpec s) (phase s) (prevPhase s)
    (prevPhase2 s).
Definition set_magSpec (v : list R) (s : ODF) : ODF :=
  mkODF (frameSize s) (hopSize s) (onsetDetectionFunctionType s) (windowType s)
    (complexIn s) (complexOut s) (initialised s) (frame s) (window s)
    (prevEnergySum s) v (prevMagSpec s) (phase s) (prevPhase s)
    (prevPhase2 s).
Definition set_prevMagSpec (v : list R) (s : ODF) : ODF :=
  mkODF (frameSize s) (hopSize s) (onsetDetectionFunctionType s) (windowType s)
    (complexIn s) (complexOut s) (initialised s) (frame s) (window s)
    (prevEnergySum s) (magSpec s) v (phase s) (prevPhase s)
    (prevPhase2 s).
Definition set_phase (v : list R) (s : ODF) : ODF :=
  mkODF (frameSize s) (hopSize s) (onsetDetectionFunctionType s) (windowType s)
    (complexIn s) (complexOut s) (initialised s) (frame s) (window s)
    (prevEnergySum s) (magSpec s) (prevMagSpec s) v (prevPhase s)
    (prevPhase2 s).
Definition set_prevPhase (v : list R) (s : ODF) : ODF :=
  mkODF (frameSize s) (hopSize s) (onsetDetectionFunctionType s) (windowType s)
    (complexIn s) (complexOut s) (initialised s) (frame s) (window s)
    (prevEnergySum s) (magSpec s) (prevMagSpec s) (phase s) v
    (prevPhase2 s).
Definition set_prevPhase2 (v : list R) (s : ODF) : ODF :=
  mkODF (frameSize s) (hopSize s) (onsetDetectionFunctionType s) (windowType s)
    (complexIn s) (complexOut s) (initialised s) (frame s) (window s)
    (prevEnergySum s) (magSpec s) (prevMagSpec s) (phase s) (prevPhase s)
    v.

(** ** Window functions (lines 620-710) *)

Definition calculateHanningWindow (s : ODF) : ODF :=
  let N := IZR (frameSize s - 1) in
  for_range 0 (frameSize s)
    (fun n s => set_window (wr (window s) n (0.5 * (1 - cos (2 * pi * (IZR n / N))))) s)
    s.

Definition calclulateHammingWindow (s : ODF) : ODF :=
  let N := IZR (frameSize s - 1) in
  let n_val := 0 in
  snd (for_range 0 (frameSize s)
         (fun n (st : R * ODF) =>
            let (n_val, s) := st in
            let s := set_window
                       (wr (window s) n (0.54 - 0.46 * cos (2 * pi * (n_val / N)))) s in
            (n_val + 1, s))
         (n_val, s)).

Definition calculateBlackmanWindow (s : ODF) : ODF :=
  let N := IZR (frameSize s - 1) in
  let n_val := 0 in
  snd (for_range 0 (frameSize s)
         (fun n (st : R * ODF) =>
            let (n_val, s) := st in
            let s := set_window
                       (wr (window s) n
                           (0.42 - 0.5 * cos (2 * pi * (n_val / N))
                            + 0.08 * cos (4 * pi * (n_val / N)))) s in
            (n_val + 1, s))
         (n_val, s)).

Definition calculateTukeyWindow (s : ODF) : ODF :=
  let alpha := 0.5 in
  let N := IZR (frameSize s - 1) in
  let n_val := IZR (-1 * (frameSize s ÷ 2)) + 1 in
  snd (for_range 0 (frameSize s)
         (fun n (st : R * ODF) =>
            let (n_val, s) := st in
            let w :=
              if Rge_b n_val 0 && Rle_b n_val (alpha * (N / 2)) then 1
              else if Rle_b n_val 0 && Rge_b n_val (-1 * alpha * (N / 2)) then 1
              else 0.5 * (1 + cos (pi * (2 * n_val / (alpha * N) - 1))) in
            (n_val + 1, set_window (wr (window s) n w) s))
         (n_val, s)).

Definition calculateRectangularWindow (s : ODF) : ODF :=
  for_range 0 (frameSize s) (fun n s => set_window (wr (window s) n 1) s) s.

(** ** Initialisation (lines 26-145) *)

(** The result of a call that may throw: [vector::resize] with a negative
    [int] argument, converted to an unsigned size above [max_size()], throws
    [std::length_error]; the exception carries the state left behind. *)
Inductive outcome : Type :=
| Returned (s : ODF)
| LengthError (s : ODF).

(** The seven [resize] calls of lines 92-98. *)
Definition resizeBuffers (n : nat) (s : ODF) : ODF :=
  let s := set_frame (resize n (frame s)) s in
  let s := set_window (resize n (window s)) s in
  let s := set_magSpec (resize n (magSpec s)) s in
  let s := set_prevMagSpec (resize n (prevMagSpec s)) s in
  let s := set_phase (resize n (phase s)) s in
  let s := set_prevPhase (resize n (prevPhase s)) s in
  set_prevPhase2 (resize n (prevPhase2 s)) s.

(** The [switch] on [windowType] of lines 102-120. *)
Definition selectWindow (s : ODF) : ODF :=
  if (windowType s =? RectangularWindow)%Z then calculateRectangularWindow s
  else if (windowType s =? HanningWindow)%Z then calculateHanningWindow s
  else if (windowType s =? HammingWindow)%Z then calclulateHammingWindow s
  else if (windowType s =? BlackmanWindow)%Z then calculateBlackmanWindow s
  else if (windowType s =? TukeyWindow)%Z then calculateTukeyWindow s
  else calculateHanningWindow s.

(** The zeroing loop of lines 123-129. *)
Definition zeroHistory_body (i : Z) (s : ODF) : ODF :=
  let s := set_prevMagSpec (wr (prevMagSpec s) i 0) s in
  let s := set_prevPhase (wr (prevPhase s) i 0) s in
  let s := set_prevPhase2 (wr (prevPhase2 s) i 0) s in
  set_frame (wr (frame s) i 0) s.

Definition zeroHistory (s : ODF) : ODF :=
  for_range 0 (frameSize s) zeroHistory_body s.

Section Allocation.

(** The contents of a block just obtained from [fftw_malloc], which does not
    initialise it: element [i] of the block holds [uninit i].  [complexOut] is
    written in full by every transform before it is read, so one function
    serves both blocks. *)
Variable uninit : nat -> complex.

Definition fftw_malloc (n : Z) : list complex := map uninit (seq 0 (Z.to_nat n)).

(** [fftw_free] of both blocks (the plan has no state of its own in the
    model). *)
Definition fftw_release (s : ODF) : ODF := set_complexOut [] (set_complexIn [] s).

Definition initialise (hopSize_ frameSize_ onsetDetectionFunctionType_ windowType_ : Z)
    (s : ODF) : outcome :=
  let s := if initialised s then fftw_release s else s in
  let s := set_hopSize hopSize_ s in
  let s := set_frameSize frameSize_ s in
  let s := set_onsetDetectionFunctionType onsetDetectionFunctionType_ s in
  let s := set_windowType windowType_ s in
  if (frameSize_ <? 0)%Z then LengthError s
  else
    let s := resizeBuffers (Z.to_nat frameSize_) s in
    let s := selectWindow s in
    let s := zeroHistory s in
    let s := set_prevEnergySum 0 s in
    let s := set_complexIn (fftw_malloc (frameSize s)) s in
    let s := set_complexOut (fftw_malloc (frameSize s)) s in
    Returned (set_initialised true s).

(** The object before the constructor body runs: empty vectors, the two
    kinds from the member initialiser list, [initialised = false]. *)
Definition fresh : ODF :=
  mkODF 0 0 ComplexSpectralDifferenceHWR HanningWindow [] [] false
        [] [] 0 [] [] [] [] [].

(** The two constructors. *)
Definition OnsetDetectionFunction (hopSize_ frameSize_ : Z) : outcome :=
  initialise hopSize_ frameSize_ ComplexSpectralDifferenceHWR HanningWindow fresh.

Definition OnsetDetectionFunction4
    (hopSize_ frameSize_ onsetDetectionFunctionType_ windowType_ : Z) : outcome :=
  initialise hopSize_ frameSize_ onsetDetectionFunctionType_ windowType_ fresh.

(** [initialise(hopSize, frameSize)], keeping the two kinds. *)
Definition initialise2 (hopSize_ frameSize_ : Z) (s : ODF) : outcome :=
  initialise hopSize_ frameSize_ (onsetDetectionFunctionType s) (windowType s) s.

End Allocation.

Definition setOnsetDetectionFunctionType (onsetDetectionFunctionType_ : Z) (s : ODF) : ODF :=
  set_onsetDetectionFunctionType onsetDetectionFunctionType_ s.

(** ** The transform (lines 238-253) *)

(** [fftw_execute] on the plan made by [fftw_plan_dft_1d] with [FFTW_FORWARD]:
    [Y[k] = sum_j X[j] * exp (- 2 pi i j k / n)], not normalised. *)
Definition twiddle (n k j : nat) : complex :=
  let a := 2 * PI * INR j * INR k / INR n in (cos a, - sin a).

Fixpoint dft_sum (n k j : nat) (x : list complex) : complex :=
  match x with
  | [] => czero
  | xj :: x' => cadd (cmul xj (twiddle n k j)) (dft_sum n k (Datatypes.S j) x')
  end.

Definition dft (x : list complex) : list complex :=
  map (fun k => dft_sum (length x) k 0 x) (seq 0 (length x)).

Definition fftw_execute (s : ODF) : ODF := set_complexOut (dft (complexIn s)) s.

Definition performFFT (s : ODF) : ODF :=
  let fsize2 := (frameSize s ÷ 2)%Z in
  let s :=
    for_range 0 fsize2
      (fun i s =>
         let s := set_complexIn
                    (wr_re (complexIn s) i
                       (rd 0 (frame s) (i + fsize2) * rd 0 (window s) (i + fsize2))) s in
         let s := set_complexIn (wr_im (complexIn s) i 0) s in
         let s := set_complexIn
                    (wr_re (complexIn s) (i + fsize2)
                       (rd 0 (frame s) i * rd 0 (window s) i)) s in
         set_complexIn (wr_im (complexIn s) (i + fsize2) 0) s)
      s in
  fftw_execute s.

(** ** princarg (lines 719-734) *)

(** The number of iterations left in each of the two [while] loops. *)
Definition add_steps (x : R) : nat := Z.to_nat (up ((- pi - x) / (2 * pi))).
Definition sub_steps (x : R) : nat := Z.to_nat (up ((x - pi) / (2 * pi))).

(** [while (phaseVal <= (-pi)) phaseVal = phaseVal + (2*pi);] *)
Equations? princarg_add (phaseVal : R) : R by wf (add_steps phaseVal) lt :=
  princarg_add phaseVal with Rle_dec phaseVal (- pi) := {
    | left _ => princarg_add (phaseVal + 2 * pi)
    | right _ => phaseVal }.
Proof.
  unfold add_steps.
  assert (0 < pi) as Hpi by (unfold pi; lra).
  set (q := (- pi - phaseVal) / (2 * pi)).
  replace ((- pi - (phaseVal + 2 * pi)) / (2 * pi)) with (q - 1)
    by (unfold q; field; lra).
  assert (0 <= q) as H0.
  { apply Rmult_le_pos; [lra|]. left. apply Rinv_0_lt_compat. lra. }
  destruct (archimed q) as [Hup Hlow].
  replace (up (q - 1)) with (up q - 1)%Z
    by (apply tech_up; rewrite minus_IZR; lra).
  assert (0 < up q)%Z by (apply lt_IZR; lra).
  lia.
Qed.

(** [while (phaseVal > pi) phaseVal = phaseVal - (2*pi);] *)
Equations? princarg_sub (phaseVal : R) : R by wf (sub_steps phaseVal) lt :=
  princarg_sub phaseVal with Rgt_dec phaseVal pi := {
    | left _ => princarg_sub (phaseVal - 2 * pi)
    | right _ => phaseVal }.
Proof.
  unfold sub_steps.
  assert (0 < pi) as Hpi by (unfold pi; lra).
  set (q := (phaseVal - pi) / (2 * pi)).
  replace ((phaseVal - 2 * pi - pi) / (2 * pi)) with (q - 1)
    by (unfold q; field; lra).
  assert (0 <= q) as H0.
  { apply Rmult_le_pos; [lra|]. left. apply Rinv_0_lt_compat. lra. }
  destruct (archimed q) as [Hup Hlow].
  replace (up (q - 1)) with (up q - 1)%Z
    by (apply tech_up; rewrite minus_IZR; lra).
  assert (0 < up q)%Z by (apply lt_IZR; lra).
  lia.
Qed.

Definition princarg (phaseVal : R) : R := princarg_sub (princarg_add phaseVal).

(** ** The detection functions (lines 260-612) *)

(** [sqrt(pow(c[0],2) + pow(c[1],2))] *)
Definition magnitude (c : complex) : R := sqrt (fst c ^ 2 + snd c ^ 2).

Definition energyEnvelope (s : ODF) : R * ODF :=
  let sum := 0 in
  let sum :=
    for_range 0 (frameSize s)
      (fun i sum => sum + rd 0 (frame s) i * rd 0 (frame s) i) sum in
  (sum, s).

Definition energyDifference (s : ODF) : R * ODF :=
  let sum := 0 in
  let sum :=
    for_range 0 (frameSize s)
      (fun i sum => sum + rd 0 (frame s) i * rd 0 (frame s) i) sum in
  let sample := sum - prevEnergySum s in
  let s := set_prevEnergySum sum s in
  if Rgt_dec sample 0 then (sample, s) else (0, s).

(** The two loops that fill [magSpec] in [spectralDifference] and in
    [spectralDifferenceHWR] (lines 313-321 and 356-364): the first
    [(frameSize/2)+1] bins from the transform, the others mirrored. *)
Definition fillMagSpec (s : ODF) : ODF :=
  let s :=
    for_range 0 (frameSize s ÷ 2 + 1)
      (fun i s =>
         set_magSpec (wr (magSpec s) i (magnitude (rd czero (complexOut s) i))) s)
      s in
  for_range (frameSize s ÷ 2 + 1) (frameSize s)
    (fun i s => set_magSpec (wr (magSpec s) i (rd 0 (magSpec s) (frameSize s - i))) s)
    s.

Definition spectralDifference_body (i : Z) (st : R * ODF) : R * ODF :=
  let (sum, s) := st in
  let diff := rd 0 (magSpec s) i - rd 0 (prevMagSpec s) i in
  let diff := if Rlt_dec diff 0 then diff * -1 else diff in
  let sum := sum + diff in
  (sum, set_prevMagSpec (wr (prevMagSpec s) i (rd 0 (magSpec s) i)) s).

Definition spectralDifference (s : ODF) : R * ODF :=
  let s := performFFT s in
  let s := fillMagSpec s in
  let sum := 0 in
  for_range 0 (frameSize s) spectralDifference_body (sum, s).

Definition spectralDifferenceHWR_body (i : Z) (st : R * ODF) : R * ODF :=
  let (sum, s) := st in
  let diff := rd 0 (magSpec s) i - rd 0 (prevMagSpec s) i in
  let sum := if Rgt_dec diff 0 then sum + diff else sum in
  (sum, set_prevMagSpec (wr (prevMagSpec s) i (rd 0 (magSpec s) i)) s).

Definition spectralDifferenceHWR (s : ODF) : R * ODF :=
  let s := performFFT s in
  let s := fillMagSpec s in
  let sum := 0 in
  for_range 0 (frameSize s) spectralDifferenceHWR_body (sum, s).

Definition phaseDeviation_body (i : Z) (st : R * ODF) : R * ODF :=
  let (sum, s) := st in
  let s := set_phase
             (wr (phase s) i
                 (atan2 (snd (rd czero (complexOut s) i)) (fst (rd czero (complexOut s) i))))
             s in
  let s := set_magSpec (wr (magSpec s) i (magnitude (rd czero (complexOut s) i))) s in
  let sum :=
    if Rgt_dec (rd 0 (magSpec s) i) 0.1 then
      let dev := rd 0 (phase s) i - 2 * rd 0 (prevPhase s) i + rd 0 (prevPhase2 s) i in
      let pdev := princarg dev in
      let pdev := if Rlt_dec pdev 0 then pdev * -1 else pdev in
      sum + pdev
    else sum in
  let s := set_prevPhase2 (wr (prevPhase2 s) i (rd 0 (prevPhase s) i)) s in
  let s := set_prevPhase (wr (prevPhase s) i (rd 0 (phase s) i)) s in
  (sum, s).

Definition phaseDeviation (s : ODF) : R * ODF :=
  let s := performFFT s in
  let sum := 0 in
  for_range 0 (frameSize s) phaseDeviation_body (sum, s).

(** The law-of-cosines distance of lines 460 and 506. *)
Definition csd_distance (s : ODF) (i : Z) (phaseDeviation : R) : R :=
  sqrt (rd 0 (magSpec s) i ^ 2 + rd 0 (prevMagSpec s) i ^ 2
        - 2 * rd 0 (magSpec s) i * rd 0 (prevMagSpec s) i * cos phaseDeviation).

Definition complexSpectralDifference_body (i : Z) (st : R * ODF) : R * ODF :=
  let (sum, s) := st in
  let s := set_phase
             (wr (phase s) i
                 (atan2 (snd (rd czero (complexOut s) i)) (fst (rd czero (complexOut s) i))))
             s in
  let s := set_magSpec (wr (magSpec s) i (magnitude (rd czero (complexOut s) i))) s in
  let phaseDeviation :=
    rd 0 (phase s) i - 2 * rd 0 (prevPhase s) i + rd 0 (prevPhase2 s) i in
  let csd := csd_distance s i phaseDeviation in
  let sum := sum + csd in
  let s := set_prevPhase2 (wr (prevPhase2 s) i (rd 0 (prevPhase s) i)) s in
  let s := set_prevPhase (wr (prevPhase s) i (rd 0 (phase s) i)) s in
  let s := set_prevMagSpec (wr (prevMagSpec s) i (rd 0 (magSpec s) i)) s in
  (sum, s).

Definition complexSpectralDifference (s : ODF) : R * ODF :=
  let s := performFFT s in
  let sum := 0 in
  for_range 0 (frameSize s) complexSpectralDifference_body (sum, s).

Definition complexSpectralDifferenceHWR_body (i : Z) (st : R * ODF) : R * ODF :=
  let (sum, s) := st in
  let s := set_phase
             (wr (phase s) i
                 (atan2 (snd (rd czero (complexOut s) i)) (fst (rd czero (complexOut s) i))))
             s in
  let s := set_magSpec (wr (magSpec s) i (magnitude (rd czero (complexOut s) i))) s in
  let phaseDeviation :=
    rd 0 (phase s) i - 2 * rd 0 (prevPhase s) i + rd 0 (prevPhase2 s) i in
  let magnitudeDifference := rd 0 (magSpec s) i - rd 0 (prevMagSpec s) i in
  let sum :=
    if Rgt_dec magnitudeDifference 0 then
      let csd := csd_distance s i phaseDeviation in
      sum + csd
    else sum in
  let s := set_prevPhase2 (wr (prevPhase2 s) i (rd 0 (prevPhase s) i)) s in
  let s := set_prevPhase (wr (prevPhase s) i (rd 0 (phase s) i)) s in
  let s := set_prevMagSpec (wr (prevMagSpec s) i (rd 0 (magSpec s) i)) s in
  (sum, s).

Definition complexSpectralDifferenceHWR (s : ODF) : R * ODF :=
  let s := performFFT s in
  let sum := 0 in
  for_range 0 (frameSize s) complexSpectralDifferenceHWR_body (sum, s).

Definition highFrequencyContent_body (i : Z) (st : R * ODF) : R * ODF :=
  let (sum, s) := st in
  let s := set_magSpec (wr (magSpec s) i (magnitude (rd czero (complexOut s) i))) s in
  let sum := sum + rd 0 (magSpec s) i * IZR (i + 1) in
  let s := set_prevMagSpec (wr (prevMagSpec s) i (rd 0 (magSpec s) i)) s in
  (sum, s).

Definition highFrequencyContent (s : ODF) : R * ODF :=
  let s := performFFT s in
  let sum := 0 in
  for_range 0 (frameSize s) highFrequencyContent_body (sum, s).

Definition highFrequencySpectralDifference_body (i : Z) (st : R * ODF) : R * ODF :=
  let (sum, s) := st in
  let s := set_magSpec (wr (magSpec s) i (magnitude (rd czero (complexOut s) i))) s in
  let mag_diff := rd 0 (magSpec s) i - rd 0 (prevMagSpec s) i in
  let mag_diff := if Rlt_dec mag_diff 0 then - mag_diff else mag_diff in
  let sum := sum + mag_diff * IZR (i + 1) in
  let s := set_prevMagSpec (wr (prevMagSpec s) i (rd 0 (magSpec s) i)) s in
  (sum, s).

Definition highFrequencySpectralDifference (s : ODF) : R * ODF :=
  let s := performFFT s in
  let sum := 0 in
  for_range 0 (frameSize s) highFrequencySpectralDifference_body (sum, s).

Definition highFrequencySpectralDifferenceHWR_body (i : Z) (st : R * ODF) : R * ODF :=
  let (sum, s) := st in
  let s := set_magSpec (wr (magSpec s) i (magnitude (rd czero (complexOut s) i))) s in
  let mag_diff := rd 0 (magSpec s) i - rd 0 (prevMagSpec s) i in
  let sum := if Rgt_dec mag_diff 0 then sum + mag_diff * IZR (i + 1) else sum in
  let s := set_prevMagSpec (wr (prevMagSpec s) i (rd 0 (magSpec s) i)) s in
  (sum, s).

Definition highFrequencySpectralDifferenceHWR (s : ODF) : R * ODF :=
  let s := performFFT s in
  let sum := 0 in
  for_range 0 (frameSize s) highFrequencySpectralDifferenceHWR_body (sum, s).

(** ** The entry point (lines 148-234) *)

(** The two loops that advance the frame by one hop. *)
Definition shiftFrame (buffer : list R) (s : ODF) : ODF :=
  let s :=
    for_range 0 (frameSize s - hopSize s)
      (fun i s => set_frame (wr (frame s) i (rd 0 (frame s) (i + hopSize s))) s) s in
  let j := 0%Z in
  snd (for_range (frameSize s - hopSize s) (frameSize s)
         (fun i (st : Z * ODF) =>
            let (j, s) := st in
            let s := set_frame (wr (frame s) i (rd 0 buffer j)) s in
            ((j + 1)%Z, s))
         (j, s)).

(** The [switch] on [onsetDetectionFunctionType]. *)
Definition dispatch (s : ODF) : R * ODF :=
  let t := onsetDetectionFunctionType s in
  if (t =? EnergyEnvelope)%Z then energyEnvelope s
  else if (t =? EnergyDifference)%Z then energyDifference s
  else if (t =? SpectralDifference)%Z then spectralDifference s
  else if (t =? SpectralDifferenceHWR)%Z then spectralDifferenceHWR s
  else if (t =? PhaseDeviation)%Z then phaseDeviation s
  else if (t =? ComplexSpectralDifference)%Z then complexSpectralDifference s
  else if (t =? ComplexSpectralDifferenceHWR)%Z then complexSpectralDifferenceHWR s
  else if (t =? HighFrequencyContent)%Z then highFrequencyContent s
  else if (t =? HighFrequencySpectralDifference)%Z then highFrequencySpectralDifference s
  else if (t =? HighFrequencySpectralDifferenceHWR)%Z
       then highFrequencySpectralDifferenceHWR s
  else (1, s).

Definition calculateOnsetDetectionFunctionSample (buffer : list R) (s : ODF) : R * ODF :=
  dispatch (shiftFrame buffer s).

(** A run of calls, one per chunk; the samples returned, oldest first, and
    the final state. *)
Fixpoint processChunks (chunks : list (list R)) (s : ODF) : list R * ODF :=
  match chunks with
  | [] => ([], s)
  | c :: cs =>
      let (x, s) := calculateOnsetDetectionFunctionSample c s in
      let (xs, s) := processChunks cs s in
      (x :: xs, s)
  end.

(** ** Well-formed states *)

(** The invariant of the data model: every buffer has [frameSize] elements. *)
Definition sized (s : ODF) : Prop :=
  (0 <= frameSize s)%Z /\
  length (frame s) = Z.to_nat (frameSize s) /\
  length (window s) = Z.to_nat (frameSize s) /\
  length (magSpec s) = Z.to_nat (frameSize s) /\
  length (prevMagSpec s) = Z.to_nat (frameSize s) /\
  length (phase s) = Z.to_nat (frameSize s) /\
  length (prevPhase s) = Z.to_nat (frameSize s) /\
  length (prevPhase2 s) = Z.to_nat (frameSize s) /\
  length (complexIn s) = Z.to_nat (frameSize s).

(** Two states present the same input to the spectral-difference metrics:
    the members that [performFFT], [fillMagSpec] and the summing loops
    read. *)
Definition same_spectral_input (s1 s2 : ODF) : Prop :=
  frameSize s1 = frameSize s2 /\
  frame s1 = frame s2 /\
  window s1 = window s2 /\
  complexIn s1 = complexIn s2 /\
  magSpec s1 = magSpec s2 /\
  prevMagSpec s1 = prevMagSpec s2.

(** The list [g 0, g 1, ..., g (n-1)]. *)
Definition tabulate {A} (n : nat) (g : Z -> A) : list A :=
  map (fun k => g (Z.of_nat k)) (seq 0 n).

(** The Hanning coefficient of index [n] for a frame of [frameSize_]
    samples (line 629). *)
Definition hanningCoefficient (frameSize_ : Z) (n : Z) : R :=
  0.5 * (1 - cos (2 * pi * (IZR n / IZR (frameSize_ - 1)))).

(** [t] differs from [s] in [window] at most, and [window] has kept its
    length: what each window function does to the state. *)
Definition window_only (s t : ODF) : Prop :=
  set_window [] t = set_window [] s /\ length (window t) = length (window s).

(** [t] differs from [s] at most in the four buffers that the zeroing loop
    of [initialise] writes. *)
Definition history_only (s t : ODF) : Prop :=
  set_frame [] (set_prevPhase2 [] (set_prevPhase [] (set_prevMagSpec [] t)))
  = set_frame [] (set_prevPhase2 [] (set_prevPhase [] (set_prevMagSpec [] s))).

(** What [initialise] leaves when the frame size is not negative: the sizes
    and kinds as given, zeroed frame and history, the window written by
    [selectWindow] on buffers of the new size, fresh transform buffers. *)
Definition initialised_as (uninit : nat -> complex)
    (hopSize_ frameSize_ onsetDetectionFunctionType_ windowType_ : Z) (t : ODF) : Prop :=
  let n := Z.to_nat frameSize_ in
  initialised t = true /\
  hopSize t = hopSize_ /\ frameSize t = frameSize_ /\
  onsetDetectionFunctionType t = onsetDetectionFunctionType_ /\
  windowType t = windowType_ /\
  frame t = replicate n 0 /\ prevMagSpec t = replicate n 0 /\
  prevPhase t = replicate n 0 /\ prevPhase2 t = replicate n 0 /\
  prevEnergySum t = 0 /\
  length (window t) = n /\ length (magSpec t) = n /\ length (phase t) = n /\
  complexIn t = fftw_malloc uninit frameSize_ /\
  complexOut t = fftw_malloc uninit frameSize_ /\
  exists s1, frameSize s1 = frameSize_ /\ windowType s1 = windowType_ /\
             length (window s1) = n /\ window t = window (selectWindow s1).

(** [t] differs from [s] at most in the two transform buffers: what
    [performFFT] does to the state. *)
Definition transform_only (s t : ODF) : Prop :=
  set_complexOut [] (set_complexIn [] t) = set_complexOut [] (set_complexIn [] s).

(** A state with a metric kind and a window kind outside the enumerations. *)
Definition unknownKinds : ODF :=
  mkODF 2 1 42 7 [czero; czero] [czero; czero] true
        [0; 0] [1; 1] 0 [0; 0] [0; 0] [0; 0] [0; 0] [0; 0].

(** What no detection function changes: the configuration, the frame, the
    window, and the length of every buffer. *)
Definition kept (s t : ODF) : Prop :=
  frameSize t = frameSize s /\ hopSize t = hopSize s /\
  onsetDetectionFunctionType t = onsetDetectionFunctionType s /\
  windowType t = windowType s /\ initialised t = initialised s /\
  frame t = frame s /\ window t = window s /\
  length (magSpec t) = length (magSpec s) /\
  length (prevMagSpec t) = length (prevMagSpec s) /\
  length (phase t) = length (phase s) /\
  length (prevPhase t) = length (prevPhase s) /\
  length (prevPhase2 t) = length (prevPhase2 s) /\
  length (complexIn t) = length (complexIn s).

(** The last [n] elements of a list (the whole list when it is shorter). *)
Definition lastn {A} (n : nat) (l : list A) : list A := drop (length l - n) l.

(** A state of two bins with a phase history, in the ready state. *)
Definition twoBins : ODF :=
  mkODF 2 2 PhaseDeviation RectangularWindow [czero; czero] [czero; czero] true
        [1; 0] [1; 1] 0 [0; 0] [0; 0] [0; 0] [0.5; 0.25] [0.125; 0.0625].

(** A ready engine with [frameSize = 4] and [hopSize = 2], as [initialise]
    leaves it for the energy envelope and the rectangular window. *)
Definition fourSamples : ODF :=
  mkODF 4 2 EnergyEnvelope RectangularWindow
        [czero; czero; czero; czero] [czero; czero; czero; czero] true
        [0; 0; 0; 0] [1; 1; 1; 1] 0
        [0; 0; 0; 0] [0; 0; 0; 0] [0; 0; 0; 0] [0; 0; 0; 0] [0; 0; 0; 0].

(** Element [j] of [complexIn] after the loop of [performFFT]: the windowed
    frame with its halves swapped, and the old content where the loop does
    not write (the last element, when [frameSize] is odd). *)
Definition fftInput (s : ODF) (j : Z) : complex :=
  let fsize2 := (frameSize s ÷ 2)%Z in
  if ((0 <=? j) && (j <? fsize2))%Z
  then (rd 0 (frame s) (j + fsize2) * rd 0 (window s) (j + fsize2), 0)
  else if ((fsize2 <=? j) && (j <? 2 * fsize2))%Z
       then (rd 0 (frame s) (j - fsize2) * rd 0 (window s) (j - fsize2), 0)
       else rd czero (complexIn s) j.

(** Bin [j] of the magnitude spectrum as [fillMagSpec] leaves it, from the
    transform output [out]. *)
Definition mirroredMagnitude (frameSize_ : Z) (out : list complex) (j : Z) : R :=
  if (j <? frameSize_ ÷ 2 + 1)%Z then magnitude (rd czero out j)
  else magnitude (rd czero out (frameSize_ - j)).

(** ** The detection functions as sums over the bins *)

(** [sum_terms N f] is [f 0 + f 1 + ... + f (N-1)], added in this order
    from 0. *)
Definition sum_terms (N : Z) (f : Z -> R) : R :=
  for_range 0 N (fun k acc => acc + f k) 0.

(** Bin [k] of the spectrum held in [complexOut], its magnitude and its
    phase, and the second difference of the phase against the history. *)
Definition bin (s : ODF) (k : Z) : complex := rd czero (complexOut s) k.
Definition binMagnitude (s : ODF) (k : Z) : R := magnitude (bin s k).
Definition binPhase (s : ODF) (k : Z) : R := atan2 (snd (bin s k)) (fst (bin s k)).
Definition binPhaseDeviation (s : ODF) (k : Z) : R :=
  binPhase s k - 2 * rd 0 (prevPhase s) k + rd 0 (prevPhase2 s) k.

(** What bin [k] adds to the sum of each spectral metric, in terms of the
    state [s] at the start of the summing loop. *)
Definition spectralDifference_term (s : ODF) (k : Z) : R :=
  let diff := rd 0 (magSpec s) k - rd 0 (prevMagSpec s) k in
  if Rlt_dec diff 0 then diff * -1 else diff.

Definition spectralDifferenceHWR_term (s : ODF) (k : Z) : R :=
  let diff := rd 0 (magSpec s) k - rd 0 (prevMagSpec s) k in
  if Rgt_dec diff 0 then diff else 0.

Definition phaseDeviation_term (s : ODF) (k : Z) : R :=
  if Rgt_dec (binMagnitude s k) 0.1 then
    let pdev := princarg (binPhaseDeviation s k) in
    if Rlt_dec pdev 0 then pdev * -1 else pdev
  else 0.

Definition complexSpectralDifference_term (s : ODF) (k : Z) : R :=
  sqrt (binMagnitude s k ^ 2 + rd 0 (prevMagSpec s) k ^ 2
        - 2 * binMagnitude s k * rd 0 (prevMagSpec s) k * cos (binPhaseDeviation s k)).

Definition complexSpectralDifferenceHWR_term (s : ODF) (k : Z) : R :=
  if Rgt_dec (binMagnitude s k - rd 0 (prevMagSpec s) k) 0
  then complexSpectralDifference_term s k else 0.

Definition highFrequencyContent_term (s : ODF) (k : Z) : R :=
  binMagnitude s k * IZR (k + 1).

Definition highFrequencySpectralDifference_term (s : ODF) (k : Z) : R :=
  let mag_diff := binMagnitude s k - rd 0 (prevMagSpec s) k in
  (if Rlt_dec mag_diff 0 then - mag_diff else mag_diff) * IZR (k + 1).

Definition highFrequencySpectralDifferenceHWR_term (s : ODF) (k : Z) : R :=
  let mag_diff := binMagnitude s k - rd 0 (prevMagSpec s) k in
  if Rgt_dec mag_diff 0 then mag_diff * IZR (k + 1) else 0.

(** A well-formed state whose frame holds silence and whose magnitude and
    energy history is zero: the state after [initialise] and a chunk of
    zeros. *)
Definition silent (s : ODF) : Prop :=
  sized s /\
  frame s = replicate (Z.to_nat (frameSize s)) 0 /\
  prevMagSpec s = replicate (Z.to_nat (frameSize s)) 0 /\
  prevEnergySum s = 0.

(** An engine of two samples per frame and per hop with the rectangular
    window, as [initialise] leaves it for the complex spectral difference,
    and the same engine after one call on the chunk [[1; 0]]. *)
Definition twoSamples : ODF :=
  mkODF 2 2 ComplexSpectralDifference RectangularWindow
        [(0, 0); (0, 0)] [(0, 0); (0, 0)] true
        [0; 0] [1; 1] 0 [0; 0] [0; 0] [0; 0] [0; 0] [0; 0].

Definition twoSamples_afterImpulse : ODF :=
  mkODF 2 2 ComplexSpectralDifference RectangularWindow
        [(0, 0); (1, 0)] [(1, 0); (-1, 0)] true
        [1; 0] [1; 1] 0 [1; 1] [1; 1] [0; PI] [0; PI] [0; 0].

(** ** The window coefficients in closed form *)

(** The coefficients of index [n] that the other window loops compute for a
    frame of [frameSize_] samples (lines 645, 662, 684-695 and 708); in the
    Tukey loop the running value [n_val] at index [n] is
    [-(frameSize_/2) + 1 + n]. *)
Definition hammingCoefficient (frameSize_ : Z) (n : Z) : R :=
  0.54 - 0.46 * cos (2 * pi * (IZR n / IZR (frameSize_ - 1))).

Definition blackmanCoefficient (frameSize_ : Z) (n : Z) : R :=
  0.42 - 0.5 * cos (2 * pi * (IZR n / IZR (frameSize_ - 1)))
  + 0.08 * cos (4 * pi * (IZR n / IZR (frameSize_ - 1))).

Definition tukeyCoefficient (frameSize_ : Z) (n : Z) : R :=
  let alpha := 0.5 in
  let N := IZR (frameSize_ - 1) in
  let n_val := IZR (-1 * (frameSize_ ÷ 2)) + 1 + IZR n in
  if Rge_b n_val 0 && Rle_b n_val (alpha * (N / 2)) then 1
  else if Rle_b n_val 0 && Rge_b n_val (-1 * alpha * (N / 2)) then 1
  else 0.5 * (1 + cos (pi * (2 * n_val / (alpha * N) - 1))).

(** The coefficient that [initialise] writes for a window kind, the Hanning
    one for a kind outside the enumeration. *)
Definition windowCoefficient (windowType_ frameSize_ : Z) (n : Z) : R :=
  if (windowType_ =? RectangularWindow)%Z then 1
  else if (windowType_ =? HanningWindow)%Z then hanningCoefficient frameSize_ n
  else if (windowType_ =? HammingWindow)%Z then hammingCoefficient frameSize_ n
  else if (windowType_ =? BlackmanWindow)%Z then blackmanCoefficient frameSize_ n
  else if (windowType_ =? TukeyWindow)%Z then tukeyCoefficient frameSize_ n
  else hanningCoefficient frameSize_ n.

(** What one iteration of each of the three high-frequency loops does to
    the state (lines 536-542, 563-576, 597-608): the magnitude of the bin is
    written to [magSpec] and copied to [prevMagSpec]. *)
Definition highFrequency_update (i : Z) (s : ODF) : ODF :=
  let s := set_magSpec (wr (magSpec s) i (magnitude (rd czero (complexOut s) i))) s in
  set_prevMagSpec (wr (prevMagSpec s) i (rd 0 (magSpec s) i)) s.

(** Two states that agree on everything but the three buffers that each
    call recomputes before it reads them: [magSpec], [phase] and
    [complexOut]. *)
Definition scratch_eq (a b : ODF) : Prop :=
  frameSize a = frameSize b /\ hopSize a = hopSize b /\
  onsetDetectionFunctionType a = onsetDetectionFunctionType b /\
  windowType a = windowType b /\ initialised a = initialised b /\
  complexIn a = complexIn b /\ frame a = frame b /\ window a = window b /\
  prevEnergySum a = prevEnergySum b /\ prevMagSpec a = prevMagSpec b /\
  prevPhase a = prevPhase b /\ prevPhase2 a = prevPhase2 b.

(** The relation kept by the summing loops of two runs in step: equal
    sums, states equal up to the scratch buffers, the same transform output,
    and scratch buffers of [n] elements. *)
Definition in_step (n : nat) (st1 st2 : R * ODF) : Prop :=
  fst st1 = fst st2 /\ scratch_eq (snd st1) (snd st2) /\
  complexOut (snd st1) = complexOut (snd st2) /\
  length (magSpec (snd st1)) = n /\ length (magSpec (snd st2)) = n /\
  length (phase (snd st1)) = n /\ length (phase (snd st2)) = n.

(** [twoSamples] with other contents in the three buffers that every
    spectral metric overwrites before reading. *)
Definition twoSamples_otherScratch : ODF :=
  set_complexOut [(3, 4); (5, 6)] (set_magSpec [5; 7] (set_phase [1; 2] twoSamples)).

(** An engine of four samples per frame in the middle of a run: a frame,
    a window and a history that are not constant, and old values in the
    transform input. *)
Definition fourSamples_inUse : ODF :=
  mkODF 4 2 SpectralDifference RectangularWindow
        [(9, 9); (9, 9); (9, 9); (9, 9)] [czero; czero; czero; czero] true
        [1; 2; 3; 4] [1; 0.5; 0.25; 2] 0
        [0; 0; 0; 0] [2; 0; 7; 1] [0; 0; 0; 0] [0; 0; 0; 0] [0; 0; 0; 0].

(** * The complex spectral difference in binary floating point *)

(** The functions on the path of the two complex spectral differences once
    more, with the number types of the source instead of [R].  A [double] is
    a binary64 value: a primitive float, with the IEEE 754 operations
    ([+], [-], [*], [sqrt], the comparisons) rounded to nearest, ties to
    even.  A [float] is a binary32 value, held as the binary64 value equal
    to it; [to_float] is the conversion from [double] to [float], and
    [float_add] the addition of two [float]s.  [cos] and [atan2] of
    <math.h> and the transform that [fftw_execute] runs are parameters: the
    properties below state what they assume of them. *)
Module Binary.
Import PrimFloat SpecFloat FloatOps.
Local Open Scope float_scope.

(** Rounding to binary32 (24 bits of precision, exponents up to 128). *)
Definition to_float (x : float) : float :=
  match Prim2SF x with
  | S754_finite s m e => SF2Prim (binary_round 24 128 s m e)
  | _ => x
  end.

Definition float_add (x y : float) : float :=
  SF2Prim (SFadd 24 128 (Prim2SF x) (Prim2SF y)).

(** [pow(x, 2)]: the square, rounded once. *)
Definition pow2 (x : float) : float := x * x.

Definition complex : Type := float * float.
Definition czero : complex := (0, 0).

Definition wr_re (a : list complex) (i : Z) (v : float) : list complex :=
  wr a i (v, snd (rd czero a i)).
Definition wr_im (a : list complex) (i : Z) (v : float) : list complex :=
  wr a i (fst (rd czero a i), v).

(** The data members, as in [ODF]. *)
Record ODF : Type := mkODF {
  frameSize : Z;
  hopSize : Z;
  onsetDetectionFunctionType : Z;
  windowType : Z;
  complexIn : list complex;
  complexOut : list complex;
  initialised : bool;
  frame : list float;
  window : list float;
  prevEnergySum : float;
  magSpec : list float;
  prevMagSpec : list float;
  phase : list float;
  prevPhase : list float;
  prevPhase2 : list float
}.

Definition set_complexIn (v : list complex) (s : ODF) : ODF :=
  mkODF (frameSize s) (hopSize s) (onsetDetectionFunctionType s) (windowType s)
        v (complexOut s) (initialised s) (frame s) (window s) (prevEnergySum s)
        (magSpec s) (prevMagSpec s) (phase s) (prevPhase s) (prevPhase2 s).
Definition set_complexOut (v : list complex) (s : ODF) : ODF :=
  mkODF (frameSize s) (hopSize s) (onsetDetectionFunctionType s) (windowType s)
        (complexIn s) v (initialised s) (frame s) (window s) (prevEnergySum s)
        (magSpec s) (prevMagSpec s) (phase s) (prevPhase s) (prevPhase2 s).
Definition set_frame (v : list float) (s : ODF) : ODF :=
  mkODF (frameSize s) (hopSize s) (onsetDetectionFunctionType s) (windowType s)
        (complexIn s) (complexOut s) (initialised s) v (window s) (prevEnergySum s)
        (magSpec s) (prevMagSpec s) (phase s) (prevPhase s) (prevPhase2 s).
Definition set_magSpec (v : list float) (s : ODF) : ODF :=
  mkODF (frameSize s) (hopSize s) (onsetDetectionFunctionType s) (windowType s)
        (complexIn s) (complexOut s) (initialised s) (frame s) (window s) (prevEnergySum s)
        v (prevMagSpec s) (phase s) (prevPhase s) (prevPhase2 s).
Definition set_prevMagSpec (v : list float) (s : ODF) : ODF :=
  mkODF (frameSize s) (hopSize s) (onsetDetectionFunctionType s) (windowType s)
        (complexIn s) (complexOut s) (initialised s) (frame s) (window s) (prevEnergySum s)
        (magSpec s) v (phase s) (prevPhase s) (prevPhase2 s).
Definition set_phase (v : list float) (s : ODF) : ODF :=
  mkODF (frameSize s) (hopSize s) (onsetDetectionFunctionType s) (windowType s)
        (complexIn s) (complexOut s) (initialised s) (frame s) (window s) (prevEnergySum s)
        (magSpec s) (prevMagSpec s) v (prevPhase s) (prevPhase2 s).
Definition set_prevPhase (v : list float) (s : ODF) : ODF :=
  mkODF (frameSize s) (hopSize s) (onsetDetectionFunctionType s) (windowType s)
        (complexIn s) (complexOut s) (initialised s) (frame s) (window s) (prevEnergySum s)
        (magSpec s) (prevMagSpec s) (phase s) v (prevPhase2 s).
Definition set_prevPhase2 (v : list float) (s : ODF) : ODF :=
  mkODF (frameSize s) (hopSize s) (onsetDetectionFunctionType s) (windowType s)
        (complexIn s) (complexOut s) (initialised s) (frame s) (window s) (prevEnergySum s)
        (magSpec s) (prevMagSpec s) (phase s) (prevPhase s) v.

(** The two loops of lines 153-164.  The elements of [buffer] are [float]s;
    storing one in the [double] frame does not change its value. *)
Definition shiftFrame (buffer : list float) (s : ODF) : ODF :=
  let s :=
    for_range 0 (frameSize s - hopSize s)
      (fun i s => set_frame (wr (frame s) i (rd 0 (frame s) (i + hopSize s)%Z)) s) s in
  let j := 0%Z in
  snd (for_range (frameSize s - hopSize s) (frameSize s)
         (fun i (st : Z * ODF) =>
            let (j, s) := st in
            let s := set_frame (wr (frame s) i (rd 0 buffer j)) s in
            ((j + 1)%Z, s))
         (j, s)).

Section Library.

(** [cos] and [atan2] of <math.h>, and the forward transform of the plan
    that [initialise] made for [complexIn] and [complexOut]. *)
Variable cos : float -> float.
Variable atan2 : float -> float -> float.
Variable fftw_execute_dft : list complex -> list complex.

Definition fftw_execute (s : ODF) : ODF :=
  set_complexOut (fftw_execute_dft (complexIn s)) s.

(** Lines 238-253. *)
Definition performFFT (s : ODF) : ODF :=
  let fsize2 := (frameSize s ÷ 2)%Z in
  let s :=
    for_range 0 fsize2
      (fun i s =>
         let s := set_complexIn
                    (wr_re (complexIn s) i
                       (rd 0 (frame s) (i + fsize2)%Z * rd 0 (window s) (i + fsize2)%Z)) s in
         let s := set_complexIn (wr_im (complexIn s) i 0) s in
         let s := set_complexIn
                    (wr_re (complexIn s) (i + fsize2)%Z
                       (rd 0 (frame s) i * rd 0 (window s) i)) s in
         set_complexIn (wr_im (complexIn s) (i + fsize2)%Z 0) s)
      s in
  fftw_execute s.

(** [sqrt(pow(re, 2) + pow(im, 2))], in [double]. *)
Definition magnitude (c : complex) : float := sqrt (pow2 (fst c) + pow2 (snd c)).

(** Lines 460 and 506: the radicand and its root are computed in [double];
    the root is stored in the [float] variable [csd]. *)
Definition csd_distance (s : ODF) (i : Z) (phaseDeviation : float) : float :=
  to_float
    (sqrt (pow2 (rd 0 (magSpec s) i) + pow2 (rd 0 (prevMagSpec s) i)
           - 2 * rd 0 (magSpec s) i * rd 0 (prevMagSpec s) i * cos phaseDeviation)).

(** One iteration of the loop of lines 449-469; [phaseDeviation], [csd] and
    [sum] are [float] variables. *)
Definition complexSpectralDifference_body (i : Z) (st : float * ODF) : float * ODF :=
  let (sum, s) := st in
  let s := set_phase
             (wr (phase s) i
                 (atan2 (snd (rd czero (complexOut s) i)) (fst (rd czero (complexOut s) i))))
             s in
  let s := set_magSpec (wr (magSpec s) i (magnitude (rd czero (complexOut s) i))) s in
  let phaseDeviation :=
    to_float (rd 0 (phase s) i - 2 * rd 0 (prevPhase s) i + rd 0 (prevPhase2 s) i) in
  let csd := csd_distance s i phaseDeviation in
  let sum := float_add sum csd in
  let s := set_prevPhase2 (wr (prevPhase2 s) i (rd 0 (prevPhase s) i)) s in
  let s := set_prevPhase (wr (prevPhase s) i (rd 0 (phase s) i)) s in
  let s := set_prevMagSpec (wr (prevMagSpec s) i (rd 0 (magSpec s) i)) s in
  (sum, s).

(** Lines 436-472. *)
Definition complexSpectralDifference (s : ODF) : float * ODF :=
  let s := performFFT s in
  let sum := 0 in
  for_range 0 (frameSize s) complexSpectralDifference_body (sum, s).

(** One iteration of the loop of lines 490-516; [magnitudeDifference] is a
    [float] variable too. *)
Definition complexSpectralDifferenceHWR_body (i : Z) (st : float * ODF) : float * ODF :=
  let (sum, s) := st in
  let s := set_phase
             (wr (phase s) i
                 (atan2 (snd (rd czero (complexOut s) i)) (fst (rd czero (complexOut s) i))))
             s in
  let s := set_magSpec (wr (magSpec s) i (magnitude (rd czero (complexOut s) i))) s in
  let phaseDeviation :=
    to_float (rd 0 (phase s) i - 2 * rd 0 (prevPhase s) i + rd 0 (prevPhase2 s) i) in
  let magnitudeDifference := to_float (rd 0 (magSpec s) i - rd 0 (prevMagSpec s) i) in
  let sum :=
    if 0 <? magnitudeDifference then
      let csd := csd_distance s i phaseDeviation in
      float_add sum csd
    else sum in
  let s := set_prevPhase2 (wr (prevPhase2 s) i (rd 0 (prevPhase s) i)) s in
  let s := set_prevPhase (wr (prevPhase s) i (rd 0 (phase s) i)) s in
  let s := set_prevMagSpec (wr (prevMagSpec s) i (rd 0 (magSpec s) i)) s in
  (sum, s).

(** Lines 475-519. *)
Definition complexSpectralDifferenceHWR (s : ODF) : float * ODF :=
  let s := performFFT s in
  let sum := 0 in
  for_range 0 (frameSize s) complexSpectralDifferenceHWR_body (sum, s).

(** Lines 148-234 for the two kinds of this part: the frame is advanced by
    one hop and the metric of the kind is computed.  The other kinds are
    not part of the binary model ([None]). *)
Definition calculateOnsetDetectionFunctionSample (buffer : list float) (s : ODF)
    : option (float * ODF) :=
  let s := shiftFrame buffer s in
  let t := onsetDetectionFunctionType s in
  if (t =? ComplexSpectralDifference)%Z then Some (complexSpectralDifference s)
  else if (t =? ComplexSpectralDifferenceHWR)%Z then Some (complexSpectralDifferenceHWR s)
  else None.

(** What the properties assume of the three library functions: [cos(0)] is
    1 and [atan2(0, x)] is 0 for [x > 0] (both exact in every <math.h>,
    C standard, annex F), and the transform of two points is their sum and
    their difference. *)
Definition library_facts : Prop :=
  cos 0 = 1 /\
  (forall x : float, (0 <? x) = true -> atan2 0 x = 0) /\
  (forall a b c d : float,
     fftw_execute_dft [(a, b); (c, d)] = [(a + c, b + d); (a - c, b - d)]).

End Library.

(** A library function with the assumed values built in: equal to the
    library function when [library_facts] holds, and computable at the
    arguments the facts speak of. *)
Definition cos_with_facts (cos : float -> float) (x : float) : float :=
  if Leibniz.eqb x 0 then 1 else cos x.
Definition atan2_with_facts (atan2 : float -> float -> float) (y x : float) : float :=
  if Leibniz.eqb y 0 && (0 <? x) then 0 else atan2 y x.
Definition dft_with_facts (dft : list complex -> list complex) (x : list complex)
    : list complex :=
  match x with
  | [(a, b); (c, d)] => [(a + c, b + d); (a - c, b - d)]
  | _ => dft x
  end.

(** The transform of two points, and stand-ins for [cos] and [atan2] that
    have the two values assumed: a library as [library_facts] asks. *)
Definition dft2 (x : list complex) : list complex :=
  match x with
  | [(a, b); (c, d)] => [(a + c, b + d); (a - c, b - d)]
  | _ => x
  end.
Definition cos_at_0 (x : float) : float := 1.
Definition atan2_at_0 (y x : float) : float := 0.

(** A ready engine of two samples per frame and per hop with the
    rectangular window, as [initialise] leaves it for the metric [kind]. *)
Definition twoSamples (kind : Z) : ODF :=
  mkODF 2 2 kind RectangularWindow
        [czero; czero] [czero; czero] true
        [0; 0] [1; 1] 0 [0; 0] [0; 0] [0; 0] [0; 0] [0; 0].

(** Two chunks of [float] samples: a sample of about [3.6e-8], then 1. *)
Definition chunk1 : list float := [0x1.396a02p-25; 1].
Definition chunk2 : list float := [0x1.53da96p-25; 1].

Definition is_float (x : float) : bool := Leibniz.eqb (to_float x) x.

(** [0 <= x], the comparison of the claim; false for a NaN. *)
Definition nonnegative (x : float) : bool := 0 <=? x.

End Binary.

(** * Properties *)

(** ** princarg *)

Lemma princarg_add_lower (x : R) : - pi < princarg_add x.
Proof. funelim (princarg_add x); [assumption | lra]. Qed.

Lemma princarg_add_fixed (x : R) : - pi < x -> princarg_add x = x.
Proof.
  intros Hx. rewrite princarg_add_equation_1.
  destruct (Rle_dec x (- pi)); [lra | reflexivity].
Qed.

Lemma princarg_sub_upper (x : R) : princarg_sub x <= pi.
Proof. funelim (princarg_sub x); [assumption | lra]. Qed.

Lemma princarg_sub_lower (x : R) : - pi < x -> - pi < princarg_sub x.
Proof.
  funelim (princarg_sub x); intros Hx; [|assumption].
  match goal with IH : _ -> _ |- _ => apply IH end. lra.
Qed.

Lemma princarg_sub_fixed (x : R) : x <= pi -> princarg_sub x = x.
Proof.
  intros Hx. rewrite princarg_sub_equation_1.
  destruct (Rgt_dec x pi); [lra | reflexivity].
Qed.

Lemma princarg_in_range (x : R) : - pi < princarg x <= pi.
Proof.
  unfold princarg. split.
  - apply princarg_sub_lower, princarg_add_lower.
  - apply princarg_sub_upper.
Qed.

Lemma princarg_fixed (x : R) : - pi < x <= pi -> princarg x = x.
Proof.
  intros [Hlo Hhi]. unfold princarg.
  rewrite princarg_add_fixed by assumption. apply princarg_sub_fixed. assumption.
Qed.

(** C4: for every real [x], [princarg x] lies in the half-open interval
    (-pi, pi]; [princarg] is idempotent; and on an [x] already in (-pi, pi]
    it is the identity.  [pi] is the constant of the program. *)
Theorem princarg_wraps (x : R) :
  - pi < princarg x <= pi /\
  princarg (princarg x) = princarg x /\
  (- pi < x <= pi -> princarg x = x).
Proof.
  split; [apply princarg_in_range|]. split.
  - apply princarg_fixed, princarg_in_range.
  - apply princarg_fixed.
Qed.

Lemma princarg_wraps_witness : princarg 1 = 1.
Proof.
  apply (proj2 (proj2 (princarg_wraps 1))). unfold pi. lra.
Defined.

(** One turn back from 4, and one turn forward from -4. *)
Example princarg_4 : princarg 4 = 4 - 2 * pi.
Proof.
  unfold princarg. rewrite princarg_add_fixed by (unfold pi; lra).
  rewrite princarg_sub_equation_1.
  destruct (Rgt_dec 4 pi) as [H|H]; [|unfold pi in H; lra]. simpl.
  apply princarg_sub_fixed. unfold pi. lra.
Qed.

Example princarg_minus_4 : princarg (-4) = -4 + 2 * pi.
Proof.
  unfold princarg. rewrite princarg_add_equation_1.
  destruct (Rle_dec (-4) (- pi)) as [H|H]; [|unfold pi in H; lra]. simpl.
  rewrite princarg_add_fixed by (unfold pi; lra).
  apply princarg_sub_fixed. unfold pi. lra.
Qed.

(** ** Arrays *)

Lemma length_wr {A} (a : list A) (i : Z) (v : A) : length (wr a i v) = length a.
Proof. unfold wr. destruct (i <? 0)%Z; [reflexivity | apply length_insert]. Qed.

Lemma rd_wr_same {A} (d : A) (a : list A) (i : Z) (v : A) :
  (0 <= i < Z.of_nat (length a))%Z -> rd d (wr a i v) i = v.
Proof.
  intros Hi. unfold rd, wr.
  destruct (i <? 0)%Z eqn:E; [lia|].
  rewrite list_lookup_insert_eq by lia. reflexivity.
Qed.

Lemma rd_wr_other {A} (d : A) (a : list A) (i j : Z) (v : A) :
  i <> j -> rd d (wr a i v) j = rd d a j.
Proof.
  intros Hij. unfold rd, wr.
  destruct (j <? 0)%Z eqn:Ej; [reflexivity|].
  destruct (i <? 0)%Z eqn:Ei; [reflexivity|].
  rewrite list_lookup_insert_ne by lia. reflexivity.
Qed.

Lemma rd_outside {A} (d : A) (a : list A) (i : Z) :
  ~ (0 <= i < Z.of_nat (length a))%Z -> rd d a i = d.
Proof.
  intros Hi. unfold rd. destruct (i <? 0)%Z eqn:E; [reflexivity|].
  rewrite lookup_ge_None_2 by lia. reflexivity.
Qed.

(** What is read back from the cell just written: the value written, or the
    default when the index is outside the array. *)
Lemma rd_wr_back {A} (d : A) (a : list A) (i : Z) (v : A) :
  rd d (wr a i v) i = v \/ rd d (wr a i v) i = d.
Proof.
  destruct (decide (0 <= i < Z.of_nat (length a))%Z) as [Hi|Hi].
  - left. apply rd_wr_same. assumption.
  - right. apply rd_outside. rewrite length_wr. assumption.
Qed.

Lemma rd_wr_back_nonneg (a : list R) (i : Z) (v : R) :
  0 <= v -> 0 <= rd 0 (wr a i v) i.
Proof. intros Hv. destruct (rd_wr_back 0 a i v) as [-> | ->]; lra. Qed.

Lemma rd_ext {A} (d : A) (a b : list A) :
  length a = length b ->
  (forall i, (0 <= i < Z.of_nat (length a))%Z -> rd d a i = rd d b i) ->
  a = b.
Proof.
  intros Hlen Hrd. apply list_eq. intros n.
  destruct (decide (n < length a)%nat) as [Hn|Hn].
  - specialize (Hrd (Z.of_nat n) ltac:(lia)). unfold rd in Hrd.
    destruct (Z.of_nat n <? 0)%Z eqn:E; [lia|]. rewrite Nat2Z.id in Hrd.
    destruct (lookup_lt_is_Some_2 a n Hn) as [x Hx].
    destruct (lookup_lt_is_Some_2 b n ltac:(lia)) as [y Hy].
    rewrite Hx, Hy in *. simpl in Hrd. congruence.
  - rewrite !lookup_ge_None_2 by lia. reflexivity.
Qed.

(** ** Loops *)

Lemma for_loop_invariant {S : Type} (P : Z -> S -> Prop) (body : Z -> S -> S)
    (n : nat) (i : Z) (s : S) :
  P i s ->
  (forall k t, (i <= k < i + Z.of_nat n)%Z -> P k t -> P (k + 1)%Z (body k t)) ->
  P (i + Z.of_nat n)%Z (for_loop n i body s).
Proof.
  revert i s. induction n as [|n IH]; intros i s H0 Hstep.
  - simpl. replace (i + Z.of_nat 0)%Z with i by lia. assumption.
  - simpl for_loop. replace (i + Z.of_nat (Datatypes.S n))%Z with ((i + 1) + Z.of_nat n)%Z by lia.
    apply IH.
    + apply Hstep; [lia | assumption].
    + intros k t Hk. apply Hstep. lia.
Qed.

(** The invariant rule of a [for] loop whose range is not empty or is
    exactly empty. *)
Lemma for_range_invariant {S : Type} (P : Z -> S -> Prop) (body : Z -> S -> S)
    (lo hi : Z) (s : S) :
  (lo <= hi)%Z ->
  P lo s ->
  (forall k t, (lo <= k < hi)%Z -> P k t -> P (k + 1)%Z (body k t)) ->
  P hi (for_range lo hi body s).
Proof.
  intros Hle H0 Hstep. unfold for_range.
  replace hi with (lo + Z.of_nat (Z.to_nat (hi - lo)))%Z at 1 by lia.
  apply for_loop_invariant; [assumption|].
  intros k t Hk. apply Hstep. lia.
Qed.

(** A property kept by every iteration holds after the loop, whatever the
    bounds. *)
Lemma for_range_preserves {S : Type} (P : S -> Prop) (body : Z -> S -> S)
    (lo hi : Z) (s : S) :
  P s ->
  (forall k t, (lo <= k < hi)%Z -> P t -> P (body k t)) ->
  P (for_range lo hi body s).
Proof.
  intros H0 Hstep. unfold for_range.
  apply (for_loop_invariant (fun _ t => P t)); [assumption|].
  intros k t Hk. apply Hstep. lia.
Qed.

(** Two loops over the same range run in step. *)
Lemma for_range_related {S T : Type} (Q : S -> T -> Prop)
    (body1 : Z -> S -> S) (body2 : Z -> T -> T) (lo hi : Z) (s : S) (t : T) :
  Q s t ->
  (forall k s t, (lo <= k < hi)%Z -> Q s t -> Q (body1 k s) (body2 k t)) ->
  Q (for_range lo hi body1 s) (for_range lo hi body2 t).
Proof.
  intros H0 Hstep. unfold for_range.
  assert (forall n i s t, (lo <= i)%Z -> (i + Z.of_nat n <= Z.max lo hi)%Z -> Q s t ->
             Q (for_loop n i body1 s) (for_loop n i body2 t)) as Hgen.
  { induction n as [|n IH]; intros i s' t' Hi Hn Hq; [assumption|].
    simpl. apply IH; [lia | lia |]. apply Hstep; [lia | assumption]. }
  apply Hgen; [lia | lia | assumption].
Qed.

(** ** setOnsetDetectionFunctionType *)

(** C7: [setOnsetDetectionFunctionType] changes the metric kind and nothing
    else: frame, window, previous magnitude spectrum, previous two phase
    spectra, previous energy sum, hop size and frame size (and every other
    member) are as before. *)
Theorem setOnsetDetectionFunctionType_frame_rule (t : Z) (s : ODF) :
  let s' := setOnsetDetectionFunctionType t s in
  onsetDetectionFunctionType s' = t /\
  frame s' = frame s /\ window s' = window s /\
  prevMagSpec s' = prevMagSpec s /\
  prevPhase s' = prevPhase s /\ prevPhase2 s' = prevPhase2 s /\
  prevEnergySum s' = prevEnergySum s /\
  hopSize s' = hopSize s /\ frameSize s' = frameSize s /\
  windowType s' = windowType s /\ initialised s' = initialised s /\
  magSpec s' = magSpec s /\ phase s' = phase s /\
  complexIn s' = complexIn s /\ complexOut s' = complexOut s.
Proof. cbv zeta. repeat split. Qed.

(** ** Sign of the detection functions *)

Lemma magnitude_nonneg (c : complex) : 0 <= magnitude c.
Proof. apply sqrt_pos. Qed.

Lemma energy_sum_nonneg (s : ODF) :
  0 <= for_range 0 (frameSize s)
         (fun i sum => sum + rd 0 (frame s) i * rd 0 (frame s) i) 0.
Proof.
  apply (for_range_preserves (fun sum => 0 <= sum)); [lra|].
  intros k t _ Ht. nra.
Qed.

Lemma energyEnvelope_nonneg (s : ODF) : 0 <= fst (energyEnvelope s).
Proof. apply energy_sum_nonneg. Qed.

Lemma energyDifference_nonneg (s : ODF) : 0 <= fst (energyDifference s).
Proof.
  unfold energyDifference. cbv zeta.
  destruct (Rgt_dec _ 0); simpl; lra.
Qed.

(** Every metric loop starts from [sum = 0] and each iteration adds a
    quantity that is not negative. *)
Ltac sum_loop_nonneg :=
  cbv zeta;
  apply (for_range_preserves (fun st : R * ODF => 0 <= fst st)); [simpl; lra|];
  intros k [sum t] Hk Hsum; simpl in Hsum.

Lemma spectralDifference_nonneg (s : ODF) : 0 <= fst (spectralDifference s).
Proof.
  unfold spectralDifference. sum_loop_nonneg.
  unfold spectralDifference_body. destruct (Rlt_dec _ 0); simpl; lra.
Qed.

Lemma spectralDifferenceHWR_nonneg (s : ODF) : 0 <= fst (spectralDifferenceHWR s).
Proof.
  unfold spectralDifferenceHWR. sum_loop_nonneg.
  unfold spectralDifferenceHWR_body. destruct (Rgt_dec _ 0); simpl; lra.
Qed.

Lemma phaseDeviation_nonneg (s : ODF) : 0 <= fst (phaseDeviation s).
Proof.
  unfold phaseDeviation. sum_loop_nonneg.
  unfold phaseDeviation_body. cbv zeta.
  destruct (Rgt_dec _ 0.1); simpl; [|lra].
  destruct (Rlt_dec _ 0); lra.
Qed.

Lemma csd_distance_nonneg (s : ODF) (i : Z) (d : R) : 0 <= csd_distance s i d.
Proof. apply sqrt_pos. Qed.

Lemma complexSpectralDifference_nonneg (s : ODF) :
  0 <= fst (complexSpectralDifference s).
Proof.
  unfold complexSpectralDifference. sum_loop_nonneg.
  unfold complexSpectralDifference_body. cbv zeta. simpl fst.
  match goal with |- 0 <= sum + csd_distance ?a ?b ?c =>
    pose proof (csd_distance_nonneg a b c) end.
  lra.
Qed.

Lemma complexSpectralDifferenceHWR_nonneg (s : ODF) :
  0 <= fst (complexSpectralDifferenceHWR s).
Proof.
  unfold complexSpectralDifferenceHWR. sum_loop_nonneg.
  unfold complexSpectralDifferenceHWR_body. cbv zeta.
  destruct (Rgt_dec _ 0); simpl fst; [|lra].
  match goal with |- 0 <= sum + csd_distance ?a ?b ?c =>
    pose proof (csd_distance_nonneg a b c) end.
  lra.
Qed.

Lemma bin_weight_pos (k hi : Z) : (0 <= k < hi)%Z -> 0 < IZR (k + 1).
Proof. intros Hk. apply IZR_lt. lia. Qed.

Lemma highFrequencyContent_nonneg (s : ODF) : 0 <= fst (highFrequencyContent s).
Proof.
  unfold highFrequencyContent. sum_loop_nonneg.
  unfold highFrequencyContent_body. cbv zeta. simpl.
  pose proof (bin_weight_pos k _ Hk).
  pose proof (rd_wr_back_nonneg (magSpec t) k _ (magnitude_nonneg (rd czero (complexOut t) k))).
  nra.
Qed.

Lemma highFrequencySpectralDifference_nonneg (s : ODF) :
  0 <= fst (highFrequencySpectralDifference s).
Proof.
  unfold highFrequencySpectralDifference. sum_loop_nonneg.
  unfold highFrequencySpectralDifference_body. cbv zeta. simpl.
  pose proof (bin_weight_pos k _ Hk).
  destruct (Rlt_dec _ 0); nra.
Qed.

Lemma highFrequencySpectralDifferenceHWR_nonneg (s : ODF) :
  0 <= fst (highFrequencySpectralDifferenceHWR s).
Proof.
  unfold highFrequencySpectralDifferenceHWR. sum_loop_nonneg.
  unfold highFrequencySpectralDifferenceHWR_body. cbv zeta. simpl.
  pose proof (bin_weight_pos k _ Hk).
  destruct (Rgt_dec _ 0); simpl; nra.
Qed.

Lemma dispatch_nonneg (s : ODF) : 0 <= fst (dispatch s).
Proof.
  unfold dispatch. cbv zeta.
  repeat match goal with |- context [if ?b then _ else _] => destruct b end.
  - apply energyEnvelope_nonneg.
  - apply energyDifference_nonneg.
  - apply spectralDifference_nonneg.
  - apply spectralDifferenceHWR_nonneg.
  - apply phaseDeviation_nonneg.
  - apply complexSpectralDifference_nonneg.
  - apply complexSpectralDifferenceHWR_nonneg.
  - apply highFrequencyContent_nonneg.
  - apply highFrequencySpectralDifference_nonneg.
  - apply highFrequencySpectralDifferenceHWR_nonneg.
  - simpl. lra.
Qed.

(** In exact real arithmetic the sample returned by
    [calculateOnsetDetectionFunctionSample] is not negative, whatever the
    metric kind.  For the two complex spectral differences this rests on
    the radicand of lines 460 and 506 not being negative, which holds of
    the real numbers and not of the rounded values: see
    [complexSpectralDifference_returns_NaN]. *)
Lemma calculateOnsetDetectionFunctionSample_nonneg (buffer : list R) (s : ODF) :
  0 <= fst (calculateOnsetDetectionFunctionSample buffer s).
Proof. apply dispatch_nonneg. Qed.

(** ** Spectral difference against its rectified variant *)

Lemma performFFT_same_input (s1 s2 : ODF) :
  same_spectral_input s1 s2 ->
  same_spectral_input (performFFT s1) (performFFT s2) /\
  complexOut (performFFT s1) = complexOut (performFFT s2).
Proof.
  intros (Hn & Hf & Hw & Hc & Hm & Hp).
  unfold performFFT. cbv zeta. rewrite Hn.
  match goal with
  | |- context [fftw_execute (for_range ?lo ?hi ?b s1)] =>
      assert (same_spectral_input (for_range lo hi b s1) (for_range lo hi b s2)) as Hloop
  end.
  { apply (for_range_related same_spectral_input).
    - repeat split; assumption.
    - intros k t1 t2 _ (Hn' & Hf' & Hw' & Hc' & Hm' & Hp').
      unfold same_spectral_input. simpl. rewrite Hf', Hw', Hc'. repeat split; assumption. }
  revert Hloop.
  match goal with
  | |- same_spectral_input ?a ?b -> _ => generalize a b
  end.
  intros t1 t2 (Hn' & Hf' & Hw' & Hc' & Hm' & Hp').
  unfold fftw_execute, same_spectral_input. simpl. rewrite Hc'.
  repeat split; assumption.
Qed.

Lemma fillMagSpec_same_input (s1 s2 : ODF) :
  frameSize s1 = frameSize s2 -> complexOut s1 = complexOut s2 ->
  magSpec s1 = magSpec s2 -> prevMagSpec s1 = prevMagSpec s2 ->
  frameSize (fillMagSpec s1) = frameSize (fillMagSpec s2) /\
  magSpec (fillMagSpec s1) = magSpec (fillMagSpec s2) /\
  prevMagSpec (fillMagSpec s1) = prevMagSpec (fillMagSpec s2).
Proof.
  intros Hn Ho Hm Hp.
  set (Q := fun t1 t2 : ODF =>
              frameSize t1 = frameSize t2 /\ complexOut t1 = complexOut t2 /\
              magSpec t1 = magSpec t2 /\ prevMagSpec t1 = prevMagSpec t2).
  assert (forall lo hi t1 t2, Q t1 t2 ->
            Q (for_range lo hi
                 (fun i s => set_magSpec
                    (wr (magSpec s) i (magnitude (rd czero (complexOut s) i))) s) t1)
              (for_range lo hi
                 (fun i s => set_magSpec
                    (wr (magSpec s) i (magnitude (rd czero (complexOut s) i))) s) t2)) as H1.
  { intros lo hi t1 t2 Ht. apply (for_range_related Q); [assumption|].
    intros k u1 u2 _ (Hn' & Ho' & Hm' & Hp'). unfold Q. simpl.
    rewrite Ho', Hm'. repeat split; assumption. }
  assert (forall lo hi t1 t2, Q t1 t2 ->
            Q (for_range lo hi
                 (fun i s => set_magSpec
                    (wr (magSpec s) i (rd 0 (magSpec s) (frameSize s - i))) s) t1)
              (for_range lo hi
                 (fun i s => set_magSpec
                    (wr (magSpec s) i (rd 0 (magSpec s) (frameSize s - i))) s) t2)) as H2.
  { intros lo hi t1 t2 Ht. apply (for_range_related Q); [assumption|].
    intros k u1 u2 _ (Hn' & Ho' & Hm' & Hp'). unfold Q. simpl.
    rewrite Hn', Hm'. repeat split; assumption. }
  unfold fillMagSpec. cbv zeta. rewrite Hn.
  specialize (H1 0%Z (frameSize s2 ÷ 2 + 1)%Z s1 s2 (conj Hn (conj Ho (conj Hm Hp)))).
  pose proof H1 as (Hn1 & _).
  rewrite Hn1.
  match goal with
  | |- context [for_range ?lo ?hi _ (for_range ?lo1 ?hi1 ?b1 s1)] =>
      specialize (H2 lo hi _ _ H1)
  end.
  destruct H2 as (? & ? & ? & ?). repeat split; assumption.
Qed.

Lemma rectified_step_le (sum1 sum2 diff : R) :
  sum1 <= sum2 ->
  (if Rgt_dec diff 0 then sum1 + diff else sum1)
  <= sum2 + (if Rlt_dec diff 0 then diff * -1 else diff).
Proof.
  intros H. destruct (Rgt_dec diff 0), (Rlt_dec diff 0); lra.
Qed.

(** C5: on two states that present the same input (frame, window, transform
    buffer, magnitude buffers and in particular the same previous magnitude
    spectrum), the rectified spectral difference is at most the full
    spectral difference; in particular on one and the same state. *)
Theorem spectralDifferenceHWR_le_spectralDifference (s1 s2 : ODF) :
  same_spectral_input s1 s2 ->
  fst (spectralDifferenceHWR s1) <= fst (spectralDifference s2).
Proof.
  intros Hsame. unfold spectralDifferenceHWR, spectralDifference. cbv zeta.
  destruct (performFFT_same_input s1 s2 Hsame) as ((Hn & _ & _ & _ & Hm & Hp) & Ho).
  destruct (fillMagSpec_same_input _ _ Hn Ho Hm Hp) as (Hn' & Hm' & Hp').
  rewrite Hn'.
  set (Q := fun (st1 st2 : R * ODF) =>
              fst st1 <= fst st2 /\ magSpec (snd st1) = magSpec (snd st2) /\
              prevMagSpec (snd st1) = prevMagSpec (snd st2)).
  match goal with
  | |- fst (for_range ?lo ?hi ?b1 ?i1) <= fst (for_range ?lo ?hi ?b2 ?i2) =>
      assert (Q (for_range lo hi b1 i1) (for_range lo hi b2 i2)) as HQ
  end.
  { apply (for_range_related Q).
    - unfold Q. simpl. split; [lra | split; assumption].
    - intros k [sum1 t1] [sum2 t2] _ (Hs & Hm1 & Hp1). simpl in Hs, Hm1, Hp1.
      unfold Q, spectralDifferenceHWR_body, spectralDifference_body. simpl.
      rewrite Hm1, Hp1. split; [|split; reflexivity].
      apply rectified_step_le. assumption. }
  apply HQ.
Qed.

Lemma spectralDifferenceHWR_le_spectralDifference_witness :
  fst (spectralDifferenceHWR
         (setOnsetDetectionFunctionType SpectralDifferenceHWR twoSamples_afterImpulse))
  <= fst (spectralDifference
            (setOnsetDetectionFunctionType SpectralDifference twoSamples_afterImpulse)).
Proof.
  apply (spectralDifferenceHWR_le_spectralDifference
           (setOnsetDetectionFunctionType SpectralDifferenceHWR twoSamples_afterImpulse)
           (setOnsetDetectionFunctionType SpectralDifference twoSamples_afterImpulse)).
  repeat split.
Defined.

(** ** Initialisation *)

Lemma length_resize (n : nat) (a : list R) : length (resize n a) = n.
Proof.
  unfold resize. rewrite length_app, length_take, length_replicate. lia.
Qed.

Lemma length_tabulate {A} (n : nat) (g : Z -> A) : length (tabulate n g) = n.
Proof. unfold tabulate. rewrite length_map, length_seq. reflexivity. Qed.

Lemma rd_tabulate {A} (d : A) (n : nat) (g : Z -> A) (i : Z) :
  (0 <= i < Z.of_nat n)%Z -> rd d (tabulate n g) i = g i.
Proof.
  intros Hi. unfold rd, tabulate. destruct (i <? 0)%Z eqn:E; [lia|].
  rewrite list_lookup_fmap, lookup_seq_lt by lia. simpl. f_equal. lia.
Qed.

Lemma rd_replicate_zero (n : nat) (i : Z) : rd 0 (replicate n 0) i = 0.
Proof.
  unfold rd. destruct (i <? 0)%Z; [reflexivity|].
  destruct (replicate n 0 !! Z.to_nat i) as [x|] eqn:E; [|reflexivity].
  apply lookup_replicate in E. simpl. tauto.
Qed.

Lemma all_zero_replicate (n : nat) (a : list R) :
  length a = n ->
  (forall i, (0 <= i < Z.of_nat n)%Z -> rd 0 a i = 0) ->
  a = replicate n 0.
Proof.
  intros Hlen Hz. apply (rd_ext 0).
  - rewrite length_replicate. assumption.
  - intros i Hi. rewrite rd_replicate_zero. apply Hz. lia.
Qed.


Lemma window_only_refl (s : ODF) : window_only s s.
Proof. split; reflexivity. Qed.

Lemma window_only_write (s t : ODF) (i : Z) (v : R) :
  window_only s t -> window_only s (set_window (wr (window t) i v) t).
Proof.
  intros [Hs Hl]. split.
  - exact Hs.
  - simpl. rewrite length_wr. exact Hl.
Qed.

Lemma calculateRectangularWindow_only (s : ODF) :
  window_only s (calculateRectangularWindow s).
Proof.
  unfold calculateRectangularWindow.
  apply (for_range_preserves (window_only s)); [apply window_only_refl|].
  intros k t _ Ht. apply window_only_write. assumption.
Qed.

Lemma calculateHanningWindow_only (s : ODF) :
  window_only s (calculateHanningWindow s).
Proof.
  unfold calculateHanningWindow. cbv zeta.
  apply (for_range_preserves (window_only s)); [apply window_only_refl|].
  intros k t _ Ht. apply window_only_write. assumption.
Qed.

Lemma calclulateHammingWindow_only (s : ODF) :
  window_only s (calclulateHammingWindow s).
Proof.
  unfold calclulateHammingWindow. cbv zeta.
  apply (for_range_preserves (fun st : R * ODF => window_only s (snd st)));
    [apply window_only_refl|].
  intros k [x t] _ Ht. simpl. apply window_only_write. assumption.
Qed.

Lemma calculateBlackmanWindow_only (s : ODF) :
  window_only s (calculateBlackmanWindow s).
Proof.
  unfold calculateBlackmanWindow. cbv zeta.
  apply (for_range_preserves (fun st : R * ODF => window_only s (snd st)));
    [apply window_only_refl|].
  intros k [x t] _ Ht. simpl. apply window_only_write. assumption.
Qed.

Lemma calculateTukeyWindow_only (s : ODF) :
  window_only s (calculateTukeyWindow s).
Proof.
  unfold calculateTukeyWindow. cbv zeta.
  apply (for_range_preserves (fun st : R * ODF => window_only s (snd st)));
    [apply window_only_refl|].
  intros k [x t] _ Ht. simpl. apply window_only_write. assumption.
Qed.

Lemma selectWindow_only (s : ODF) : window_only s (selectWindow s).
Proof.
  unfold selectWindow.
  repeat match goal with |- context [if ?b then _ else _] => destruct b end;
    auto using calculateRectangularWindow_only, calculateHanningWindow_only,
      calclulateHammingWindow_only, calculateBlackmanWindow_only,
      calculateTukeyWindow_only.
Qed.

(** The Hanning loop in closed form. *)
Lemma calculateHanningWindow_coefficients (s : ODF) :
  length (window s) = Z.to_nat (frameSize s) ->
  window (calculateHanningWindow s)
  = tabulate (Z.to_nat (frameSize s)) (hanningCoefficient (frameSize s)).
Proof.
  intros Hlen. unfold calculateHanningWindow. cbv zeta.
  destruct (Z_lt_le_dec (frameSize s) 0) as [Hneg|Hpos].
  { unfold for_range. replace (Z.to_nat (frameSize s - 0)) with 0%nat by lia.
    simpl. replace (Z.to_nat (frameSize s)) with 0%nat in * by lia.
    destruct (window s); [reflexivity | discriminate]. }
  set (P := fun (k : Z) (t : ODF) =>
              length (window t) = Z.to_nat (frameSize s) /\
              forall j, (0 <= j < k)%Z ->
                        rd 0 (window t) j = hanningCoefficient (frameSize s) j).
  match goal with
  | |- window (for_range ?lo ?hi ?b s) = _ =>
      assert (P hi (for_range lo hi b s)) as [Hl Hv]
  end.
  { apply for_range_invariant; [assumption | split; [assumption | intros; lia] |].
    intros k t Hk [Hl Hv]. split.
    - simpl. rewrite length_wr. assumption.
    - intros j Hj. simpl. destruct (Z.eq_dec j k) as [->|Hne].
      + rewrite rd_wr_same by lia. reflexivity.
      + rewrite rd_wr_other by congruence. apply Hv. lia. }
  apply (rd_ext 0).
  - rewrite length_tabulate. assumption.
  - intros i Hi. rewrite rd_tabulate by lia. apply Hv. lia.
Qed.

Lemma zeroHistory_spec (s : ODF) :
  let n := Z.to_nat (frameSize s) in
  length (frame s) = n -> length (prevMagSpec s) = n ->
  length (prevPhase s) = n -> length (prevPhase2 s) = n ->
  history_only s (zeroHistory s) /\
  frame (zeroHistory s) = replicate n 0 /\
  prevMagSpec (zeroHistory s) = replicate n 0 /\
  prevPhase (zeroHistory s) = replicate n 0 /\
  prevPhase2 (zeroHistory s) = replicate n 0.
Proof.
  intros n Hf Hm Hp Hp2. unfold zeroHistory.
  destruct (Z_lt_le_dec (frameSize s) 0) as [Hneg|Hpos].
  { unfold for_range. replace (Z.to_nat (frameSize s - 0)) with 0%nat by lia.
    simpl. assert (n = 0%nat) as Hn by (unfold n; lia). rewrite Hn in *.
    split; [reflexivity|].
    destruct (frame s), (prevMagSpec s), (prevPhase s), (prevPhase2 s);
      try discriminate. repeat split. }
  set (P := fun (k : Z) (t : ODF) =>
              history_only s t /\
              (length (frame t) = n /\ length (prevMagSpec t) = n /\
               length (prevPhase t) = n /\ length (prevPhase2 t) = n) /\
              forall j, (0 <= j < k)%Z ->
                        rd 0 (frame t) j = 0 /\ rd 0 (prevMagSpec t) j = 0 /\
                        rd 0 (prevPhase t) j = 0 /\ rd 0 (prevPhase2 t) j = 0).
  assert (P (frameSize s) (for_range 0 (frameSize s) zeroHistory_body s))
    as (Ho & (Hl1 & Hl2 & Hl3 & Hl4) & Hz).
  { apply for_range_invariant; [assumption| |].
    - split; [reflexivity|]. split; [tauto|]. intros; lia.
    - intros k t Hk (Ho & (Hl1 & Hl2 & Hl3 & Hl4) & Hz). split; [exact Ho|]. split.
      + simpl. rewrite !length_wr. tauto.
      + intros j Hj. simpl. destruct (Z.eq_dec j k) as [->|Hne].
        * rewrite !rd_wr_same by lia. tauto.
        * rewrite !rd_wr_other by congruence. apply Hz. lia. }
  split; [exact Ho|].
  repeat split; apply all_zero_replicate; try assumption;
    intros i Hi; apply Hz; lia.
Qed.

Lemma resizeBuffers_spec (n : nat) (s : ODF) :
  let t := resizeBuffers n s in
  frameSize t = frameSize s /\ hopSize t = hopSize s /\
  onsetDetectionFunctionType t = onsetDetectionFunctionType s /\
  windowType t = windowType s /\ initialised t = initialised s /\
  complexIn t = complexIn s /\ complexOut t = complexOut s /\
  prevEnergySum t = prevEnergySum s /\
  length (frame t) = n /\ length (window t) = n /\ length (magSpec t) = n /\
  length (prevMagSpec t) = n /\ length (phase t) = n /\
  length (prevPhase t) = n /\ length (prevPhase2 t) = n.
Proof.
  cbv zeta. unfold resizeBuffers. simpl. rewrite !length_resize.
  repeat split.
Qed.

Lemma window_only_fields (s t : ODF) :
  window_only s t ->
  frameSize t = frameSize s /\ hopSize t = hopSize s /\
  onsetDetectionFunctionType t = onsetDetectionFunctionType s /\
  windowType t = windowType s /\
  frame t = frame s /\ prevMagSpec t = prevMagSpec s /\
  prevPhase t = prevPhase s /\ prevPhase2 t = prevPhase2 s /\
  magSpec t = magSpec s /\ phase t = phase s /\
  length (window t) = length (window s).
Proof.
  intros [H Hl].
  pose proof (f_equal frameSize H). pose proof (f_equal hopSize H).
  pose proof (f_equal onsetDetectionFunctionType H).
  pose proof (f_equal windowType H). pose proof (f_equal frame H).
  pose proof (f_equal prevMagSpec H). pose proof (f_equal prevPhase H).
  pose proof (f_equal prevPhase2 H). pose proof (f_equal magSpec H).
  pose proof (f_equal phase H).
  simpl in *. repeat (split; [assumption|]). assumption.
Qed.

Lemma history_only_fields (s t : ODF) :
  history_only s t ->
  frameSize t = frameSize s /\ hopSize t = hopSize s /\
  onsetDetectionFunctionType t = onsetDetectionFunctionType s /\
  windowType t = windowType s /\
  window t = window s /\ magSpec t = magSpec s /\ phase t = phase s.
Proof.
  intros H. unfold history_only in H.
  pose proof (f_equal frameSize H). pose proof (f_equal hopSize H).
  pose proof (f_equal onsetDetectionFunctionType H).
  pose proof (f_equal windowType H). pose proof (f_equal window H).
  pose proof (f_equal magSpec H). pose proof (f_equal phase H).
  simpl in *. repeat (split; [assumption|]). assumption.
Qed.

Lemma initialise_returns (uninit : nat -> complex) (h f t w : Z) (s : ODF) :
  (0 <= f)%Z ->
  exists s', initialise uninit h f t w s = Returned s' /\
             initialised_as uninit h f t w s'.
Proof.
  intros Hf. unfold initialise. cbv zeta.
  destruct (f <? 0)%Z eqn:E; [lia|].
  eexists. split; [reflexivity|].
  match goal with
  | |- context [resizeBuffers ?n ?s0] =>
      assert (hopSize s0 = h /\ frameSize s0 = f /\
              onsetDetectionFunctionType s0 = t /\ windowType s0 = w)
        as (I1 & I2 & I3 & I4) by (simpl; tauto);
      pose proof (resizeBuffers_spec n s0) as Hr; cbv zeta in Hr;
      revert Hr; generalize (resizeBuffers n s0)
  end.
  intros s1 (R1 & R2 & R3 & R4 & _ & _ & _ & _ & L1 & L2 & L3 & L4 & L5 & L6 & L7).
  pose proof (window_only_fields _ _ (selectWindow_only s1))
    as (W1 & W2 & W3 & W4 & W5 & W6 & W7 & W8 & W9 & W10 & W11).
  remember (selectWindow s1) as s2 eqn:E2.
  assert (frameSize s2 = f) as F2 by congruence.
  pose proof (zeroHistory_spec s2) as Hz. cbv zeta in Hz. rewrite F2 in Hz.
  destruct Hz as (Ho & Z1 & Z2 & Z3 & Z4); try congruence.
  apply history_only_fields in Ho. destruct Ho as (B1 & B2 & B3 & B4 & B5 & B6 & B7).
  revert Z1 Z2 Z3 Z4 B1 B2 B3 B4 B5 B6 B7. generalize (zeroHistory s2).
  intros s3 Z1 Z2 Z3 Z4 B1 B2 B3 B4 B5 B6 B7.
  unfold initialised_as. simpl.
  assert (frameSize s3 = f) as F3 by congruence. rewrite F3.
  repeat (split; [first [reflexivity | assumption | congruence]|]).
  exists s1. rewrite <- E2.
  repeat (split; [first [assumption | congruence]|]). assumption.
Qed.

Lemma initialise_negative_frameSize (uninit : nat -> complex) (h f t w : Z) (s : ODF) :
  (f < 0)%Z -> exists s', initialise uninit h f t w s = LengthError s'.
Proof.
  intros Hf. unfold initialise. cbv zeta.
  destruct (f <? 0)%Z eqn:E; [|lia]. eexists. reflexivity.
Qed.

(** C1, as stated, fails: with [hopSize = 8 > frameSize = 4] the call
    returns normally and the engine is ready. *)
Lemma initialise_accepts_hop_above_frame :
  (4 < 8)%Z /\
  exists s', initialise (fun _ => czero) 8 4 EnergyEnvelope RectangularWindow fresh
             = Returned s' /\
             initialised s' = true /\ hopSize s' = 8%Z /\ frameSize s' = 4%Z.
Proof.
  split; [lia|].
  destruct (initialise_returns (fun _ => czero) 8 4 EnergyEnvelope RectangularWindow fresh)
    as (s' & Hs & Hi & Hh & Hf & _); [lia|].
  exists s'. repeat (split; [assumption|]). assumption.
Qed.

(** C1, amended: [initialise] does not validate the sizes.  For every
    [frameSize >= 0] and every [hopSize] (above [frameSize], zero or negative
    included) the call returns normally, stores both sizes and both kinds as
    given, zeroes frame and history, and leaves [initialised = true]. *)
Theorem initialise_does_not_validate (uninit : nat -> complex) (h f t w : Z) (s : ODF) :
  (0 <= f)%Z ->
  exists s', initialise uninit h f t w s = Returned s' /\
             initialised s' = true /\
             hopSize s' = h /\ frameSize s' = f /\
             onsetDetectionFunctionType s' = t /\ windowType s' = w /\
             frame s' = replicate (Z.to_nat f) 0 /\
             prevMagSpec s' = replicate (Z.to_nat f) 0 /\
             prevPhase s' = replicate (Z.to_nat f) 0 /\
             prevPhase2 s' = replicate (Z.to_nat f) 0 /\
             prevEnergySum s' = 0.
Proof.
  intros Hf.
  destruct (initialise_returns uninit h f t w s Hf)
    as (s' & Hs & H1 & H2 & H3 & H4 & H5 & H6 & H7 & H8 & H9 & H10 & _).
  exists s'. repeat (split; [assumption|]). assumption.
Qed.

Lemma initialise_does_not_validate_witness :
  (0 <= 4)%Z /\
  exists s', initialise (fun _ => czero) 8 4 EnergyEnvelope RectangularWindow fresh
             = Returned s' /\
             initialised s' = true /\
             hopSize s' = 8%Z /\ frameSize s' = 4%Z /\
             onsetDetectionFunctionType s' = EnergyEnvelope /\
             windowType s' = RectangularWindow /\
             frame s' = replicate (Z.to_nat 4) 0 /\
             prevMagSpec s' = replicate (Z.to_nat 4) 0 /\
             prevPhase s' = replicate (Z.to_nat 4) 0 /\
             prevPhase2 s' = replicate (Z.to_nat 4) 0 /\
             prevEnergySum s' = 0.
Proof.
  split; [lia|].
  apply (initialise_does_not_validate (fun _ => czero) 8 4
           EnergyEnvelope RectangularWindow fresh).
  lia.
Defined.

(** ** Unknown kinds *)

Lemma dispatch_unknown (s : ODF) :
  ~ (0 <= onsetDetectionFunctionType s <= 9)%Z -> dispatch s = (1, s).
Proof.
  intros Ht. unfold dispatch. cbv zeta.
  unfold EnergyEnvelope, EnergyDifference, SpectralDifference, SpectralDifferenceHWR,
    PhaseDeviation, ComplexSpectralDifference, ComplexSpectralDifferenceHWR,
    HighFrequencyContent, HighFrequencySpectralDifference,
    HighFrequencySpectralDifferenceHWR.
  repeat match goal with
         | |- context [(?a =? ?b)%Z] => destruct (Z.eqb_spec a b); [lia|]
         end.
  reflexivity.
Qed.

Lemma selectWindow_unknown (s : ODF) :
  ~ (0 <= windowType s <= 4)%Z -> selectWindow s = calculateHanningWindow s.
Proof.
  intros Hw. unfold selectWindow.
  unfold RectangularWindow, HanningWindow, HammingWindow, BlackmanWindow, TukeyWindow.
  repeat match goal with
         | |- context [(?a =? ?b)%Z] => destruct (Z.eqb_spec a b); [lia|]
         end.
  reflexivity.
Qed.

(** C8: with a metric kind outside the ten enumerators the call returns the
    constant 1.0 (and only advances the frame); with a window kind outside
    the five enumerators [initialise] writes the Hanning coefficients. *)
Theorem unknown_kinds_fall_back :
  (forall (buffer : list R) (s : ODF),
      ~ (0 <= onsetDetectionFunctionType s <= 9)%Z ->
      calculateOnsetDetectionFunctionSample buffer s = (1, shiftFrame buffer s)) /\
  (forall (uninit : nat -> complex) (h f t w : Z) (s : ODF),
      ~ (0 <= w <= 4)%Z -> (0 <= f)%Z ->
      exists s', initialise uninit h f t w s = Returned s' /\
                 window s' = tabulate (Z.to_nat f) (hanningCoefficient f)).
Proof.
  split.
  - intros buffer s Ht. unfold calculateOnsetDetectionFunctionSample.
    apply dispatch_unknown.
    assert (onsetDetectionFunctionType (shiftFrame buffer s)
            = onsetDetectionFunctionType s) as ->; [|assumption].
    unfold shiftFrame. cbv zeta.
    match goal with
    | |- onsetDetectionFunctionType (snd (for_range ?lo ?hi ?b (?j, ?s1))) = _ =>
        assert (onsetDetectionFunctionType s1 = onsetDetectionFunctionType s) as H1;
        [| apply (for_range_preserves
                    (fun st : Z * ODF =>
                       onsetDetectionFunctionType (snd st) = onsetDetectionFunctionType s));
           [exact H1 | intros k [j' t'] _ Hk; exact Hk] ]
    end.
    apply (for_range_preserves
             (fun t' : ODF => onsetDetectionFunctionType t' = onsetDetectionFunctionType s));
      [reflexivity | intros k t' _ Hk; exact Hk].
  - intros uninit h f t w s Hw Hf.
    destruct (initialise_returns uninit h f t w s Hf) as (s' & Hs & Hi).
    exists s'. split; [assumption|].
    unfold initialised_as in Hi. cbv zeta in Hi.
    destruct Hi as (_ & _ & _ & _ & _ & _ & _ & _ & _ & _ & _ & _ & _ & _ & _ & s1 & F1 & W1 & L1 & ->).
    rewrite selectWindow_unknown by (rewrite W1; assumption).
    rewrite calculateHanningWindow_coefficients by congruence.
    rewrite F1. reflexivity.
Qed.

Lemma unknown_kinds_fall_back_witness :
  calculateOnsetDetectionFunctionSample [0] unknownKinds
  = (1, shiftFrame [0] unknownKinds) /\
  exists s', initialise (fun _ => czero) 2 4 EnergyEnvelope 7 fresh = Returned s' /\
             window s' = tabulate (Z.to_nat 4) (hanningCoefficient 4).
Proof.
  split.
  - apply (proj1 unknown_kinds_fall_back). simpl. lia.
  - apply (proj2 unknown_kinds_fall_back); lia.
Defined.

(** ** The transform stage *)

Lemma performFFT_transform_only (s : ODF) : transform_only s (performFFT s).
Proof.
  unfold performFFT. cbv zeta.
  match goal with
  | |- transform_only s (fftw_execute (for_range ?lo ?hi ?b s)) =>
      assert (transform_only s (for_range lo hi b s)) as H;
      [| revert H; generalize (for_range lo hi b s); intros t H; exact H]
  end.
  apply (for_range_preserves (transform_only s)); [reflexivity|].
  intros k t _ Ht. exact Ht.
Qed.

Lemma transform_only_fields (s t : ODF) :
  transform_only s t ->
  frameSize t = frameSize s /\ hopSize t = hopSize s /\
  onsetDetectionFunctionType t = onsetDetectionFunctionType s /\
  windowType t = windowType s /\ initialised t = initialised s /\
  frame t = frame s /\ window t = window s /\
  prevEnergySum t = prevEnergySum s /\
  magSpec t = magSpec s /\ prevMagSpec t = prevMagSpec s /\
  phase t = phase s /\ prevPhase t = prevPhase s /\ prevPhase2 t = prevPhase2 s.
Proof.
  intros H. unfold transform_only in H.
  pose proof (f_equal frameSize H). pose proof (f_equal hopSize H).
  pose proof (f_equal onsetDetectionFunctionType H).
  pose proof (f_equal windowType H). pose proof (f_equal initialised H).
  pose proof (f_equal frame H). pose proof (f_equal window H).
  pose proof (f_equal prevEnergySum H).
  pose proof (f_equal magSpec H). pose proof (f_equal prevMagSpec H).
  pose proof (f_equal phase H). pose proof (f_equal prevPhase H).
  pose proof (f_equal prevPhase2 H).
  simpl in *. repeat (split; [assumption|]). assumption.
Qed.

(** ** Phase deviation: the phase history *)

Lemma phaseDeviation_loop_history (s : ODF) (sum : R) :
  let n := Z.to_nat (frameSize s) in
  length (phase s) = n -> length (prevPhase s) = n -> length (prevPhase2 s) = n ->
  let s' := snd (for_range 0 (frameSize s) phaseDeviation_body (sum, s)) in
  forall i, (0 <= i < frameSize s)%Z ->
    rd 0 (prevPhase2 s') i = rd 0 (prevPhase s) i /\
    rd 0 (prevPhase s') i = rd 0 (phase s') i /\
    rd 0 (phase s') i
    = atan2 (snd (rd czero (complexOut s) i)) (fst (rd czero (complexOut s) i)).
Proof.
  intros n L1 L2 L3 s' i Hi.
  set (P := fun (k : Z) (st : R * ODF) =>
      let t := snd st in
      (frameSize t = frameSize s /\ complexOut t = complexOut s /\
       length (phase t) = n /\ length (prevPhase t) = n /\ length (prevPhase2 t) = n) /\
      (forall j, (0 <= j < k)%Z ->
         rd 0 (prevPhase2 t) j = rd 0 (prevPhase s) j /\
         rd 0 (prevPhase t) j = rd 0 (phase t) j /\
         rd 0 (phase t) j
         = atan2 (snd (rd czero (complexOut s) j)) (fst (rd czero (complexOut s) j))) /\
      (forall j, (k <= j)%Z -> rd 0 (prevPhase t) j = rd 0 (prevPhase s) j)).
  assert (P (frameSize s) (for_range 0 (frameSize s) phaseDeviation_body (sum, s)))
    as (_ & Hdone & _).
  { apply for_range_invariant; [lia| |].
    - unfold P. simpl. repeat split; try assumption; intros; lia.
    - intros k [sum' t] Hk ((F & O & M1 & M2 & M3) & Hlow & Hhigh).
      simpl in F, O, M1, M2, M3, Hlow, Hhigh.
      unfold P, phaseDeviation_body. cbv zeta. simpl.
      split; [rewrite !length_wr; tauto|]. split.
      + intros j Hj. destruct (Z.eq_dec j k) as [->|Hne].
        * rewrite !rd_wr_same by (unfold n in *; lia).
          rewrite O. split; [apply Hhigh; lia | split; reflexivity].
        * rewrite !rd_wr_other by congruence. apply Hlow. lia.
      + intros j Hj. rewrite rd_wr_other by lia. apply Hhigh. lia. }
  apply Hdone. assumption.
Qed.

(** C10: in [phaseDeviation] the phase history is updated for every bin,
    whether or not its magnitude exceeds 0.1 (the threshold guards the sum
    only): after the call [prevPhase2[i]] is the old [prevPhase[i]] and
    [prevPhase[i]] is the phase [phase[i]] of the current spectrum, for all
    [0 <= i < frameSize], on a state whose phase buffers have [frameSize]
    elements. *)
Theorem phaseDeviation_updates_history_of_every_bin (s : ODF) (i : Z) :
  length (phase s) = Z.to_nat (frameSize s) ->
  length (prevPhase s) = Z.to_nat (frameSize s) ->
  length (prevPhase2 s) = Z.to_nat (frameSize s) ->
  (0 <= i < frameSize s)%Z ->
  let s' := snd (phaseDeviation s) in
  rd 0 (prevPhase2 s') i = rd 0 (prevPhase s) i /\
  rd 0 (prevPhase s') i = rd 0 (phase s') i /\
  rd 0 (phase s') i = binPhase (performFFT s) i.
Proof.
  intros L1 L2 L3 Hi. cbv zeta. unfold phaseDeviation. cbv zeta.
  destruct (transform_only_fields _ _ (performFFT_transform_only s))
    as (F & _ & _ & _ & _ & _ & _ & _ & _ & _ & E1 & E2 & E3).
  rewrite <- E2. unfold binPhase, bin.
  apply phaseDeviation_loop_history; rewrite ?E1, ?E2, ?E3, F; assumption.
Qed.

Lemma phaseDeviation_updates_history_of_every_bin_witness :
  rd 0 (prevPhase2 (snd (phaseDeviation twoBins))) 1 = rd 0 (prevPhase twoBins) 1 /\
  rd 0 (prevPhase (snd (phaseDeviation twoBins))) 1
  = rd 0 (phase (snd (phaseDeviation twoBins))) 1 /\
  rd 0 (phase (snd (phaseDeviation twoBins))) 1 = binPhase (performFFT twoBins) 1.
Proof.
  apply (phaseDeviation_updates_history_of_every_bin twoBins 1);
    [reflexivity | reflexivity | reflexivity | simpl; lia].
Defined.

(** ** What the detection functions keep *)

Lemma kept_refl (s : ODF) : kept s s.
Proof. unfold kept. tauto. Qed.

Lemma kept_trans (s t u : ODF) : kept s t -> kept t u -> kept s u.
Proof.
  unfold kept.
  intros (A1 & A2 & A3 & A4 & A5 & A6 & A7 & A8 & A9 & A10 & A11 & A12 & A13)
         (B1 & B2 & B3 & B4 & B5 & B6 & B7 & B8 & B9 & B10 & B11 & B12 & B13).
  repeat (split; [congruence|]). congruence.
Qed.

Lemma performFFT_kept (s : ODF) : kept s (performFFT s).
Proof.
  unfold performFFT. cbv zeta.
  match goal with
  | |- kept s (fftw_execute (for_range ?lo ?hi ?b s)) =>
      assert (kept s (for_range lo hi b s)) as H;
      [| revert H; generalize (for_range lo hi b s); intros t H; exact H]
  end.
  apply (for_range_preserves (kept s)); [apply kept_refl|].
  intros k t _ Ht. unfold kept in *. simpl. unfold wr_re, wr_im.
  rewrite !length_wr. exact Ht.
Qed.

(** Every metric loop keeps the configuration, the frame, the window and
    the buffer lengths. *)
Ltac loop_keeps s0 body :=
  apply (for_range_preserves (fun st : R * ODF => kept s0 (snd st)));
  [ simpl; assumption
  | let k := fresh "k" in let sum := fresh "sum" in
    let u := fresh "u" in let Hu := fresh "Hu" in
    intros k [sum u] _ Hu; simpl in Hu; unfold body; cbv zeta;
    repeat match goal with |- context [if ?b then _ else _] => destruct b end;
    unfold kept in *; simpl; rewrite ?length_wr; exact Hu ].

Lemma fillMagSpec_kept (s : ODF) : kept s (fillMagSpec s).
Proof.
  unfold fillMagSpec. cbv zeta.
  apply (for_range_preserves (kept s)).
  - apply (for_range_preserves (kept s)); [apply kept_refl|].
    intros k t _ Ht. unfold kept in *. simpl. rewrite length_wr. exact Ht.
  - intros k t _ Ht. unfold kept in *. simpl. rewrite length_wr. exact Ht.
Qed.

Lemma energyDifference_kept (s : ODF) : kept s (snd (energyDifference s)).
Proof.
  unfold energyDifference. cbv zeta.
  destruct (Rgt_dec _ 0); unfold kept; simpl; tauto.
Qed.

Lemma spectralDifference_kept (s : ODF) : kept s (snd (spectralDifference s)).
Proof.
  unfold spectralDifference. cbv zeta.
  pose proof (kept_trans _ _ _ (performFFT_kept s) (fillMagSpec_kept (performFFT s))) as H.
  revert H. generalize (fillMagSpec (performFFT s)). intros t H.
  loop_keeps s spectralDifference_body.
Qed.

Lemma spectralDifferenceHWR_kept (s : ODF) : kept s (snd (spectralDifferenceHWR s)).
Proof.
  unfold spectralDifferenceHWR. cbv zeta.
  pose proof (kept_trans _ _ _ (performFFT_kept s) (fillMagSpec_kept (performFFT s))) as H.
  revert H. generalize (fillMagSpec (performFFT s)). intros t H.
  loop_keeps s spectralDifferenceHWR_body.
Qed.

Lemma phaseDeviation_kept (s : ODF) : kept s (snd (phaseDeviation s)).
Proof.
  unfold phaseDeviation. cbv zeta.
  pose proof (performFFT_kept s) as H.
  revert H. generalize (performFFT s). intros t H.
  loop_keeps s phaseDeviation_body.
Qed.

Lemma complexSpectralDifference_kept (s : ODF) :
  kept s (snd (complexSpectralDifference s)).
Proof.
  unfold complexSpectralDifference. cbv zeta.
  pose proof (performFFT_kept s) as H.
  revert H. generalize (performFFT s). intros t H.
  loop_keeps s complexSpectralDifference_body.
Qed.

Lemma complexSpectralDifferenceHWR_kept (s : ODF) :
  kept s (snd (complexSpectralDifferenceHWR s)).
Proof.
  unfold complexSpectralDifferenceHWR. cbv zeta.
  pose proof (performFFT_kept s) as H.
  revert H. generalize (performFFT s). intros t H.
  loop_keeps s complexSpectralDifferenceHWR_body.
Qed.

Lemma highFrequencyContent_kept (s : ODF) : kept s (snd (highFrequencyContent s)).
Proof.
  unfold highFrequencyContent. cbv zeta.
  pose proof (performFFT_kept s) as H.
  revert H. generalize (performFFT s). intros t H.
  loop_keeps s highFrequencyContent_body.
Qed.

Lemma highFrequencySpectralDifference_kept (s : ODF) :
  kept s (snd (highFrequencySpectralDifference s)).
Proof.
  unfold highFrequencySpectralDifference. cbv zeta.
  pose proof (performFFT_kept s) as H.
  revert H. generalize (performFFT s). intros t H.
  loop_keeps s highFrequencySpectralDifference_body.
Qed.

Lemma highFrequencySpectralDifferenceHWR_kept (s : ODF) :
  kept s (snd (highFrequencySpectralDifferenceHWR s)).
Proof.
  unfold highFrequencySpectralDifferenceHWR. cbv zeta.
  pose proof (performFFT_kept s) as H.
  revert H. generalize (performFFT s). intros t H.
  loop_keeps s highFrequencySpectralDifferenceHWR_body.
Qed.

Lemma dispatch_kept (s : ODF) : kept s (snd (dispatch s)).
Proof.
  unfold dispatch. cbv zeta.
  repeat match goal with |- context [if ?b then _ else _] => destruct b end;
    auto using kept_refl, energyDifference_kept, spectralDifference_kept,
      spectralDifferenceHWR_kept, phaseDeviation_kept, complexSpectralDifference_kept,
      complexSpectralDifferenceHWR_kept, highFrequencyContent_kept,
      highFrequencySpectralDifference_kept, highFrequencySpectralDifferenceHWR_kept.
Qed.

(** ** The frame assembler *)

Lemma rd_shifted_old (a b : list R) (h : nat) (i : Z) :
  (h <= length a)%nat -> (0 <= i < Z.of_nat (length a - h))%Z ->
  rd 0 (drop h a ++ b) i = rd 0 a (i + Z.of_nat h).
Proof.
  intros Hh Hi. unfold rd.
  destruct (i <? 0)%Z eqn:E1; [exfalso; lia|].
  destruct (i + Z.of_nat h <? 0)%Z eqn:E2; [exfalso; lia|].
  rewrite lookup_app_l by (rewrite length_drop; lia).
  rewrite lookup_drop. do 2 f_equal. lia.
Qed.

Lemma rd_shifted_new (a b : list R) (h : nat) (i : Z) :
  (h <= length a)%nat -> (Z.of_nat (length a - h) <= i)%Z ->
  rd 0 (drop h a ++ b) i = rd 0 b (i - Z.of_nat (length a - h)).
Proof.
  intros Hh Hi. unfold rd.
  destruct (i <? 0)%Z eqn:E1; [exfalso; lia|].
  destruct (Z.ltb_spec (i - Z.of_nat (length a - h)) 0); [exfalso; lia|].
  rewrite lookup_app_r by (rewrite length_drop; lia).
  rewrite length_drop. do 2 f_equal. lia.
Qed.

Lemma rd_take {A} (d : A) (b : list A) (h : nat) (i : Z) :
  (i < Z.of_nat h)%Z -> rd d (take h b) i = rd d b i.
Proof.
  intros Hi. unfold rd. destruct (i <? 0)%Z eqn:E; [reflexivity|].
  rewrite lookup_take_lt by lia. reflexivity.
Qed.

(** The two loops of [shiftFrame] in closed form; nothing but [frame] changes. *)
Lemma shiftFrame_spec (buffer : list R) (s : ODF) :
  length (frame s) = Z.to_nat (frameSize s) ->
  (0 <= hopSize s <= frameSize s)%Z ->
  (Z.to_nat (hopSize s) <= length buffer)%nat ->
  set_frame [] (shiftFrame buffer s) = set_frame [] s /\
  frame (shiftFrame buffer s)
  = drop (Z.to_nat (hopSize s)) (frame s) ++ take (Z.to_nat (hopSize s)) buffer.
Proof.
  intros Hlen Hhop Hbuf. unfold shiftFrame. cbv zeta.
  set (N := frameSize s) in *. set (h := hopSize s) in *.
  (* first loop: move the kept samples to the front *)
  set (P1 := fun (k : Z) (t : ODF) =>
      set_frame [] t = set_frame [] s /\
      length (frame t) = Z.to_nat N /\
      (forall j, (0 <= j < k)%Z -> rd 0 (frame t) j = rd 0 (frame s) (j + h)) /\
      (forall j, (k <= j)%Z -> rd 0 (frame t) j = rd 0 (frame s) j)).
  match goal with
  | |- context [for_range 0 (N - h) ?b s] =>
      assert (P1 (N - h)%Z (for_range 0 (N - h) b s)) as H1;
      [| revert H1; generalize (for_range 0 (N - h) b s) ]
  end.
  { apply for_range_invariant; [lia| |].
    - unfold P1. repeat split; [assumption | intros; lia].
    - intros k t Hk (Hs & Hl & Hlow & Hhigh). unfold P1. simpl.
      split; [exact Hs|]. split; [rewrite length_wr; exact Hl|].
      assert (hopSize t = h) as -> by (apply (f_equal hopSize) in Hs; exact Hs).
      split.
      + intros j Hj. destruct (Z.eq_dec j k) as [->|Hne].
        * rewrite rd_wr_same by lia. apply Hhigh. lia.
        * rewrite rd_wr_other by congruence. apply Hlow. lia.
      + intros j Hj. rewrite rd_wr_other by lia. apply Hhigh. lia. }
  intros s1 (Hs1 & Hl1 & Hlow1 & _).
  assert (frameSize s1 = N) as -> by (apply (f_equal frameSize) in Hs1; exact Hs1).
  assert (hopSize s1 = h) as -> by (apply (f_equal hopSize) in Hs1; exact Hs1).
  (* second loop: copy the chunk behind them *)
  set (P2 := fun (k : Z) (st : Z * ODF) =>
      fst st = (k - (N - h))%Z /\
      set_frame [] (snd st) = set_frame [] s /\
      length (frame (snd st)) = Z.to_nat N /\
      (forall j, (0 <= j < N - h)%Z -> rd 0 (frame (snd st)) j = rd 0 (frame s) (j + h)) /\
      (forall j, (N - h <= j < k)%Z -> rd 0 (frame (snd st)) j = rd 0 buffer (j - (N - h)))).
  match goal with
  | |- context [for_range (N - h) N ?b ?i] =>
      assert (P2 N (for_range (N - h) N b i)) as H2;
      [| revert H2; generalize (for_range (N - h) N b i) ]
  end.
  { apply for_range_invariant; [lia| |].
    - unfold P2. simpl. split; [lia|]. repeat split; try assumption. intros; lia.
    - intros k [j t] Hk (Hj & Hs & Hl & Hold & Hnew). simpl in Hj, Hs, Hl, Hold, Hnew.
      unfold P2. simpl. split; [lia|]. split; [exact Hs|].
      split; [rewrite length_wr; exact Hl|]. split.
      + intros i Hi. rewrite rd_wr_other by lia. apply Hold. assumption.
      + intros i Hi. destruct (Z.eq_dec i k) as [->|Hne].
        * rewrite rd_wr_same by lia. rewrite Hj. reflexivity.
        * rewrite rd_wr_other by congruence. apply Hnew. lia. }
  intros [j s2] (_ & Hs2 & Hl2 & Hold & Hnew). simpl in *.
  split; [exact Hs2|].
  apply (rd_ext 0).
  - rewrite length_app, length_drop, length_take. lia.
  - intros i Hi. destruct (Z_lt_le_dec i (N - h)) as [Hi1|Hi2].
    + rewrite rd_shifted_old by lia. rewrite Hold by lia. f_equal. lia.
    + rewrite rd_shifted_new by lia. rewrite rd_take by lia.
      rewrite Hnew by lia. f_equal. lia.
Qed.

Lemma calculate_shifts_frame (c : list R) (s : ODF) :
  length (frame s) = Z.to_nat (frameSize s) ->
  (0 <= hopSize s <= frameSize s)%Z ->
  length c = Z.to_nat (hopSize s) ->
  let s' := snd (calculateOnsetDetectionFunctionSample c s) in
  frame s' = drop (Z.to_nat (hopSize s)) (frame s) ++ c /\
  frameSize s' = frameSize s /\ hopSize s' = hopSize s.
Proof.
  intros Hlen Hhop Hc. cbv zeta. unfold calculateOnsetDetectionFunctionSample.
  destruct (shiftFrame_spec c s Hlen Hhop ltac:(lia)) as [Hs Hf].
  destruct (dispatch_kept (shiftFrame c s)) as (K1 & K2 & _ & _ & _ & K6 & _).
  rewrite K6, K1, K2, Hf.
  rewrite firstn_all2 by lia.
  pose proof (f_equal frameSize Hs). pose proof (f_equal hopSize Hs).
  simpl in *. auto.
Qed.

Lemma lastn_all {A} (l : list A) : lastn (length l) l = l.
Proof. unfold lastn. rewrite Nat.sub_diag. reflexivity. Qed.

Lemma lastn_shift {A} (f c r : list A) (h : nat) :
  (h <= length f)%nat -> length c = h ->
  lastn (length f) ((drop h f ++ c) ++ r) = lastn (length f) (f ++ (c ++ r)).
Proof.
  intros Hh Hc. unfold lastn.
  rewrite !length_app, length_drop.
  replace (length f - h + length c + length r - length f)%nat with (length r) by lia.
  replace (length f + (length c + length r) - length f)%nat
    with (h + length r)%nat by lia.
  rewrite <- drop_drop. rewrite (drop_app_le f (c ++ r) h) by lia.
  rewrite <- app_assoc. reflexivity.
Qed.

Lemma lastn_covered {A} (f c : list A) :
  (length f <= length c)%nat -> lastn (length f) (f ++ c) = lastn (length f) c.
Proof.
  intros Hle. unfold lastn. rewrite length_app.
  replace (length f + length c - length f)%nat
    with (length f + (length c - length f))%nat by lia.
  rewrite drop_app_add'; reflexivity.
Qed.

Lemma length_concat_chunks (chunks : list (list R)) (h : nat) :
  Forall (fun c => length c = h) chunks -> length (concat chunks) = (length chunks * h)%nat.
Proof.
  induction 1 as [|c cs Hc _ IH]; [reflexivity|].
  simpl. rewrite length_app, IH, Hc. reflexivity.
Qed.

Lemma processChunks_frame (chunks : list (list R)) :
  forall s : ODF,
  length (frame s) = Z.to_nat (frameSize s) ->
  (0 <= hopSize s <= frameSize s)%Z ->
  Forall (fun c => length c = Z.to_nat (hopSize s)) chunks ->
  frame (snd (processChunks chunks s))
  = lastn (Z.to_nat (frameSize s)) (frame s ++ concat chunks).
Proof.
  induction chunks as [|c cs IH]; intros s Hlen Hhop Hall.
  - simpl. rewrite app_nil_r, <- Hlen. symmetry. apply lastn_all.
  - inversion Hall as [|c' cs' Hc Hcs]; subst.
    destruct (calculate_shifts_frame c s Hlen Hhop Hc) as (Hf & HN & Hh).
    simpl processChunks.
    destruct (calculateOnsetDetectionFunctionSample c s) as [x s1]. simpl in Hf, HN, Hh.
    specialize (IH s1).
    destruct (processChunks cs s1) as [xs s2]. simpl in IH |- *.
    rewrite IH.
    + rewrite HN, Hf, <- Hlen. apply lastn_shift; lia.
    + rewrite Hf, HN, length_app, length_drop. lia.
    + lia.
    + rewrite Hh. assumption.
Qed.

(** C2: on an engine whose frame has [frameSize] samples and with
    [0 < hopSize <= frameSize], each call with a chunk of [hopSize] samples
    drops the oldest [hopSize] samples of the frame and appends the chunk;
    after [N] calls with [N * hopSize >= frameSize] the frame is the last
    [frameSize] samples of the concatenated chunks. *)
Theorem frame_holds_trailing_samples (chunks : list (list R)) (s : ODF) :
  length (frame s) = Z.to_nat (frameSize s) ->
  (0 < hopSize s <= frameSize s)%Z ->
  Forall (fun c => length c = Z.to_nat (hopSize s)) chunks ->
  (frameSize s <= Z.of_nat (length chunks) * hopSize s)%Z ->
  (forall c, length c = Z.to_nat (hopSize s) ->
     frame (snd (calculateOnsetDetectionFunctionSample c s))
     = drop (Z.to_nat (hopSize s)) (frame s) ++ c) /\
  frame (snd (processChunks chunks s))
  = lastn (Z.to_nat (frameSize s)) (concat chunks).
Proof.
  intros Hlen Hhop Hall HN. split.
  - intros c Hc. apply calculate_shifts_frame; [assumption | lia | assumption].
  - rewrite processChunks_frame by (try assumption; lia).
    rewrite <- Hlen. apply lastn_covered.
    rewrite (length_concat_chunks chunks _ Hall). nia.
Qed.

Lemma initialise_fourSamples :
  initialise (fun _ => czero) 2 4 EnergyEnvelope RectangularWindow fresh
  = Returned fourSamples.
Proof. reflexivity. Qed.

Lemma frame_holds_trailing_samples_witness :
  (forall c, length c = Z.to_nat (hopSize fourSamples) ->
     frame (snd (calculateOnsetDetectionFunctionSample c fourSamples))
     = drop (Z.to_nat (hopSize fourSamples)) (frame fourSamples) ++ c) /\
  frame (snd (processChunks [[1; 2]; [3; 4]; [5; 6]] fourSamples))
  = lastn (Z.to_nat (frameSize fourSamples)) (concat [[1; 2]; [3; 4]; [5; 6]]).
Proof.
  apply (frame_holds_trailing_samples [[1; 2]; [3; 4]; [5; 6]] fourSamples).
  - reflexivity.
  - simpl. lia.
  - repeat constructor.
  - simpl. lia.
Defined.

(** ** The transform input in closed form *)

Lemma length_wr_re (a : list complex) (i : Z) (v : R) : length (wr_re a i v) = length a.
Proof. apply length_wr. Qed.

Lemma length_wr_im (a : list complex) (i : Z) (v : R) : length (wr_im a i v) = length a.
Proof. apply length_wr. Qed.

Lemma rd_wr_re_im_same (a : list complex) (i : Z) (v : R) :
  (0 <= i < Z.of_nat (length a))%Z ->
  rd czero (wr_im (wr_re a i v) i 0) i = (v, 0).
Proof.
  intros Hi. unfold wr_im. rewrite rd_wr_same by (rewrite length_wr_re; lia).
  unfold wr_re. rewrite rd_wr_same by lia. reflexivity.
Qed.

Lemma rd_wr_re_im_other (a : list complex) (i j : Z) (v : R) :
  i <> j -> rd czero (wr_im (wr_re a i v) i 0) j = rd czero a j.
Proof.
  intros Hij. unfold wr_im, wr_re. rewrite !rd_wr_other by assumption. reflexivity.
Qed.

Lemma half_frame (N : Z) :
  (0 <= N)%Z -> (0 <= N ÷ 2 /\ 2 * (N ÷ 2) <= N < 2 * (N ÷ 2) + 2)%Z.
Proof.
  intros HN. rewrite Z.quot_div_nonneg by lia.
  pose proof (Z.div_mod N 2 ltac:(lia)). pose proof (Z.mod_pos_bound N 2 ltac:(lia)).
  lia.
Qed.

Lemma half_frame_even (N : Z) : (0 <= N)%Z -> Z.even N = true -> (2 * (N ÷ 2) = N)%Z.
Proof.
  intros HN He. rewrite Z.quot_div_nonneg by lia.
  pose proof (Z.div_mod N 2 ltac:(lia)). rewrite Zmod_even, He in *. lia.
Qed.

Lemma performFFT_input (s : ODF) :
  (0 <= frameSize s)%Z ->
  length (complexIn s) = Z.to_nat (frameSize s) ->
  length (complexIn (performFFT s)) = Z.to_nat (frameSize s) /\
  (forall j, rd czero (complexIn (performFFT s)) j = fftInput s j) /\
  complexOut (performFFT s) = dft (complexIn (performFFT s)).
Proof.
  intros HN Hlen. unfold performFFT. cbv zeta.
  destruct (half_frame _ HN) as [Hh0 [Hh2 _]].
  set (h := (frameSize s ÷ 2)%Z) in *.
  set (P := fun (k : Z) (t : ODF) =>
      (frame t = frame s /\ window t = window s) /\
      length (complexIn t) = Z.to_nat (frameSize s) /\
      (forall j, (0 <= j < k)%Z ->
         rd czero (complexIn t) j = (rd 0 (frame s) (j + h) * rd 0 (window s) (j + h), 0)) /\
      (forall j, (h <= j < h + k)%Z ->
         rd czero (complexIn t) j = (rd 0 (frame s) (j - h) * rd 0 (window s) (j - h), 0)) /\
      (forall j, ~ (0 <= j < k)%Z -> ~ (h <= j < h + k)%Z ->
         rd czero (complexIn t) j = rd czero (complexIn s) j)).
  match goal with
  | |- context [fftw_execute (for_range 0 h ?b s)] =>
      assert (P h (for_range 0 h b s)) as HP;
      [| revert HP; generalize (for_range 0 h b s) ]
  end.
  { apply for_range_invariant; [lia| |].
    - unfold P. repeat split; try assumption; try (intros; lia). 
    - intros k t Hk ((Hf & Hw) & Hl & HA & HB & HC). unfold P. simpl.
      split; [split; assumption|].
      split; [unfold wr_im, wr_re; rewrite !length_wr; assumption|].
      rewrite Hf, Hw. split; [|split].
      + intros j Hj. rewrite rd_wr_re_im_other by lia.
        destruct (Z.eq_dec j k) as [->|Hne].
        * rewrite rd_wr_re_im_same by lia. reflexivity.
        * rewrite rd_wr_re_im_other by congruence. apply HA. lia.
      + intros j Hj. destruct (Z.eq_dec j (k + h)%Z) as [->|Hne].
        * rewrite rd_wr_re_im_same by (rewrite length_wr_im, length_wr_re; lia).
          do 3 f_equal; lia.
        * rewrite !rd_wr_re_im_other by lia. apply HB. lia.
      + intros j Hj1 Hj2. rewrite !rd_wr_re_im_other by lia. apply HC; lia. }
  intros t (_ & Hl & HA & HB & HC). simpl.
  split; [assumption|]. split; [|reflexivity].
  intros j. unfold fftInput. cbv zeta. fold h.
  destruct (Z.leb_spec 0 j), (Z.ltb_spec j h); simpl;
    [apply HA; lia | | |];
    destruct (Z.leb_spec h j), (Z.ltb_spec j (2 * h)%Z); simpl;
    first [apply HB; lia | apply HC; lia].
Qed.

(** ** Sums over the bins *)

Lemma for_loop_last {S : Type} (body : Z -> S -> S) (n : nat) :
  forall (i : Z) (s : S),
  for_loop (Datatypes.S n) i body s = body (i + Z.of_nat n)%Z (for_loop n i body s).
Proof.
  induction n as [|n IH]; intros i s.
  - simpl. replace (i + Z.of_nat 0)%Z with i by lia. reflexivity.
  - change (for_loop (Datatypes.S (Datatypes.S n)) i body s)
      with (for_loop (Datatypes.S n) (i + 1)%Z body (body i s)).
    rewrite IH. simpl for_loop. f_equal. lia.
Qed.

Lemma sum_terms_0 (f : Z -> R) : sum_terms 0 f = 0.
Proof. reflexivity. Qed.

Lemma sum_terms_step (k : Z) (f : Z -> R) :
  (0 <= k)%Z -> sum_terms (k + 1) f = sum_terms k f + f k.
Proof.
  intros Hk. unfold sum_terms, for_range.
  replace (Z.to_nat (k + 1 - 0)) with (Datatypes.S (Z.to_nat (k - 0))) by lia.
  rewrite for_loop_last. do 2 f_equal. lia.
Qed.

Lemma sum_terms_zero (N : Z) (f : Z -> R) :
  (forall k, (0 <= k < N)%Z -> f k = 0) -> sum_terms N f = 0.
Proof.
  intros Hf. unfold sum_terms.
  apply (for_range_preserves (fun acc => acc = 0)); [reflexivity|].
  intros k acc Hk ->. rewrite Hf by assumption. lra.
Qed.

Lemma sum_terms_ext (N : Z) (f g : Z -> R) :
  (forall k, (0 <= k < N)%Z -> f k = g k) -> sum_terms N f = sum_terms N g.
Proof.
  intros Hfg. unfold sum_terms.
  apply (for_range_related (fun a b : R => a = b)); [reflexivity|].
  intros k a b Hk ->. rewrite Hfg by assumption. reflexivity.
Qed.

(** ** Complex spectral difference as a sum, and its history *)

Lemma complexSpectralDifference_loop (u : ODF) :
  let n := Z.to_nat (frameSize u) in
  (0 <= frameSize u)%Z ->
  length (magSpec u) = n -> length (prevMagSpec u) = n -> length (phase u) = n ->
  length (prevPhase u) = n -> length (prevPhase2 u) = n ->
  let r := for_range 0 (frameSize u) complexSpectralDifference_body (0, u) in
  fst r = sum_terms (frameSize u) (complexSpectralDifference_term u) /\
  complexIn (snd r) = complexIn u /\
  forall j, (0 <= j < frameSize u)%Z ->
    rd 0 (prevMagSpec (snd r)) j = binMagnitude u j /\
    rd 0 (prevPhase (snd r)) j = binPhase u j /\
    rd 0 (prevPhase2 (snd r)) j = rd 0 (prevPhase u) j.
Proof.
  intros n HN L1 L2 L3 L4 L5 r.
  set (P := fun (k : Z) (st : R * ODF) =>
      let t := snd st in
      fst st = sum_terms k (complexSpectralDifference_term u) /\
      (complexOut t = complexOut u /\ complexIn t = complexIn u /\
       length (magSpec t) = n /\ length (prevMagSpec t) = n /\ length (phase t) = n /\
       length (prevPhase t) = n /\ length (prevPhase2 t) = n) /\
      (forall j, (k <= j)%Z ->
         rd 0 (prevMagSpec t) j = rd 0 (prevMagSpec u) j /\
         rd 0 (prevPhase t) j = rd 0 (prevPhase u) j /\
         rd 0 (prevPhase2 t) j = rd 0 (prevPhase2 u) j) /\
      (forall j, (0 <= j < k)%Z ->
         rd 0 (prevMagSpec t) j = binMagnitude u j /\
         rd 0 (prevPhase t) j = binPhase u j /\
         rd 0 (prevPhase2 t) j = rd 0 (prevPhase u) j)).
  assert (P (frameSize u) r) as (Hsum & (_ & Hin & _) & _ & Hpost).
  { apply for_range_invariant; [assumption| |].
    - unfold P. simpl. rewrite sum_terms_0.
      repeat split; try assumption; try reflexivity; intros; lia.
    - intros k [sum t] Hk (Hs & (O & I & M1 & M2 & M3 & M4 & M5) & Hhigh & Hlow).
      simpl in Hs, O, I, M1, M2, M3, M4, M5, Hhigh, Hlow.
      destruct (Hhigh k ltac:(lia)) as (Hk1 & Hk2 & Hk3).
      unfold P, complexSpectralDifference_body, csd_distance. cbv zeta. simpl.
      rewrite !rd_wr_same by (unfold n in *; lia).
      rewrite O, Hk1, Hk2, Hk3.
      split; [|split; [|split]].
      + rewrite sum_terms_step by lia. rewrite Hs. reflexivity.
      + rewrite !length_wr. tauto.
      + intros j Hj. rewrite !rd_wr_other by lia. apply Hhigh. lia.
      + intros j Hj. destruct (Z.eq_dec j k) as [->|Hne].
        * rewrite !rd_wr_same by (unfold n in *; lia). repeat split.
        * rewrite !rd_wr_other by congruence. apply Hlow. lia. }
  split; [exact Hsum|]. split; [exact Hin|]. exact Hpost.
Qed.

Lemma complexSpectralDifferenceHWR_loop (u : ODF) :
  let n := Z.to_nat (frameSize u) in
  (0 <= frameSize u)%Z ->
  length (magSpec u) = n -> length (prevMagSpec u) = n -> length (phase u) = n ->
  length (prevPhase u) = n -> length (prevPhase2 u) = n ->
  let r := for_range 0 (frameSize u) complexSpectralDifferenceHWR_body (0, u) in
  fst r = sum_terms (frameSize u) (complexSpectralDifferenceHWR_term u) /\
  complexIn (snd r) = complexIn u /\
  forall j, (0 <= j < frameSize u)%Z ->
    rd 0 (prevMagSpec (snd r)) j = binMagnitude u j /\
    rd 0 (prevPhase (snd r)) j = binPhase u j /\
    rd 0 (prevPhase2 (snd r)) j = rd 0 (prevPhase u) j.
Proof.
  intros n HN L1 L2 L3 L4 L5 r.
  set (P := fun (k : Z) (st : R * ODF) =>
      let t := snd st in
      fst st = sum_terms k (complexSpectralDifferenceHWR_term u) /\
      (complexOut t = complexOut u /\ complexIn t = complexIn u /\
       length (magSpec t) = n /\ length (prevMagSpec t) = n /\ length (phase t) = n /\
       length (prevPhase t) = n /\ length (prevPhase2 t) = n) /\
      (forall j, (k <= j)%Z ->
         rd 0 (prevMagSpec t) j = rd 0 (prevMagSpec u) j /\
         rd 0 (prevPhase t) j = rd 0 (prevPhase u) j /\
         rd 0 (prevPhase2 t) j = rd 0 (prevPhase2 u) j) /\
      (forall j, (0 <= j < k)%Z ->
         rd 0 (prevMagSpec t) j = binMagnitude u j /\
         rd 0 (prevPhase t) j = binPhase u j /\
         rd 0 (prevPhase2 t) j = rd 0 (prevPhase u) j)).
  assert (P (frameSize u) r) as (Hsum & (_ & Hin & _) & _ & Hpost).
  { apply for_range_invariant; [assumption| |].
    - unfold P. simpl. rewrite sum_terms_0.
      repeat split; try assumption; try reflexivity; intros; lia.
    - intros k [sum t] Hk (Hs & (O & I & M1 & M2 & M3 & M4 & M5) & Hhigh & Hlow).
      simpl in Hs, O, I, M1, M2, M3, M4, M5, Hhigh, Hlow.
      destruct (Hhigh k ltac:(lia)) as (Hk1 & Hk2 & Hk3).
      unfold P, complexSpectralDifferenceHWR_body, csd_distance. cbv zeta. simpl.
      rewrite !rd_wr_same by (unfold n in *; lia).
      rewrite O, Hk1, Hk2, Hk3.
      split; [|split; [|split]].
      + rewrite sum_terms_step by lia. rewrite Hs.
        unfold complexSpectralDifferenceHWR_term, complexSpectralDifference_term,
          binPhaseDeviation, binMagnitude, binPhase, bin.
        destruct (Rgt_dec _ 0); [reflexivity | lra].
      + rewrite !length_wr. tauto.
      + intros j Hj. rewrite !rd_wr_other by lia. apply Hhigh. lia.
      + intros j Hj. destruct (Z.eq_dec j k) as [->|Hne].
        * rewrite !rd_wr_same by (unfold n in *; lia). repeat split.
        * rewrite !rd_wr_other by congruence. apply Hlow. lia. }
  split; [exact Hsum|]. split; [exact Hin|]. exact Hpost.
Qed.

Lemma spectralDifference_loop (u : ODF) :
  let n := Z.to_nat (frameSize u) in
  (0 <= frameSize u)%Z -> length (prevMagSpec u) = n ->
  let r := for_range 0 (frameSize u) spectralDifference_body (0, u) in
  fst r = sum_terms (frameSize u) (spectralDifference_term u) /\
  complexIn (snd r) = complexIn u /\
  forall j, (0 <= j < frameSize u)%Z ->
    rd 0 (prevMagSpec (snd r)) j = rd 0 (magSpec u) j.
Proof.
  intros n HN L2 r.
  set (P := fun (k : Z) (st : R * ODF) =>
      let t := snd st in
      fst st = sum_terms k (spectralDifference_term u) /\
      (magSpec t = magSpec u /\ complexIn t = complexIn u /\
       length (prevMagSpec t) = n) /\
      (forall j, (k <= j)%Z -> rd 0 (prevMagSpec t) j = rd 0 (prevMagSpec u) j) /\
      (forall j, (0 <= j < k)%Z -> rd 0 (prevMagSpec t) j = rd 0 (magSpec u) j)).
  assert (P (frameSize u) r) as (Hsum & (_ & Hin & _) & _ & Hpost).
  { apply for_range_invariant; [assumption| |].
    - unfold P. simpl. rewrite sum_terms_0.
      repeat split; try assumption; try reflexivity; intros; lia.
    - intros k [sum t] Hk (Hs & (M & I & M2) & Hhigh & Hlow).
      simpl in Hs, M, I, M2, Hhigh, Hlow.
      unfold P, spectralDifference_body. cbv zeta. simpl.
      rewrite M, (Hhigh k) by lia.
      split; [|split; [|split]].
      + rewrite sum_terms_step by lia. rewrite Hs. reflexivity.
      + rewrite !length_wr. tauto.
      + intros j Hj. rewrite !rd_wr_other by lia. apply Hhigh. lia.
      + intros j Hj. destruct (Z.eq_dec j k) as [->|Hne].
        * rewrite !rd_wr_same by (unfold n in *; lia). reflexivity.
        * rewrite !rd_wr_other by congruence. apply Hlow. lia. }
  split; [exact Hsum|]. split; [exact Hin|]. exact Hpost.
Qed.

Lemma spectralDifferenceHWR_loop (u : ODF) :
  let n := Z.to_nat (frameSize u) in
  (0 <= frameSize u)%Z -> length (prevMagSpec u) = n ->
  let r := for_range 0 (frameSize u) spectralDifferenceHWR_body (0, u) in
  fst r = sum_terms (frameSize u) (spectralDifferenceHWR_term u) /\
  complexIn (snd r) = complexIn u /\
  forall j, (0 <= j < frameSize u)%Z ->
    rd 0 (prevMagSpec (snd r)) j = rd 0 (magSpec u) j.
Proof.
  intros n HN L2 r.
  set (P := fun (k : Z) (st : R * ODF) =>
      let t := snd st in
      fst st = sum_terms k (spectralDifferenceHWR_term u) /\
      (magSpec t = magSpec u /\ complexIn t = complexIn u /\
       length (prevMagSpec t) = n) /\
      (forall j, (k <= j)%Z -> rd 0 (prevMagSpec t) j = rd 0 (prevMagSpec u) j) /\
      (forall j, (0 <= j < k)%Z -> rd 0 (prevMagSpec t) j = rd 0 (magSpec u) j)).
  assert (P (frameSize u) r) as (Hsum & (_ & Hin & _) & _ & Hpost).
  { apply for_range_invariant; [assumption| |].
    - unfold P. simpl. rewrite sum_terms_0.
      repeat split; try assumption; try reflexivity; intros; lia.
    - intros k [sum t] Hk (Hs & (M & I & M2) & Hhigh & Hlow).
      simpl in Hs, M, I, M2, Hhigh, Hlow.
      unfold P, spectralDifferenceHWR_body. cbv zeta. simpl.
      rewrite M, (Hhigh k) by lia.
      split; [|split; [|split]].
      + rewrite sum_terms_step by lia. rewrite Hs.
        unfold spectralDifferenceHWR_term. cbv zeta.
        destruct (Rgt_dec _ 0); [reflexivity | lra].
      + rewrite !length_wr. tauto.
      + intros j Hj. rewrite !rd_wr_other by lia. apply Hhigh. lia.
      + intros j Hj. destruct (Z.eq_dec j k) as [->|Hne].
        * rewrite !rd_wr_same by (unfold n in *; lia). reflexivity.
        * rewrite !rd_wr_other by congruence. apply Hlow. lia. }
  split; [exact Hsum|]. split; [exact Hin|]. exact Hpost.
Qed.

Lemma phaseDeviation_loop (u : ODF) :
  let n := Z.to_nat (frameSize u) in
  (0 <= frameSize u)%Z ->
  length (magSpec u) = n -> length (phase u) = n ->
  length (prevPhase u) = n -> length (prevPhase2 u) = n ->
  fst (for_range 0 (frameSize u) phaseDeviation_body (0, u))
  = sum_terms (frameSize u) (phaseDeviation_term u).
Proof.
  intros n HN L1 L3 L4 L5.
  set (P := fun (k : Z) (st : R * ODF) =>
      let t := snd st in
      fst st = sum_terms k (phaseDeviation_term u) /\
      (complexOut t = complexOut u /\
       length (magSpec t) = n /\ length (phase t) = n /\
       length (prevPhase t) = n /\ length (prevPhase2 t) = n) /\
      (forall j, (k <= j)%Z ->
         rd 0 (prevPhase t) j = rd 0 (prevPhase u) j /\
         rd 0 (prevPhase2 t) j = rd 0 (prevPhase2 u) j)).
  match goal with
  | |- fst ?r = _ => assert (P (frameSize u) r) as (Hsum & _)
  end; [|exact Hsum].
  apply for_range_invariant; [assumption| |].
  - unfold P. simpl. rewrite sum_terms_0.
    repeat split; try assumption; try reflexivity; intros; lia.
  - intros k [sum t] Hk (Hs & (O & M1 & M3 & M4 & M5) & Hhigh).
    simpl in Hs, O, M1, M3, M4, M5, Hhigh.
    destruct (Hhigh k ltac:(lia)) as (Hk2 & Hk3).
    unfold P, phaseDeviation_body. cbv zeta. simpl.
    rewrite !rd_wr_same by (unfold n in *; lia).
    rewrite O, Hk2, Hk3.
    split; [|split].
    + rewrite sum_terms_step by lia. rewrite Hs.
      unfold phaseDeviation_term, binPhaseDeviation, binMagnitude, binPhase, bin.
      cbv zeta. destruct (Rgt_dec _ 0.1); [reflexivity | lra].
    + rewrite !length_wr. tauto.
    + intros j Hj. rewrite !rd_wr_other by lia. apply Hhigh. lia.
Qed.

(** The three high-frequency metrics share one invariant: the previous
    magnitudes of the bins not yet visited are untouched. *)
Ltac high_frequency_loop u n body term :=
  let P := fresh "P" in
  set (P := fun (k : Z) (st : R * ODF) =>
      let t := snd st in
      fst st = sum_terms k (term u) /\
      (complexOut t = complexOut u /\
       length (magSpec t) = n /\ length (prevMagSpec t) = n) /\
      (forall j, (k <= j)%Z -> rd 0 (prevMagSpec t) j = rd 0 (prevMagSpec u) j));
  match goal with
  | |- fst ?r = _ =>
      let Hsum := fresh "Hsum" in
      assert (P (frameSize u) r) as (Hsum & _); [|exact Hsum]
  end;
  apply for_range_invariant;
  [ assumption
  | unfold P; simpl; rewrite sum_terms_0;
    repeat split; try assumption; try reflexivity; intros; lia
  | let k := fresh "k" in let sum := fresh "sum" in let t := fresh "t" in
    let Hk := fresh "Hk" in let Hs := fresh "Hs" in let O := fresh "O" in
    let M1 := fresh "M1" in let M2 := fresh "M2" in let Hhigh := fresh "Hhigh" in
    intros k [sum t] Hk (Hs & (O & M1 & M2) & Hhigh);
    simpl in Hs, O, M1, M2, Hhigh;
    unfold P, body; cbv zeta; simpl;
    rewrite !rd_wr_same by (unfold n in *; lia);
    rewrite O; try rewrite (Hhigh k) by lia;
    split; [|split];
    [ rewrite sum_terms_step by lia; rewrite Hs;
      unfold term, binMagnitude, bin; cbv zeta;
      first [ reflexivity
            | match goal with |- context [Rgt_dec ?a ?b] => destruct (Rgt_dec a b) end;
              [reflexivity | lra] ]
    | rewrite !length_wr; tauto
    | let j := fresh "j" in let Hj := fresh "Hj" in
      intros j Hj; rewrite !rd_wr_other by lia; apply Hhigh; lia ] ].

Lemma highFrequencyContent_loop (u : ODF) :
  let n := Z.to_nat (frameSize u) in
  (0 <= frameSize u)%Z -> length (magSpec u) = n -> length (prevMagSpec u) = n ->
  fst (for_range 0 (frameSize u) highFrequencyContent_body (0, u))
  = sum_terms (frameSize u) (highFrequencyContent_term u).
Proof.
  intros n HN L1 L2.
  high_frequency_loop u n highFrequencyContent_body highFrequencyContent_term.
Qed.

Lemma highFrequencySpectralDifference_loop (u : ODF) :
  let n := Z.to_nat (frameSize u) in
  (0 <= frameSize u)%Z -> length (magSpec u) = n -> length (prevMagSpec u) = n ->
  fst (for_range 0 (frameSize u) highFrequencySpectralDifference_body (0, u))
  = sum_terms (frameSize u) (highFrequencySpectralDifference_term u).
Proof.
  intros n HN L1 L2.
  high_frequency_loop u n highFrequencySpectralDifference_body
    highFrequencySpectralDifference_term.
Qed.

Lemma highFrequencySpectralDifferenceHWR_loop (u : ODF) :
  let n := Z.to_nat (frameSize u) in
  (0 <= frameSize u)%Z -> length (magSpec u) = n -> length (prevMagSpec u) = n ->
  fst (for_range 0 (frameSize u) highFrequencySpectralDifferenceHWR_body (0, u))
  = sum_terms (frameSize u) (highFrequencySpectralDifferenceHWR_term u).
Proof.
  intros n HN L1 L2.
  high_frequency_loop u n highFrequencySpectralDifferenceHWR_body
    highFrequencySpectralDifferenceHWR_term.
Qed.

(** ** The magnitude spectrum of the spectral difference *)

Lemma fillMagSpec_spec (s : ODF) :
  (1 <= frameSize s)%Z -> length (magSpec s) = Z.to_nat (frameSize s) ->
  set_magSpec [] (fillMagSpec s) = set_magSpec [] s /\
  length (magSpec (fillMagSpec s)) = Z.to_nat (frameSize s) /\
  forall j, (0 <= j < frameSize s)%Z ->
    rd 0 (magSpec (fillMagSpec s)) j = mirroredMagnitude (frameSize s) (complexOut s) j.
Proof.
  intros HN Hlen. unfold fillMagSpec. cbv zeta.
  destruct (half_frame (frameSize s) ltac:(lia)) as (Hh0 & Hh1 & Hh2).
  set (N := frameSize s) in *. set (h := (N ÷ 2)%Z) in *.
  set (P1 := fun (k : Z) (t : ODF) =>
      set_magSpec [] t = set_magSpec [] s /\
      length (magSpec t) = Z.to_nat N /\
      forall j, (0 <= j < k)%Z ->
        rd 0 (magSpec t) j = magnitude (rd czero (complexOut s) j)).
  match goal with
  | |- context [for_range 0 (h + 1) ?b s] =>
      assert (P1 (h + 1)%Z (for_range 0 (h + 1) b s)) as H1;
      [| revert H1; generalize (for_range 0 (h + 1) b s) ]
  end.
  { apply for_range_invariant; [lia| |].
    - unfold P1. repeat split; [assumption | intros; lia].
    - intros k t Hk (Hs & Hl & Hlow). unfold P1. simpl.
      split; [exact Hs|]. split; [rewrite length_wr; exact Hl|].
      assert (complexOut t = complexOut s) as ->
          by (apply (f_equal complexOut) in Hs; exact Hs).
      intros j Hj. destruct (Z.eq_dec j k) as [->|Hne].
      + rewrite rd_wr_same by lia. reflexivity.
      + rewrite rd_wr_other by congruence. apply Hlow. lia. }
  intros s1 (Hs1 & Hl1 & Hlow1).
  assert (frameSize s1 = N) as -> by (apply (f_equal frameSize) in Hs1; exact Hs1).
  fold h.
  set (P2 := fun (k : Z) (t : ODF) =>
      set_magSpec [] t = set_magSpec [] s /\
      length (magSpec t) = Z.to_nat N /\
      (forall j, (0 <= j < h + 1)%Z ->
         rd 0 (magSpec t) j = magnitude (rd czero (complexOut s) j)) /\
      (forall j, (h + 1 <= j < k)%Z ->
         rd 0 (magSpec t) j = magnitude (rd czero (complexOut s) (N - j)))).
  match goal with
  | |- context [for_range (h + 1) N ?b s1] =>
      assert (P2 N (for_range (h + 1) N b s1)) as H2;
      [| revert H2; generalize (for_range (h + 1) N b s1) ]
  end.
  { apply for_range_invariant; [lia| |].
    - unfold P2. repeat split; try assumption. intros; lia.
    - intros k t Hk (Hs & Hl & Hlow & Hup). unfold P2. simpl.
      split; [exact Hs|]. split; [rewrite length_wr; exact Hl|].
      assert (frameSize t = N) as -> by (apply (f_equal frameSize) in Hs; exact Hs).
      split.
      + intros j Hj. rewrite rd_wr_other by lia. apply Hlow. assumption.
      + intros j Hj. destruct (Z.eq_dec j k) as [->|Hne].
        * rewrite rd_wr_same by lia. apply Hlow. lia.
        * rewrite rd_wr_other by congruence. apply Hup. lia. }
  intros s2 (Hs2 & Hl2 & Hlow & Hup).
  split; [exact Hs2|]. split; [exact Hl2|].
  intros j Hj. unfold mirroredMagnitude. fold h.
  destruct (Z.ltb_spec j (h + 1)%Z); [apply Hlow | apply Hup]; lia.
Qed.

(** ** The transform of silence *)

Lemma cmul_czero_l (c : complex) : cmul czero c = czero.
Proof. unfold cmul, czero. simpl. f_equal; ring. Qed.

Lemma cadd_czero_l (c : complex) : cadd czero c = c.
Proof. destruct c as [a b]. unfold cadd, czero. simpl. f_equal; ring. Qed.

Lemma dft_sum_silence (n k : nat) (m : nat) :
  forall j, dft_sum n k j (replicate m czero) = czero.
Proof.
  induction m as [|m IH]; intros j; [reflexivity|].
  simpl. rewrite cmul_czero_l, cadd_czero_l. apply IH.
Qed.

Lemma dft_silence (n : nat) : dft (replicate n czero) = replicate n czero.
Proof.
  unfold dft. rewrite length_replicate.
  apply list_eq. intros i. rewrite list_lookup_fmap.
  destruct (decide (i < n)%nat) as [Hi|Hi].
  - rewrite lookup_seq_lt by assumption. simpl.
    rewrite dft_sum_silence. symmetry. apply lookup_replicate_2. assumption.
  - rewrite lookup_seq_ge by lia. simpl. symmetry.
    apply lookup_replicate_None. lia.
Qed.

Lemma magnitude_czero : magnitude czero = 0.
Proof.
  unfold magnitude, czero. simpl.
  replace (0 * (0 * 1) + 0 * (0 * 1)) with 0 by ring. apply sqrt_0.
Qed.

Lemma rd_replicate_czero (n : nat) (i : Z) : rd czero (replicate n czero) i = czero.
Proof.
  unfold rd. destruct (i <? 0)%Z; [reflexivity|].
  destruct (replicate n czero !! Z.to_nat i) as [x|] eqn:E; [|reflexivity].
  apply lookup_replicate in E. simpl. tauto.
Qed.

(** ** The detection functions as sums *)

Lemma performFFT_sized (s : ODF) :
  sized s ->
  sized (performFFT s) /\
  frameSize (performFFT s) = frameSize s /\
  prevMagSpec (performFFT s) = prevMagSpec s /\
  prevPhase (performFFT s) = prevPhase s /\
  prevPhase2 (performFFT s) = prevPhase2 s.
Proof.
  intros (HN & L1 & L2 & L3 & L4 & L5 & L6 & L7 & L8).
  destruct (transform_only_fields _ _ (performFFT_transform_only s))
    as (F & _ & _ & _ & _ & E1 & E2 & _ & E3 & E4 & E5 & E6 & E7).
  destruct (performFFT_input s HN L8) as (Hl & _ & _).
  unfold sized. rewrite F, E1, E2, E3, E4, E5, E6, E7, Hl. tauto.
Qed.

Lemma fillMagSpec_sized (u : ODF) :
  sized u -> (1 <= frameSize u)%Z ->
  sized (fillMagSpec u) /\
  frameSize (fillMagSpec u) = frameSize u /\
  prevMagSpec (fillMagSpec u) = prevMagSpec u /\
  complexIn (fillMagSpec u) = complexIn u.
Proof.
  intros (HN & L1 & L2 & L3 & L4 & L5 & L6 & L7 & L8) H1.
  destruct (fillMagSpec_spec u H1 L3) as (Hs & Hl & _).
  pose proof (f_equal frameSize Hs). pose proof (f_equal frame Hs).
  pose proof (f_equal window Hs). pose proof (f_equal prevMagSpec Hs).
  pose proof (f_equal phase Hs). pose proof (f_equal prevPhase Hs).
  pose proof (f_equal prevPhase2 Hs). pose proof (f_equal complexIn Hs).
  unfold sized. simpl in *.
  rewrite H, H0, H2, H3, H4, H5, H6, H7, Hl. tauto.
Qed.

Lemma spectralDifference_sum (s : ODF) :
  sized s -> (1 <= frameSize s)%Z ->
  fst (spectralDifference s)
  = sum_terms (frameSize s) (spectralDifference_term (fillMagSpec (performFFT s))).
Proof.
  intros Hs H1. unfold spectralDifference. cbv zeta.
  destruct (performFFT_sized s Hs) as (Hu & F & _).
  destruct (fillMagSpec_sized _ Hu ltac:(lia)) as (Hv & F' & _).
  rewrite <- F, <- F'.
  apply spectralDifference_loop; apply Hv.
Qed.

Lemma spectralDifferenceHWR_sum (s : ODF) :
  sized s -> (1 <= frameSize s)%Z ->
  fst (spectralDifferenceHWR s)
  = sum_terms (frameSize s) (spectralDifferenceHWR_term (fillMagSpec (performFFT s))).
Proof.
  intros Hs H1. unfold spectralDifferenceHWR. cbv zeta.
  destruct (performFFT_sized s Hs) as (Hu & F & _).
  destruct (fillMagSpec_sized _ Hu ltac:(lia)) as (Hv & F' & _).
  rewrite <- F, <- F'.
  apply spectralDifferenceHWR_loop; apply Hv.
Qed.

Lemma phaseDeviation_sum (s : ODF) :
  sized s ->
  fst (phaseDeviation s) = sum_terms (frameSize s) (phaseDeviation_term (performFFT s)).
Proof.
  intros Hs. unfold phaseDeviation. cbv zeta.
  destruct (performFFT_sized s Hs) as (Hu & F & _). rewrite <- F.
  apply phaseDeviation_loop; apply Hu.
Qed.

Lemma complexSpectralDifference_sum (s : ODF) :
  sized s ->
  fst (complexSpectralDifference s)
  = sum_terms (frameSize s) (complexSpectralDifference_term (performFFT s)).
Proof.
  intros Hs. unfold complexSpectralDifference. cbv zeta.
  destruct (performFFT_sized s Hs) as (Hu & F & _). rewrite <- F.
  apply complexSpectralDifference_loop; apply Hu.
Qed.

Lemma complexSpectralDifferenceHWR_sum (s : ODF) :
  sized s ->
  fst (complexSpectralDifferenceHWR s)
  = sum_terms (frameSize s) (complexSpectralDifferenceHWR_term (performFFT s)).
Proof.
  intros Hs. unfold complexSpectralDifferenceHWR. cbv zeta.
  destruct (performFFT_sized s Hs) as (Hu & F & _). rewrite <- F.
  apply complexSpectralDifferenceHWR_loop; apply Hu.
Qed.

Lemma highFrequencyContent_sum (s : ODF) :
  sized s ->
  fst (highFrequencyContent s)
  = sum_terms (frameSize s) (highFrequencyContent_term (performFFT s)).
Proof.
  intros Hs. unfold highFrequencyContent. cbv zeta.
  destruct (performFFT_sized s Hs) as (Hu & F & _). rewrite <- F.
  apply highFrequencyContent_loop; apply Hu.
Qed.

Lemma highFrequencySpectralDifference_sum (s : ODF) :
  sized s ->
  fst (highFrequencySpectralDifference s)
  = sum_terms (frameSize s) (highFrequencySpectralDifference_term (performFFT s)).
Proof.
  intros Hs. unfold highFrequencySpectralDifference. cbv zeta.
  destruct (performFFT_sized s Hs) as (Hu & F & _). rewrite <- F.
  apply highFrequencySpectralDifference_loop; apply Hu.
Qed.

Lemma highFrequencySpectralDifferenceHWR_sum (s : ODF) :
  sized s ->
  fst (highFrequencySpectralDifferenceHWR s)
  = sum_terms (frameSize s) (highFrequencySpectralDifferenceHWR_term (performFFT s)).
Proof.
  intros Hs. unfold highFrequencySpectralDifferenceHWR. cbv zeta.
  destruct (performFFT_sized s Hs) as (Hu & F & _). rewrite <- F.
  apply highFrequencySpectralDifferenceHWR_loop; apply Hu.
Qed.

(** ** Silence *)

Lemma performFFT_silence (s : ODF) :
  sized s -> Z.even (frameSize s) = true ->
  frame s = replicate (Z.to_nat (frameSize s)) 0 ->
  complexOut (performFFT s) = replicate (Z.to_nat (frameSize s)) czero.
Proof.
  intros (HN & _ & _ & _ & _ & _ & _ & _ & L8) He Hf.
  destruct (performFFT_input s HN L8) as (Hl & Hin & ->).
  pose proof (half_frame_even _ HN He) as H2.
  assert (complexIn (performFFT s) = replicate (Z.to_nat (frameSize s)) czero) as ->.
  { apply (rd_ext czero).
    - rewrite length_replicate. assumption.
    - intros j Hj. rewrite Hin, rd_replicate_czero. unfold fftInput. cbv zeta.
      rewrite Hf, !rd_replicate_zero.
      destruct (Z.leb_spec 0 j), (Z.ltb_spec j (frameSize s ÷ 2)); simpl;
        try (unfold czero; f_equal; ring);
        destruct (Z.leb_spec (frameSize s ÷ 2) j),
                 (Z.ltb_spec j (2 * (frameSize s ÷ 2))%Z); simpl;
        try (unfold czero; f_equal; ring); exfalso; lia. }
  apply dft_silence.
Qed.

Lemma energy_sum_silence (s : ODF) :
  frame s = replicate (Z.to_nat (frameSize s)) 0 ->
  for_range 0 (frameSize s)
    (fun i sum => sum + rd 0 (frame s) i * rd 0 (frame s) i) 0 = 0.
Proof.
  intros Hf. apply (for_range_preserves (fun acc => acc = 0)); [reflexivity|].
  intros k acc _ ->. rewrite Hf, rd_replicate_zero. ring.
Qed.

Lemma silent_bins (s : ODF) :
  silent s -> Z.even (frameSize s) = true ->
  forall k, binMagnitude (performFFT s) k = 0 /\
            rd 0 (prevMagSpec (performFFT s)) k = 0.
Proof.
  intros (Hs & Hf & Hp & _) He k.
  destruct (performFFT_sized s Hs) as (_ & _ & -> & _).
  unfold binMagnitude, bin. rewrite (performFFT_silence s Hs He Hf).
  rewrite rd_replicate_czero, magnitude_czero, Hp, rd_replicate_zero. tauto.
Qed.

Lemma silent_mirrored (s : ODF) :
  silent s -> Z.even (frameSize s) = true -> (1 <= frameSize s)%Z ->
  forall k, (0 <= k < frameSize s)%Z ->
    rd 0 (magSpec (fillMagSpec (performFFT s))) k = 0 /\
    rd 0 (prevMagSpec (fillMagSpec (performFFT s))) k = 0.
Proof.
  intros Hsil He H1 k Hk. pose proof Hsil as (Hs & Hf & Hp & _).
  destruct (performFFT_sized s Hs) as (Hu & F & Hpm & _).
  destruct (fillMagSpec_sized _ Hu ltac:(lia)) as (_ & _ & -> & _).
  destruct (fillMagSpec_spec (performFFT s) ltac:(lia) ltac:(apply Hu)) as (_ & _ & Hm).
  rewrite Hm by lia. rewrite Hpm, Hp, rd_replicate_zero.
  unfold mirroredMagnitude. rewrite (performFFT_silence s Hs He Hf).
  rewrite !rd_replicate_czero, magnitude_czero.
  destruct (_ <? _)%Z; tauto.
Qed.

(** On silence every metric of an even frame size is zero. *)
Lemma silent_dispatch (s : ODF) :
  silent s -> Z.even (frameSize s) = true -> (1 <= frameSize s)%Z ->
  (0 <= onsetDetectionFunctionType s <= 9)%Z ->
  fst (dispatch s) = 0.
Proof.
  intros Hsil He H1 Ht. pose proof Hsil as (Hs & Hf & Hp & Hen).
  pose proof (silent_bins s Hsil He) as Hb.
  unfold dispatch. cbv zeta.
  unfold EnergyEnvelope, EnergyDifference, SpectralDifference, SpectralDifferenceHWR,
    PhaseDeviation, ComplexSpectralDifference, ComplexSpectralDifferenceHWR,
    HighFrequencyContent, HighFrequencySpectralDifference,
    HighFrequencySpectralDifferenceHWR.
  repeat match goal with
         | |- context [(?a =? ?b)%Z] => destruct (Z.eqb_spec a b)
         end; try (exfalso; lia).
  - unfold energyEnvelope. simpl. apply energy_sum_silence. assumption.
  - unfold energyDifference. cbv zeta. rewrite energy_sum_silence, Hen by assumption.
    destruct (Rgt_dec (0 - 0) 0); simpl; lra.
  - rewrite spectralDifference_sum by assumption. apply sum_terms_zero.
    intros k Hk. unfold spectralDifference_term. cbv zeta.
    destruct (silent_mirrored s Hsil He H1 k Hk) as [-> ->].
    destruct (Rlt_dec _ 0); lra.
  - rewrite spectralDifferenceHWR_sum by assumption. apply sum_terms_zero.
    intros k Hk. unfold spectralDifferenceHWR_term. cbv zeta.
    destruct (silent_mirrored s Hsil He H1 k Hk) as [-> ->].
    destruct (Rgt_dec _ 0); lra.
  - rewrite phaseDeviation_sum by assumption. apply sum_terms_zero.
    intros k Hk. unfold phaseDeviation_term. destruct (Hb k) as [-> _].
    destruct (Rgt_dec 0 0.1); [lra | reflexivity].
  - rewrite complexSpectralDifference_sum by assumption. apply sum_terms_zero.
    intros k Hk. unfold complexSpectralDifference_term. destruct (Hb k) as [-> ->].
    match goal with |- sqrt ?x = 0 => replace x with 0 by ring end. apply sqrt_0.
  - rewrite complexSpectralDifferenceHWR_sum by assumption. apply sum_terms_zero.
    intros k Hk. unfold complexSpectralDifferenceHWR_term. destruct (Hb k) as [-> ->].
    destruct (Rgt_dec (0 - 0) 0); [lra | reflexivity].
  - rewrite highFrequencyContent_sum by assumption. apply sum_terms_zero.
    intros k Hk. unfold highFrequencyContent_term. destruct (Hb k) as [-> _]. ring.
  - rewrite highFrequencySpectralDifference_sum by assumption. apply sum_terms_zero.
    intros k Hk. unfold highFrequencySpectralDifference_term. cbv zeta.
    destruct (Hb k) as [-> ->]. destruct (Rlt_dec (0 - 0) 0); ring.
  - rewrite highFrequencySpectralDifferenceHWR_sum by assumption. apply sum_terms_zero.
    intros k Hk. unfold highFrequencySpectralDifferenceHWR_term. cbv zeta.
    destruct (Hb k) as [-> ->]. destruct (Rgt_dec (0 - 0) 0); [lra | reflexivity].
Qed.

Lemma length_fftw_malloc (uninit : nat -> complex) (n : Z) :
  length (fftw_malloc uninit n) = Z.to_nat n.
Proof. unfold fftw_malloc. rewrite length_map, length_seq. reflexivity. Qed.

Lemma initialised_as_sized (uninit : nat -> complex) (h f t w : Z) (s : ODF) :
  (0 <= f)%Z -> initialised_as uninit h f t w s -> sized s.
Proof.
  intros Hf (_ & _ & F & _ & _ & A1 & A2 & A3 & A4 & _ & L1 & L2 & L3 & C1 & _).
  unfold sized.
  rewrite F, A1, A2, A3, A4, C1, L1, L2, L3, !length_replicate, length_fftw_malloc.
  tauto.
Qed.

Lemma shiftFrame_silence (s : ODF) :
  silent s -> (0 <= hopSize s <= frameSize s)%Z ->
  silent (shiftFrame (replicate (Z.to_nat (hopSize s)) 0) s) /\
  onsetDetectionFunctionType (shiftFrame (replicate (Z.to_nat (hopSize s)) 0) s)
  = onsetDetectionFunctionType s /\
  frameSize (shiftFrame (replicate (Z.to_nat (hopSize s)) 0) s) = frameSize s.
Proof.
  intros ((HN & L1 & L2 & L3 & L4 & L5 & L6 & L7 & L8) & Hf & Hp & He) Hh.
  destruct (shiftFrame_spec (replicate (Z.to_nat (hopSize s)) 0) s L1 Hh
              ltac:(rewrite length_replicate; lia)) as [Hs Hfr].
  revert Hs Hfr. generalize (shiftFrame (replicate (Z.to_nat (hopSize s)) 0) s).
  intros u Hs Hfr.
  pose proof (f_equal frameSize Hs) as E1. pose proof (f_equal window Hs) as E2.
  pose proof (f_equal magSpec Hs) as E3. pose proof (f_equal prevMagSpec Hs) as E4.
  pose proof (f_equal phase Hs) as E5. pose proof (f_equal prevPhase Hs) as E6.
  pose proof (f_equal prevPhase2 Hs) as E7. pose proof (f_equal complexIn Hs) as E8.
  pose proof (f_equal prevEnergySum Hs) as E9.
  pose proof (f_equal onsetDetectionFunctionType Hs) as E10.
  simpl in E1, E2, E3, E4, E5, E6, E7, E8, E9, E10.
  assert (frame u = replicate (Z.to_nat (frameSize s)) 0) as Hfu.
  { rewrite Hfr, Hf, drop_replicate, take_replicate.
    rewrite Nat.min_id, <- replicate_add. f_equal. lia. }
  unfold silent, sized.
  rewrite E1, E2, E3, E4, E5, E6, E7, E8, E9, E10, Hfu, length_replicate.
  tauto.
Qed.

(** The part of C3 that holds: for an even frame size and
    [0 < hopSize <= frameSize], [initialise] followed by a call on a chunk of
    zeros returns 0 for each of the ten metrics, with any window kind, and 1
    for a metric kind outside the enumeration. *)
Lemma silence_even_frameSize (uninit : nat -> complex) (h f t w : Z) (s : ODF) :
  (0 < h <= f)%Z -> Z.even f = true ->
  exists s0, initialise uninit h f t w s = Returned s0 /\
    ((0 <= t <= 9)%Z ->
       fst (calculateOnsetDetectionFunctionSample (replicate (Z.to_nat h) 0) s0) = 0) /\
    (~ (0 <= t <= 9)%Z ->
       fst (calculateOnsetDetectionFunctionSample (replicate (Z.to_nat h) 0) s0) = 1).
Proof.
  intros Hh He.
  destruct (initialise_returns uninit h f t w s ltac:(lia)) as (s0 & Hi & Ha).
  exists s0. split; [assumption|].
  assert (sized s0) as Hsz by (apply (initialised_as_sized uninit h f t w); [lia | exact Ha]).
  destruct Ha as (_ & H1 & F & T & _ & A1 & A2 & _ & _ & A5 & _).
  assert (silent s0) as Hsil by (unfold silent; rewrite F; tauto).
  destruct (shiftFrame_silence s0 Hsil ltac:(lia)) as (Hu & Tu & Fu).
  rewrite H1 in Hu, Tu, Fu.
  unfold calculateOnsetDetectionFunctionSample. split; intros Ht.
  - apply silent_dispatch; rewrite ?Fu, ?Tu, ?F, ?T; try assumption; lia.
  - rewrite dispatch_unknown by (rewrite Tu, T; assumption). reflexivity.
Qed.

(** ** Silence with an odd frame size *)

Lemma dft_sum_last (n k : nat) (g : complex) (m : nat) :
  forall j, dft_sum n k j (replicate m czero ++ [g])
            = cadd (cmul g (twiddle n k (j + m))) czero.
Proof.
  induction m as [|m IH]; intros j.
  - simpl. replace (j + 0)%nat with j by lia. reflexivity.
  - simpl. rewrite cmul_czero_l, cadd_czero_l, IH.
    replace (Datatypes.S j + m)%nat with (j + Datatypes.S m)%nat by lia. reflexivity.
Qed.

Lemma magnitude_rotated (g : complex) (n k j : nat) :
  magnitude (cadd (cmul g (twiddle n k j)) czero) = magnitude g.
Proof.
  destruct g as [a b]. unfold magnitude, cadd, cmul, twiddle, czero. cbv zeta. simpl.
  set (x := 2 * PI * INR j * INR k / INR n).
  f_equal.
  pose proof (sin2_cos2 x) as H. unfold Rsqr in H.
  replace ((a * cos x - b * - sin x + 0) * ((a * cos x - b * - sin x + 0) * 1) +
           (a * - sin x + b * cos x + 0) * ((a * - sin x + b * cos x + 0) * 1))
    with ((a * a + b * b) * (sin x * sin x + cos x * cos x)) by ring.
  rewrite H. ring.
Qed.

Lemma magnitude_nonneg_term (m : R) :
  0 <= m -> (if Rlt_dec (m - 0) 0 then (m - 0) * -1 else m - 0) = m.
Proof. intros Hm. destruct (Rlt_dec (m - 0) 0); lra. Qed.

Lemma sum_terms_const (N : Z) (c : R) :
  (0 <= N)%Z -> sum_terms N (fun _ => c) = IZR N * c.
Proof.
  intros HN. unfold sum_terms.
  apply (for_range_invariant (fun k acc => acc = IZR k * c)); [assumption | lra |].
  intros k acc _ ->. rewrite plus_IZR. ring.
Qed.

(** With an odd frame size the loop of [performFFT] never writes the last
    element of [complexIn], which keeps what [fftw_malloc] left there; on
    silence every bin of the transform then has the magnitude of that
    element, and the spectral difference returns [frameSize] times it. *)
Lemma silence_odd_frameSize (uninit : nat -> complex) (h f w : Z) (s : ODF) :
  (0 < h <= f)%Z -> Z.odd f = true ->
  exists s0, initialise uninit h f SpectralDifference w s = Returned s0 /\
    fst (calculateOnsetDetectionFunctionSample (replicate (Z.to_nat h) 0) s0)
    = IZR f * magnitude (uninit (Z.to_nat (f - 1))).
Proof.
  intros Hh Ho.
  destruct (initialise_returns uninit h f SpectralDifference w s ltac:(lia))
    as (s0 & Hi & Ha).
  exists s0. split; [assumption|].
  assert (sized s0) as Hsz
      by (apply (initialised_as_sized uninit h f SpectralDifference w); [lia | exact Ha]).
  destruct Ha as (_ & H1 & F & T & _ & A1 & A2 & _ & _ & A5 & _ & _ & _ & C1 & _).
  assert (silent s0) as Hsil by (unfold silent; rewrite F; tauto).
  destruct (shiftFrame_silence s0 Hsil ltac:(lia)) as (Hu & Tu & Fu).
  assert (complexIn (shiftFrame (replicate (Z.to_nat (hopSize s0)) 0) s0)
          = fftw_malloc uninit f) as Cu.
  { destruct Hsz as (_ & L1 & _).
    destruct (shiftFrame_spec (replicate (Z.to_nat (hopSize s0)) 0) s0 L1 ltac:(lia)
                ltac:(rewrite length_replicate; lia)) as [Hs _].
    apply (f_equal complexIn) in Hs. simpl in Hs. congruence. }
  rewrite H1 in Hu, Tu, Fu, Cu.
  unfold calculateOnsetDetectionFunctionSample.
  revert Hu Tu Fu Cu. generalize (shiftFrame (replicate (Z.to_nat h) 0) s0).
  intros u (Hus & Huf & Hup & _) Tu Fu Cu. rewrite F in Fu.
  (* the transform input: zeros, then the element never written *)
  pose proof Hus as (HN & _ & _ & _ & _ & _ & _ & _ & L8).
  destruct (performFFT_input u HN L8) as (Hl & Hin & Hout).
  destruct (half_frame f ltac:(lia)) as (Hh0 & Hh1 & Hh2).
  assert (2 * (f ÷ 2) + 1 = f)%Z as Hodd.
  { rewrite Z.quot_div_nonneg by lia.
    pose proof (Z.div_mod f 2 ltac:(lia)) as Hd. rewrite Zmod_odd, Ho in Hd. lia. }
  assert (complexIn (performFFT u)
          = replicate (Z.to_nat (f - 1)) czero ++ [uninit (Z.to_nat (f - 1))]) as Hcin.
  { apply (rd_ext czero).
    - rewrite Hl, Fu, length_app, length_replicate. simpl. lia.
    - intros j Hj. rewrite Hl, Fu in Hj. rewrite Hin. unfold fftInput. cbv zeta.
      rewrite Huf, Fu, !rd_replicate_zero.
      destruct (Z.leb_spec 0 j), (Z.ltb_spec j (f ÷ 2)); simpl; try (exfalso; lia).
      + unfold rd. destruct (j <? 0)%Z eqn:E; [exfalso; lia|].
        rewrite lookup_app_l by (rewrite length_replicate; lia).
        rewrite lookup_replicate_2 by lia. simpl. unfold czero. f_equal; ring.
      + destruct (Z.leb_spec (f ÷ 2) j), (Z.ltb_spec j (2 * (f ÷ 2))%Z); simpl;
          try (exfalso; lia).
        * unfold rd. destruct (j <? 0)%Z eqn:E; [exfalso; lia|].
          rewrite lookup_app_l by (rewrite length_replicate; lia).
          rewrite lookup_replicate_2 by lia. simpl. unfold czero. f_equal; ring.
        * assert (j = f - 1)%Z as -> by lia.
          rewrite Cu. unfold rd at 1 2.
          destruct (f - 1 <? 0)%Z eqn:E; [exfalso; lia|].
          rewrite lookup_app_r by (rewrite length_replicate; lia).
          rewrite length_replicate, Nat.sub_diag. simpl.
          unfold fftw_malloc. rewrite list_lookup_fmap, lookup_seq_lt by lia.
          reflexivity. }
  (* every bin has the magnitude of that element *)
  assert (forall k, (0 <= k < f)%Z ->
            binMagnitude (performFFT u) k = magnitude (uninit (Z.to_nat (f - 1)))) as Hbin.
  { intros k Hk. unfold binMagnitude, bin. rewrite Hout, Hcin. unfold dft, rd.
    destruct (k <? 0)%Z eqn:E; [exfalso; lia|].
    rewrite list_lookup_fmap, lookup_seq_lt
      by (rewrite length_app, length_replicate; simpl; lia).
    simpl. rewrite dft_sum_last. apply magnitude_rotated. }
  assert (dispatch u = spectralDifference u) as ->.
  { unfold dispatch. cbv zeta. rewrite Tu, T. reflexivity. }
  rewrite spectralDifference_sum by (try assumption; lia). rewrite Fu.
  destruct (performFFT_sized u Hus) as (Hps & Fp & Pp & _).
  destruct (fillMagSpec_sized _ Hps ltac:(lia)) as (_ & _ & Pf & _).
  destruct (fillMagSpec_spec (performFFT u) ltac:(lia) ltac:(apply Hps)) as (_ & _ & Hm).
  rewrite <- (sum_terms_const f) by lia. apply sum_terms_ext.
  intros k Hk. unfold spectralDifference_term. cbv zeta.
  rewrite Hm by lia. rewrite Pf, Pp, Hup, rd_replicate_zero, Fp, Fu.
  assert (mirroredMagnitude f (complexOut (performFFT u)) k
          = magnitude (uninit (Z.to_nat (f - 1)))) as ->.
  { unfold mirroredMagnitude. destruct (Z.ltb_spec k (f ÷ 2 + 1)%Z).
    - apply Hbin. lia.
    - apply Hbin. lia. }
  apply magnitude_nonneg_term, magnitude_nonneg.
Qed.

(** C3, on the code: with [frameSize = 3] (odd), [hopSize = 1], the
    spectral difference and the rectangular window, and the value 1.0 left
    by [fftw_malloc] in the last element of [complexIn], [initialise]
    followed by a call on the silent chunk [[0]] returns 3, not 0. *)
Theorem silence_not_zero_for_odd_frameSize :
  exists s0,
    initialise (fun _ => (1, 0)) 1 3 SpectralDifference RectangularWindow fresh
    = Returned s0 /\
    fst (calculateOnsetDetectionFunctionSample [0] s0) = 3.
Proof.
  destruct (silence_odd_frameSize (fun _ => (1, 0)) 1 3 RectangularWindow fresh)
    as (s0 & Hi & Hx); [lia | reflexivity |].
  exists s0. split; [assumption|].
  change (replicate (Z.to_nat 1) 0) with [0] in Hx. rewrite Hx.
  unfold magnitude. simpl.
  replace (1 * (1 * 1) + 0 * (0 * 1)) with 1 by ring. rewrite sqrt_1. ring.
Qed.

(** ** Two calls with the same frame *)

Lemma shiftFrame_frame_only (buffer : list R) (s : ODF) :
  set_frame [] (shiftFrame buffer s) = set_frame [] s /\
  length (frame (shiftFrame buffer s)) = length (frame s).
Proof.
  unfold shiftFrame. cbv zeta.
  set (Q := fun t : ODF =>
              set_frame [] t = set_frame [] s /\ length (frame t) = length (frame s)).
  match goal with
  | |- context [snd (for_range ?lo ?hi ?b (?j, for_range ?lo1 ?hi1 ?b1 s))] =>
      assert (Q (for_range lo1 hi1 b1 s)) as H1;
      [| assert (Q (snd (for_range lo hi b (j, for_range lo1 hi1 b1 s)))) as H2;
         [| exact H2 ] ]
  end.
  - apply (for_range_preserves Q); [split; reflexivity|].
    intros k t _ [Ht Hl]. split; [exact Ht|]. simpl. rewrite length_wr. exact Hl.
  - apply (for_range_preserves (fun st : Z * ODF => Q (snd st))); [exact H1|].
    intros k [j t] _ [Ht Hl]. split; [exact Ht|]. simpl. rewrite length_wr. exact Hl.
Qed.

Lemma shiftFrame_sized (buffer : list R) (s : ODF) :
  sized s ->
  sized (shiftFrame buffer s) /\
  frameSize (shiftFrame buffer s) = frameSize s /\
  onsetDetectionFunctionType (shiftFrame buffer s) = onsetDetectionFunctionType s /\
  window (shiftFrame buffer s) = window s /\
  complexIn (shiftFrame buffer s) = complexIn s /\
  prevMagSpec (shiftFrame buffer s) = prevMagSpec s /\
  prevPhase (shiftFrame buffer s) = prevPhase s /\
  prevPhase2 (shiftFrame buffer s) = prevPhase2 s.
Proof.
  intros (HN & L1 & L2 & L3 & L4 & L5 & L6 & L7 & L8).
  destruct (shiftFrame_frame_only buffer s) as [Hs Hl].
  revert Hs Hl. generalize (shiftFrame buffer s). intros u Hs Hl.
  pose proof (f_equal frameSize Hs) as E1. pose proof (f_equal window Hs) as E2.
  pose proof (f_equal magSpec Hs) as E3. pose proof (f_equal prevMagSpec Hs) as E4.
  pose proof (f_equal phase Hs) as E5. pose proof (f_equal prevPhase Hs) as E6.
  pose proof (f_equal prevPhase2 Hs) as E7. pose proof (f_equal complexIn Hs) as E8.
  pose proof (f_equal onsetDetectionFunctionType Hs) as E9.
  simpl in E1, E2, E3, E4, E5, E6, E7, E8, E9.
  unfold sized. rewrite E1, E2, E3, E4, E5, E6, E7, E8, E9, Hl. tauto.
Qed.

Lemma kept_sized (s t : ODF) : sized s -> kept s t -> sized t.
Proof.
  intros (HN & L1 & L2 & L3 & L4 & L5 & L6 & L7 & L8)
         (K1 & _ & _ & _ & _ & K6 & K7 & K8 & K9 & K10 & K11 & K12 & K13).
  unfold sized. rewrite K1, K6, K7, K8, K9, K10, K11, K12, K13. tauto.
Qed.

(** The transform of a frame does not depend on what an earlier transform
    of the same size left in [complexIn]. *)
Lemma performFFT_again (u1 u2 : ODF) :
  sized u1 -> sized u2 ->
  frameSize u2 = frameSize u1 -> frame u2 = frame u1 -> window u2 = window u1 ->
  complexIn u2 = complexIn (performFFT u1) ->
  complexIn (performFFT u2) = complexIn (performFFT u1) /\
  complexOut (performFFT u2) = complexOut (performFFT u1).
Proof.
  intros H1 H2 F Fr W C.
  destruct H1 as (HN1 & _ & _ & _ & _ & _ & _ & _ & L1).
  destruct H2 as (HN2 & _ & _ & _ & _ & _ & _ & _ & L2).
  destruct (performFFT_input u1 HN1 L1) as (Hl1 & Hin1 & Ho1).
  destruct (performFFT_input u2 HN2 L2) as (Hl2 & Hin2 & Ho2).
  assert (complexIn (performFFT u2) = complexIn (performFFT u1)) as E.
  { apply (rd_ext czero); [congruence|].
    intros j _. rewrite Hin2. unfold fftInput. cbv zeta.
    rewrite F, Fr, W, C, Hin1. unfold fftInput. cbv zeta.
    destruct ((0 <=? j)%Z && (j <? frameSize u1 ÷ 2)%Z); [reflexivity|].
    destruct ((frameSize u1 ÷ 2 <=? j)%Z && (j <? 2 * (frameSize u1 ÷ 2))%Z);
      reflexivity. }
  split; [exact E|]. rewrite Ho1, Ho2, E. reflexivity.
Qed.








Lemma call_step (c : list R) (s : ODF) :
  sized s ->
  let u := shiftFrame c s in
  let s' := snd (dispatch u) in
  (sized u /\ sized s') /\
  (frameSize u = frameSize s /\ frameSize s' = frameSize s) /\
  (onsetDetectionFunctionType u = onsetDetectionFunctionType s /\
   onsetDetectionFunctionType s' = onsetDetectionFunctionType s) /\
  (window u = window s /\ window s' = window s) /\
  frame s' = frame u /\
  complexIn u = complexIn s /\ prevMagSpec u = prevMagSpec s /\
  prevPhase u = prevPhase s /\ prevPhase2 u = prevPhase2 s.
Proof.
  intros Hs. cbv zeta.
  destruct (shiftFrame_sized c s Hs) as (Hu & F & T & W & C & P & P1 & P2).
  pose proof (dispatch_kept (shiftFrame c s)) as Hk.
  pose proof (kept_sized _ _ Hu Hk) as Hs'.
  destruct Hk as (K1 & _ & K3 & _ & _ & K6 & K7 & _).
  remember (shiftFrame c s) as u eqn:Eu.
  remember (snd (dispatch u)) as s' eqn:Es'.
  clear Eu Es'.
  split; [split; assumption|].
  repeat split; first [assumption | congruence].
Qed.









(** ** Two calls on the chunk [[1; 0]] *)

(** Evaluation of the code on concrete states: everything but the real
    arithmetic and the transform is computed. *)
Ltac run :=
  cbv -[dft sqrt cos sin atan PI IZR Rlt_dec Rgt_dec Rle_dec Rge_dec Rplus Rmult
        Rminus Ropp Rdiv Rinv pow princarg atan2 magnitude Rabs];
  repeat match goal with
         | |- context [0 * 1] => replace (0 * 1) with 0 by ring
         | |- context [1 * 1] => replace (1 * 1) with 1 by ring
         end.











(** * Further properties of the code *)

(** ** The windows *)

(** The invariant of the three window loops that carry the running value
    [n_val]: after [k] iterations it is [start + k], and the first [k]
    coefficients are written. *)
Lemma running_window_loop (s : ODF) (start : R) (coefficient : R -> R) :
  length (window s) = Z.to_nat (frameSize s) ->
  window (snd (for_range 0 (frameSize s)
                 (fun n (st : R * ODF) =>
                    let (n_val, s) := st in
                    (n_val + 1, set_window (wr (window s) n (coefficient n_val)) s))
                 (start, s)))
  = tabulate (Z.to_nat (frameSize s)) (fun n => coefficient (start + IZR n)).
Proof.
  intros Hlen.
  destruct (Z_lt_le_dec (frameSize s) 0) as [Hneg|Hpos].
  { unfold for_range. replace (Z.to_nat (frameSize s - 0)) with 0%nat by lia.
    simpl. replace (Z.to_nat (frameSize s)) with 0%nat in * by lia.
    destruct (window s); [reflexivity | discriminate]. }
  set (P := fun (k : Z) (st : R * ODF) =>
              fst st = start + IZR k /\
              length (window (snd st)) = Z.to_nat (frameSize s) /\
              forall j, (0 <= j < k)%Z ->
                        rd 0 (window (snd st)) j = coefficient (start + IZR j)).
  match goal with
  | |- window (snd ?r) = _ => assert (P (frameSize s) r) as (_ & Hl & Hv)
  end.
  { apply for_range_invariant; [assumption| |].
    - unfold P. simpl. split; [ring|]. split; [assumption | intros; lia].
    - intros k [x t] Hk (Hx & Hl & Hv). simpl in Hx, Hl, Hv. unfold P. simpl.
      split; [rewrite Hx, plus_IZR; ring|].
      split; [rewrite length_wr; assumption|].
      intros j Hj. destruct (Z.eq_dec j k) as [->|Hne].
      + rewrite rd_wr_same by lia. rewrite Hx. reflexivity.
      + rewrite rd_wr_other by congruence. apply Hv. lia. }
  apply (rd_ext 0).
  - rewrite length_tabulate. assumption.
  - intros i Hi. rewrite rd_tabulate by lia. apply Hv. lia.
Qed.

Lemma calclulateHammingWindow_coefficients (s : ODF) :
  length (window s) = Z.to_nat (frameSize s) ->
  window (calclulateHammingWindow s)
  = tabulate (Z.to_nat (frameSize s)) (hammingCoefficient (frameSize s)).
Proof.
  intros Hlen. unfold calclulateHammingWindow. cbv zeta.
  rewrite (running_window_loop s 0
             (fun x => 0.54 - 0.46 * cos (2 * pi * (x / IZR (frameSize s - 1)))) Hlen).
  unfold tabulate. apply map_ext. intros k. unfold hammingCoefficient.
  replace (0 + IZR (Z.of_nat k)) with (IZR (Z.of_nat k)) by ring. reflexivity.
Qed.

Lemma calculateBlackmanWindow_coefficients (s : ODF) :
  length (window s) = Z.to_nat (frameSize s) ->
  window (calculateBlackmanWindow s)
  = tabulate (Z.to_nat (frameSize s)) (blackmanCoefficient (frameSize s)).
Proof.
  intros Hlen. unfold calculateBlackmanWindow. cbv zeta.
  rewrite (running_window_loop s 0
             (fun x => 0.42 - 0.5 * cos (2 * pi * (x / IZR (frameSize s - 1)))
                       + 0.08 * cos (4 * pi * (x / IZR (frameSize s - 1)))) Hlen).
  unfold tabulate. apply map_ext. intros k. unfold blackmanCoefficient.
  replace (0 + IZR (Z.of_nat k)) with (IZR (Z.of_nat k)) by ring. reflexivity.
Qed.

Lemma calculateTukeyWindow_coefficients (s : ODF) :
  length (window s) = Z.to_nat (frameSize s) ->
  window (calculateTukeyWindow s)
  = tabulate (Z.to_nat (frameSize s)) (tukeyCoefficient (frameSize s)).
Proof.
  intros Hlen. unfold calculateTukeyWindow. cbv zeta.
  rewrite (running_window_loop s (IZR (-1 * (frameSize s ÷ 2)) + 1)
             (fun x =>
                if Rge_b x 0 && Rle_b x (0.5 * (IZR (frameSize s - 1) / 2)) then 1
                else if Rle_b x 0 && Rge_b x (-1 * 0.5 * (IZR (frameSize s - 1) / 2))
                     then 1
                     else 0.5 * (1 + cos (pi * (2 * x / (0.5 * IZR (frameSize s - 1)) - 1))))
             Hlen).
  reflexivity.
Qed.

Lemma calculateRectangularWindow_coefficients (s : ODF) :
  length (window s) = Z.to_nat (frameSize s) ->
  window (calculateRectangularWindow s)
  = tabulate (Z.to_nat (frameSize s)) (fun _ => 1).
Proof.
  intros Hlen. unfold calculateRectangularWindow.
  destruct (Z_lt_le_dec (frameSize s) 0) as [Hneg|Hpos].
  { unfold for_range. replace (Z.to_nat (frameSize s - 0)) with 0%nat by lia.
    simpl. replace (Z.to_nat (frameSize s)) with 0%nat in * by lia.
    destruct (window s); [reflexivity | discriminate]. }
  set (P := fun (k : Z) (t : ODF) =>
              length (window t) = Z.to_nat (frameSize s) /\
              forall j, (0 <= j < k)%Z -> rd 0 (window t) j = 1).
  match goal with
  | |- window ?r = _ => assert (P (frameSize s) r) as [Hl Hv]
  end.
  { apply for_range_invariant; [assumption | split; [assumption | intros; lia] |].
    intros k t Hk [Hl Hv]. split.
    - simpl. rewrite length_wr. assumption.
    - intros j Hj. simpl. destruct (Z.eq_dec j k) as [->|Hne].
      + rewrite rd_wr_same by lia. reflexivity.
      + rewrite rd_wr_other by congruence. apply Hv. lia. }
  apply (rd_ext 0).
  - rewrite length_tabulate. assumption.
  - intros i Hi. rewrite rd_tabulate by lia. apply Hv. lia.
Qed.

Lemma selectWindow_coefficients (s : ODF) :
  length (window s) = Z.to_nat (frameSize s) ->
  window (selectWindow s)
  = tabulate (Z.to_nat (frameSize s)) (windowCoefficient (windowType s) (frameSize s)).
Proof.
  intros Hlen. unfold selectWindow, windowCoefficient.
  repeat match goal with |- context [(?a =? ?b)%Z] => destruct (a =? b)%Z end;
    auto using calculateRectangularWindow_coefficients,
      calculateHanningWindow_coefficients, calclulateHammingWindow_coefficients,
      calculateBlackmanWindow_coefficients, calculateTukeyWindow_coefficients.
Qed.

Lemma initialise_window (uninit : nat -> complex) (h f t w : Z) (s : ODF) :
  (0 <= f)%Z ->
  exists s', initialise uninit h f t w s = Returned s' /\
             window s' = tabulate (Z.to_nat f) (windowCoefficient w f).
Proof.
  intros Hf.
  destruct (initialise_returns uninit h f t w s Hf) as (s' & Hs & Hi).
  exists s'. split; [assumption|].
  unfold initialised_as in Hi. cbv zeta in Hi.
  destruct Hi as (_ & _ & _ & _ & _ & _ & _ & _ & _ & _ & _ & _ & _ & _ & _
                  & s1 & F1 & W1 & L1 & ->).
  rewrite selectWindow_coefficients by congruence. rewrite F1, W1. reflexivity.
Qed.

Lemma tabulate_const {A} (n : nat) (c : A) : tabulate n (fun _ => c) = replicate n c.
Proof.
  unfold tabulate. apply list_eq. intros i. rewrite list_lookup_fmap.
  destruct (decide (i < n)%nat).
  - rewrite lookup_seq_lt by assumption. simpl. symmetry.
    apply lookup_replicate_2. assumption.
  - rewrite lookup_seq_ge by lia. simpl. symmetry. apply lookup_replicate_None. lia.
Qed.

(** [initialise] with a frame size that is not negative and not 1 (every
    kind but the rectangular one divides by [frameSize - 1]) overwrites the
    whole window, whatever it held, with the coefficients of the kind asked
    for (Hanning for an unknown kind): element [n] is
    [windowCoefficient w f n].  For the rectangular kind the window is all
    ones. *)
Theorem initialise_writes_window (uninit : nat -> complex) (h f t w : Z) (s : ODF) :
  (0 <= f)%Z -> (f <> 1)%Z ->
  exists s', initialise uninit h f t w s = Returned s' /\
             window s' = tabulate (Z.to_nat f) (windowCoefficient w f) /\
             (w = RectangularWindow -> window s' = replicate (Z.to_nat f) 1).
Proof.
  intros Hf _. destruct (initialise_window uninit h f t w s Hf) as (s' & Hs & Hw).
  exists s'. split; [assumption|]. split; [assumption|].
  intros ->. rewrite Hw. unfold windowCoefficient. simpl. apply tabulate_const.
Qed.

Lemma initialise_writes_window_witness :
  exists s', initialise (fun _ => czero) 2 4 EnergyEnvelope BlackmanWindow twoSamples
             = Returned s' /\
             window s' = tabulate (Z.to_nat 4) (windowCoefficient BlackmanWindow 4) /\
             (BlackmanWindow = RectangularWindow -> window s' = replicate (Z.to_nat 4) 1).
Proof.
  apply (initialise_writes_window (fun _ => czero) 2 4 EnergyEnvelope BlackmanWindow
           twoSamples); lia.
Defined.

Lemma hanningCoefficient_bounds (N n : Z) : 0 <= hanningCoefficient N n <= 1.
Proof.
  unfold hanningCoefficient.
  pose proof (COS_bound (2 * pi * (IZR n / IZR (N - 1)))). lra.
Qed.

Lemma hammingCoefficient_bounds (N n : Z) : 0 <= hammingCoefficient N n <= 1.
Proof.
  unfold hammingCoefficient.
  pose proof (COS_bound (2 * pi * (IZR n / IZR (N - 1)))). lra.
Qed.

Lemma blackmanCoefficient_bounds (N n : Z) : 0 <= blackmanCoefficient N n <= 1.
Proof.
  unfold blackmanCoefficient.
  set (y := 2 * pi * (IZR n / IZR (N - 1))).
  replace (4 * pi * (IZR n / IZR (N - 1))) with (2 * y) by (unfold y; ring).
  rewrite cos_2a_cos. pose proof (COS_bound y) as [Hlo Hhi].
  set (c := cos y) in *. split; nra.
Qed.

Lemma tukeyCoefficient_bounds (N n : Z) : 0 <= tukeyCoefficient N n <= 1.
Proof.
  unfold tukeyCoefficient. cbv zeta.
  destruct (_ && _); [lra|]. destruct (_ && _); [lra|].
  match goal with |- context [cos ?x] => pose proof (COS_bound x) end. lra.
Qed.

Lemma windowCoefficient_bounds (w N n : Z) : 0 <= windowCoefficient w N n <= 1.
Proof.
  unfold windowCoefficient.
  repeat match goal with |- context [(?a =? ?b)%Z] => destruct (a =? b)%Z end;
    auto using hanningCoefficient_bounds, hammingCoefficient_bounds,
      blackmanCoefficient_bounds, tukeyCoefficient_bounds.
  lra.
Qed.

(** Every window that [initialise] writes, of any kind but the Blackman one
    and any frame size that is not negative and not 1 (where the cosine
    windows divide by [frameSize - 1 = 0]), has all its coefficients between
    0 and 1.  The Blackman window is left out: its two end coefficients,
    [0.42 - 0.5 + 0.08], are 0 here and just below 0 once each operation is
    rounded, while each of the other formulas stays within the bounds when
    rounded. *)
Theorem window_between_0_and_1 (uninit : nat -> complex) (h f t w : Z) (s : ODF) :
  (0 <= f)%Z -> (f <> 1)%Z -> w <> BlackmanWindow ->
  exists s', initialise uninit h f t w s = Returned s' /\
             Forall (fun c => 0 <= c <= 1) (window s').
Proof.
  intros Hf _ _. destruct (initialise_window uninit h f t w s Hf) as (s' & Hs & Hw).
  exists s'. split; [assumption|].
  rewrite Hw. unfold tabulate. apply Forall_fmap, Forall_forall.
  intros k _. apply windowCoefficient_bounds.
Qed.

Lemma window_between_0_and_1_witness :
  exists s', initialise (fun _ => czero) 2 4 EnergyEnvelope TukeyWindow fresh
             = Returned s' /\
             Forall (fun c => 0 <= c <= 1) (window s').
Proof.
  apply (window_between_0_and_1 (fun _ => czero) 2 4 EnergyEnvelope TukeyWindow fresh);
    unfold TukeyWindow, BlackmanWindow; lia.
Defined.

(** ** The transform input: windowed frame, halves swapped *)

Lemma rd_fmap {A B} (g : A -> B) (da : A) (db : B) (l : list A) (i : Z) :
  (0 <= i < Z.of_nat (length l))%Z -> rd db (g <$> l) i = g (rd da l i).
Proof.
  intros Hi. unfold rd. destruct (i <? 0)%Z eqn:E; [exfalso; lia|].
  rewrite list_lookup_fmap.
  destruct (lookup_lt_is_Some_2 l (Z.to_nat i) ltac:(lia)) as [x ->]. reflexivity.
Qed.

Lemma rd_zip_with_mult (a b : list R) (i : Z) :
  length a = length b -> rd 0 (zip_with Rmult a b) i = rd 0 a i * rd 0 b i.
Proof.
  intros Hlen. unfold rd. destruct (i <? 0)%Z; [ring|].
  rewrite lookup_zip_with.
  destruct (a !! Z.to_nat i) as [x|] eqn:Ea; simpl.
  - destruct (lookup_lt_is_Some_2 b (Z.to_nat i)) as [y ->].
    + apply lookup_lt_Some in Ea. lia.
    + reflexivity.
  - ring.
Qed.

(** For an even frame size [performFFT] hands to the transform the frame
    multiplied by the window, sample by sample, with its second half moved
    in front of its first half and all imaginary parts zero; nothing of the
    old content of [complexIn] is left, and [complexOut] is the transform of
    that input. *)
Theorem performFFT_swaps_halves (s : ODF) :
  sized s -> Z.even (frameSize s) = true ->
  let h := Z.to_nat (frameSize s ÷ 2) in
  let windowed := zip_with Rmult (frame s) (window s) in
  complexIn (performFFT s) = (fun x => (x, 0)) <$> (drop h windowed ++ take h windowed) /\
  complexOut (performFFT s) = dft (complexIn (performFFT s)).
Proof.
  intros (HN & L1 & L2 & _ & _ & _ & _ & _ & L8) He h windowed.
  destruct (performFFT_input s HN L8) as (Hl & Hin & Hout).
  split; [|exact Hout].
  pose proof (half_frame_even _ HN He) as H2.
  destruct (half_frame _ HN) as (Hh0 & _).
  assert (length windowed = Z.to_nat (frameSize s)) as Lw.
  { unfold windowed. rewrite length_zip_with. lia. }
  assert (length (drop h windowed ++ take h windowed) = Z.to_nat (frameSize s)) as Ld.
  { rewrite length_app, length_drop, length_take. unfold h. lia. }
  apply (rd_ext czero).
  - rewrite length_fmap. congruence.
  - intros j Hj. rewrite Hl in Hj.
    rewrite (rd_fmap _ 0) by lia. rewrite Hin. unfold fftInput. cbv zeta.
    destruct (Z.leb_spec 0 j), (Z.ltb_spec j (frameSize s ÷ 2)); simpl;
      try (exfalso; lia).
    + rewrite rd_shifted_old by (unfold h; lia).
      unfold windowed. rewrite rd_zip_with_mult by lia.
      unfold h. rewrite Z2Nat.id by lia. reflexivity.
    + destruct (Z.leb_spec (frameSize s ÷ 2) j),
               (Z.ltb_spec j (2 * (frameSize s ÷ 2))%Z); simpl; try (exfalso; lia).
      rewrite rd_shifted_new by (unfold h; lia).
      rewrite rd_take by (unfold h; lia).
      rewrite Lw. unfold windowed. rewrite rd_zip_with_mult by lia.
      unfold h.
      replace (j - Z.of_nat (Z.to_nat (frameSize s) - Z.to_nat (frameSize s ÷ 2)))%Z
        with (j - frameSize s ÷ 2)%Z by lia.
      reflexivity.
Qed.

Lemma performFFT_swaps_halves_witness :
  complexIn (performFFT fourSamples_inUse)
  = (fun x => (x, 0))
      <$> (drop (Z.to_nat (frameSize fourSamples_inUse ÷ 2))
             (zip_with Rmult (frame fourSamples_inUse) (window fourSamples_inUse))
           ++ take (Z.to_nat (frameSize fourSamples_inUse ÷ 2))
                (zip_with Rmult (frame fourSamples_inUse) (window fourSamples_inUse))) /\
  complexOut (performFFT fourSamples_inUse)
  = dft (complexIn (performFFT fourSamples_inUse)).
Proof.
  apply (performFFT_swaps_halves fourSamples_inUse).
  - unfold sized. simpl. repeat split; lia.
  - reflexivity.
Defined.

(** ** The energy metrics *)

(** The frame with the sign of sample [n] changed where [flip n] holds. *)
Lemma rd_flipped (flip : nat -> bool) (f : list R) (i : Z) :
  rd 0 (imap (fun n x => if flip n then - x else x) f) i
  * rd 0 (imap (fun n x => if flip n then - x else x) f) i
  = rd 0 f i * rd 0 f i.
Proof.
  unfold rd. destruct (i <? 0)%Z; [ring|]. rewrite list_lookup_imap.
  destruct (f !! Z.to_nat i); simpl; [|ring].
  destruct (flip (Z.to_nat i)); ring.
Qed.

(** The two energy metrics see the samples of the frame through their
    squares only: changing the sign of any of the samples (of all of them:
    the signal with its polarity inverted) changes neither the energy
    envelope, nor the energy difference, nor the energy that the energy
    difference stores for the next call. *)
Theorem energy_metrics_ignore_signs (flip : nat -> bool) (s : ODF) :
  let s' := set_frame (imap (fun n x => if flip n then - x else x) (frame s)) s in
  fst (energyEnvelope s') = fst (energyEnvelope s) /\
  fst (energyDifference s') = fst (energyDifference s) /\
  prevEnergySum (snd (energyDifference s')) = prevEnergySum (snd (energyDifference s)).
Proof.
  cbv zeta.
  assert (for_range 0 (frameSize s)
            (fun i sum =>
               sum + rd 0 (imap (fun n x => if flip n then - x else x) (frame s)) i
                     * rd 0 (imap (fun n x => if flip n then - x else x) (frame s)) i) 0
          = for_range 0 (frameSize s)
              (fun i sum => sum + rd 0 (frame s) i * rd 0 (frame s) i) 0) as E.
  { apply (for_range_related (fun x y : R => x = y)); [reflexivity|].
    intros k x y _ ->. rewrite rd_flipped. reflexivity. }
  unfold energyEnvelope, energyDifference. cbv zeta. simpl. rewrite E.
  split; [reflexivity|].
  destruct (Rgt_dec _ 0); split; reflexivity.
Qed.

(** The energy difference is the increase of the frame energy over the
    stored energy, or 0 when the energy did not increase; in both cases the
    stored energy becomes the energy of the frame, and nothing else
    changes. *)
Theorem energyDifference_rectifies (s : ODF) :
  let E := fst (energyEnvelope s) in
  fst (energyDifference s) = Rmax 0 (E - prevEnergySum s) /\
  snd (energyDifference s) = set_prevEnergySum E s.
Proof.
  cbv zeta. unfold energyDifference, energyEnvelope, Rmax. cbv zeta. simpl.
  destruct (Rgt_dec _ 0), (Rle_dec 0 _); simpl; split; try reflexivity; lra.
Qed.

Lemma shiftFrame_prevEnergySum (c : list R) (s : ODF) :
  prevEnergySum (shiftFrame c s) = prevEnergySum s /\
  hopSize (shiftFrame c s) = hopSize s /\
  windowType (shiftFrame c s) = windowType s /\
  initialised (shiftFrame c s) = initialised s.
Proof.
  destruct (shiftFrame_frame_only c s) as [Hs _].
  pose proof (f_equal prevEnergySum Hs). pose proof (f_equal hopSize Hs).
  pose proof (f_equal windowType Hs). pose proof (f_equal initialised Hs).
  simpl in *. tauto.
Qed.

Lemma dispatch_energyDifference (u : ODF) :
  onsetDetectionFunctionType u = EnergyDifference -> dispatch u = energyDifference u.
Proof. intros H. unfold dispatch. cbv zeta. rewrite H. reflexivity. Qed.

Lemma energyDifference_result (u : ODF) :
  snd (energyDifference u) = set_prevEnergySum (fst (energyEnvelope u)) u /\
  (prevEnergySum u = fst (energyEnvelope u) -> fst (energyDifference u) = 0).
Proof.
  unfold energyDifference, energyEnvelope. cbv zeta. simpl.
  destruct (Rgt_dec _ 0); simpl; split; try reflexivity; intros; lra.
Qed.

Lemma energyEnvelope_of_frame (u1 u2 : ODF) :
  frameSize u2 = frameSize u1 -> frame u2 = frame u1 ->
  fst (energyEnvelope u2) = fst (energyEnvelope u1).
Proof. intros F Fr. unfold energyEnvelope. simpl. rewrite F, Fr. reflexivity. Qed.

Lemma energy_call (c : list R) (s : ODF) :
  onsetDetectionFunctionType s = EnergyDifference ->
  let u := shiftFrame c s in
  let r := dispatch u in
  onsetDetectionFunctionType (snd r) = EnergyDifference /\
  frameSize (snd r) = frameSize u /\ frame (snd r) = frame u /\
  prevEnergySum (snd r) = fst (energyEnvelope u) /\
  frameSize u = frameSize s /\ prevEnergySum u = prevEnergySum s /\
  (prevEnergySum s = fst (energyEnvelope u) -> fst r = 0).
Proof.
  intros Ht. cbv zeta.
  destruct (shiftFrame_frame_only c s) as [Hs _].
  destruct (shiftFrame_prevEnergySum c s) as (P & _).
  pose proof (f_equal onsetDetectionFunctionType Hs) as T.
  pose proof (f_equal frameSize Hs) as F. simpl in T, F.
  revert Hs P T F. generalize (shiftFrame c s). intros u _ P T F.
  rewrite dispatch_energyDifference by congruence.
  destruct (energyDifference_result u) as [-> Hz].
  split; [simpl; congruence|].
  split; [reflexivity|]. split; [reflexivity|]. split; [reflexivity|].
  split; [congruence|]. split; [congruence|].
  intros H. apply Hz. congruence.
Qed.

(** With the energy difference selected, the second of two consecutive
    calls that leave the same frame returns 0. *)
Theorem energyDifference_repeated_frame (c1 c2 : list R) (s : ODF) :
  onsetDetectionFunctionType s = EnergyDifference ->
  let s1 := snd (calculateOnsetDetectionFunctionSample c1 s) in
  let r2 := calculateOnsetDetectionFunctionSample c2 s1 in
  frame (snd r2) = frame s1 -> fst r2 = 0.
Proof.
  intros Ht. cbv zeta. unfold calculateOnsetDetectionFunctionSample.
  pose proof (energy_call c1 s Ht) as K1. cbv zeta in K1.
  destruct K1 as (T1 & F1 & Fr1 & P1 & _).
  pose proof (energy_call c2 _ T1) as K2. cbv zeta in K2.
  destruct K2 as (_ & _ & Fr2 & _ & F2 & _ & Hz).
  intros Hfr. apply Hz. rewrite P1.
  symmetry. apply energyEnvelope_of_frame; congruence.
Qed.

Lemma energyDifference_repeated_frame_witness :
  fst (calculateOnsetDetectionFunctionSample [1; 0]
         (snd (calculateOnsetDetectionFunctionSample [1; 0]
                 (setOnsetDetectionFunctionType EnergyDifference twoSamples)))) = 0.
Proof.
  refine (energyDifference_repeated_frame [1; 0] [1; 0]
            (setOnsetDetectionFunctionType EnergyDifference twoSamples) _ _).
  - reflexivity.
  - unfold calculateOnsetDetectionFunctionSample.
    rewrite (dispatch_energyDifference
               (shiftFrame [1; 0]
                  (setOnsetDetectionFunctionType EnergyDifference twoSamples)))
      by reflexivity.
    rewrite (proj1 (energyDifference_result _)).
    rewrite dispatch_energyDifference by reflexivity.
    rewrite (proj1 (energyDifference_result _)).
    reflexivity.
Defined.

(** ** Rectified metrics against their full variants *)

Lemma sum_terms_le (N : Z) (f g : Z -> R) :
  (forall k, (0 <= k < N)%Z -> f k <= g k) -> sum_terms N f <= sum_terms N g.
Proof.
  intros Hfg. unfold sum_terms.
  apply (for_range_related (fun a b : R => a <= b)); [lra|].
  intros k a b Hk Hab. specialize (Hfg k Hk). lra.
Qed.

Lemma sum_terms_nonneg (N : Z) (f : Z -> R) :
  (forall k, (0 <= k < N)%Z -> 0 <= f k) -> 0 <= sum_terms N f.
Proof.
  intros Hf. unfold sum_terms.
  apply (for_range_preserves (fun a : R => 0 <= a)); [lra|].
  intros k a Hk Ha. specialize (Hf k Hk). lra.
Qed.

(** On one and the same well-formed state the rectified high-frequency
    spectral difference is at most the high-frequency spectral difference:
    both add the same weighted differences where the magnitude rose, and
    the full variant adds the weighted falls as well. *)
Theorem rectified_at_most_full (s : ODF) :
  sized s ->
  fst (highFrequencySpectralDifferenceHWR s) <= fst (highFrequencySpectralDifference s).
Proof.
  intros Hs.
  rewrite highFrequencySpectralDifferenceHWR_sum, highFrequencySpectralDifference_sum
    by assumption.
  apply sum_terms_le. intros k Hk.
  unfold highFrequencySpectralDifferenceHWR_term, highFrequencySpectralDifference_term.
  cbv zeta. pose proof (bin_weight_pos k _ Hk).
  destruct (Rgt_dec _ 0), (Rlt_dec _ 0); nra.
Qed.

Lemma rectified_at_most_full_witness :
  fst (highFrequencySpectralDifferenceHWR twoSamples_afterImpulse)
  <= fst (highFrequencySpectralDifference twoSamples_afterImpulse).
Proof.
  apply (rectified_at_most_full twoSamples_afterImpulse).
  unfold sized. simpl. repeat split; lia.
Defined.

(** ** The first frame after a reset *)

Lemma zero_history_bins (s : ODF) :
  sized s -> prevMagSpec s = replicate (Z.to_nat (frameSize s)) 0 ->
  forall k, rd 0 (prevMagSpec (performFFT s)) k = 0.
Proof.
  intros Hs Hp k. destruct (performFFT_sized s Hs) as (_ & _ & -> & _).
  rewrite Hp. apply rd_replicate_zero.
Qed.

(** With a magnitude history of zeros (the state after [initialise]) the
    rectification has nothing to cut: no magnitude is below its history, so
    each rectified variant returns what its full variant returns. *)
Theorem zero_history_first_frame (s : ODF) :
  sized s -> (1 <= frameSize s)%Z ->
  prevMagSpec s = replicate (Z.to_nat (frameSize s)) 0 ->
  fst (spectralDifferenceHWR s) = fst (spectralDifference s) /\
  fst (complexSpectralDifferenceHWR s) = fst (complexSpectralDifference s) /\
  fst (highFrequencySpectralDifferenceHWR s) = fst (highFrequencySpectralDifference s).
Proof.
  intros Hs H1 Hp.
  pose proof (zero_history_bins s Hs Hp) as Hz.
  assert (forall k, complexSpectralDifference_term (performFFT s) k
                    = binMagnitude (performFFT s) k) as Hcsd.
  { intros k. unfold complexSpectralDifference_term. rewrite Hz.
    match goal with |- sqrt ?x = ?m => replace x with (Rsqr m) by (unfold Rsqr; ring) end.
    apply sqrt_Rsqr. apply magnitude_nonneg. }
  split; [|split].
  - rewrite spectralDifferenceHWR_sum, spectralDifference_sum by assumption.
    apply sum_terms_ext. intros k Hk.
    unfold spectralDifferenceHWR_term, spectralDifference_term. cbv zeta.
    destruct (performFFT_sized s Hs) as (Hu & F & _).
    destruct (fillMagSpec_sized _ Hu ltac:(lia)) as (_ & _ & -> & _).
    destruct (fillMagSpec_spec (performFFT s) ltac:(lia) ltac:(apply Hu)) as (_ & _ & Hm).
    rewrite Hm by lia. rewrite Hz.
    assert (0 <= mirroredMagnitude (frameSize (performFFT s)) (complexOut (performFFT s)) k)
      by (unfold mirroredMagnitude; destruct (_ <? _)%Z; apply magnitude_nonneg).
    destruct (Rgt_dec _ 0), (Rlt_dec _ 0); lra.
  - rewrite complexSpectralDifferenceHWR_sum, complexSpectralDifference_sum by assumption.
    apply sum_terms_ext. intros k Hk. unfold complexSpectralDifferenceHWR_term.
    rewrite Hcsd, Hz. pose proof (magnitude_nonneg (bin (performFFT s) k)).
    unfold binMagnitude in *. destruct (Rgt_dec _ 0); lra.
  - rewrite highFrequencySpectralDifferenceHWR_sum, highFrequencySpectralDifference_sum
      by assumption.
    apply sum_terms_ext. intros k Hk.
    unfold highFrequencySpectralDifferenceHWR_term, highFrequencySpectralDifference_term.
    cbv zeta.
    rewrite Hz. pose proof (magnitude_nonneg (bin (performFFT s) k)).
    unfold binMagnitude in *.
    destruct (Rgt_dec _ 0), (Rlt_dec _ 0); try lra.
    replace (magnitude (bin (performFFT s) k) - 0) with 0 by lra. ring.
Qed.

Lemma zero_history_first_frame_witness :
  fst (spectralDifferenceHWR twoBins) = fst (spectralDifference twoBins) /\
  fst (complexSpectralDifferenceHWR twoBins) = fst (complexSpectralDifference twoBins) /\
  fst (highFrequencySpectralDifferenceHWR twoBins)
  = fst (highFrequencySpectralDifference twoBins).
Proof.
  apply (zero_history_first_frame twoBins).
  - unfold sized. simpl. repeat split; lia.
  - simpl. lia.
  - reflexivity.
Defined.

(** ** What every call keeps *)

Lemma call_keeps (c : list R) (s : ODF) :
  sized s ->
  let s' := snd (calculateOnsetDetectionFunctionSample c s) in
  sized s' /\
  frameSize s' = frameSize s /\ hopSize s' = hopSize s /\
  onsetDetectionFunctionType s' = onsetDetectionFunctionType s /\
  windowType s' = windowType s /\ window s' = window s /\
  initialised s' = initialised s.
Proof.
  intros Hs. cbv zeta. unfold calculateOnsetDetectionFunctionSample.
  pose proof (call_step c s Hs) as K. cbv zeta in K.
  destruct K as ((_ & Hs') & (_ & F) & (_ & T) & (_ & W) & _).
  destruct (shiftFrame_prevEnergySum c s) as (_ & H & Wt & I).
  destruct (dispatch_kept (shiftFrame c s)) as (_ & K2 & _ & K4 & K5 & _).
  split; [assumption|]. split; [assumption|]. split; [congruence|].
  split; [assumption|]. split; [congruence|]. split; [assumption | congruence].
Qed.

Lemma processChunks_keeps (chunks : list (list R)) :
  forall s : ODF,
  sized s ->
  let r := processChunks chunks s in
  length (fst r) = length chunks /\
  sized (snd r) /\
  frameSize (snd r) = frameSize s /\ hopSize (snd r) = hopSize s /\
  onsetDetectionFunctionType (snd r) = onsetDetectionFunctionType s /\
  windowType (snd r) = windowType s /\ window (snd r) = window s /\
  initialised (snd r) = initialised s.
Proof.
  induction chunks as [|c cs IH]; intros s Hs; cbv zeta.
  - simpl. tauto.
  - pose proof (call_keeps c s Hs) as K. cbv zeta in K.
    simpl processChunks.
    destruct (calculateOnsetDetectionFunctionSample c s) as [x s1]. simpl in K.
    destruct K as (Hs1 & F & H & T & Wt & W & I).
    specialize (IH s1 Hs1). cbv zeta in IH.
    destruct (processChunks cs s1) as [xs s2]. simpl in IH |- *.
    destruct IH as (L & Hs2 & F2 & H2 & T2 & Wt2 & W2 & I2).
    split; [congruence|]. split; [assumption|].
    repeat (split; [congruence|]). congruence.
Qed.

(** After [initialise] with [0 < hopSize <= frameSize] and any run of calls
    on chunks of [hopSize] samples, one sample has been returned per chunk,
    every buffer still has [frameSize] elements, and the sizes, the two
    kinds, the window and the ready flag are as [initialise] left them: no
    call reconfigures the engine. *)
Theorem calls_keep_the_configuration
    (uninit : nat -> complex) (h f t w : Z) (s : ODF) (chunks : list (list R)) :
  (0 < h <= f)%Z ->
  Forall (fun c => length c = Z.to_nat h) chunks ->
  exists s0, initialise uninit h f t w s = Returned s0 /\
    let r := processChunks chunks s0 in
    length (fst r) = length chunks /\
    sized (snd r) /\
    frameSize (snd r) = f /\ hopSize (snd r) = h /\
    onsetDetectionFunctionType (snd r) = t /\ windowType (snd r) = w /\
    window (snd r) = window s0 /\ initialised (snd r) = true.
Proof.
  intros Hh _.
  destruct (initialise_returns uninit h f t w s ltac:(lia)) as (s0 & Hi & Ha).
  exists s0. split; [assumption|].
  assert (sized s0) as Hsz
      by (apply (initialised_as_sized uninit h f t w); [lia | exact Ha]).
  destruct Ha as (I & H & F & T & W & _).
  pose proof (processChunks_keeps chunks s0 Hsz) as K. cbv zeta in K |- *.
  destruct K as (L & Hs & F' & H' & T' & W' & Wi & I').
  split; [assumption|]. split; [assumption|].
  repeat (split; [congruence|]). congruence.
Qed.

Lemma calls_keep_the_configuration_witness :
  exists s0,
    initialise (fun _ => czero) 2 4 SpectralDifference HammingWindow fresh = Returned s0 /\
    let r := processChunks [[1; 2]; [3; 4]] s0 in
    length (fst r) = length [[1; 2]; [3; 4]] /\
    sized (snd r) /\
    frameSize (snd r) = 4%Z /\ hopSize (snd r) = 2%Z /\
    onsetDetectionFunctionType (snd r) = SpectralDifference /\
    windowType (snd r) = HammingWindow /\
    window (snd r) = window s0 /\ initialised (snd r) = true.
Proof.
  apply (calls_keep_the_configuration (fun _ => czero) 2 4 SpectralDifference
           HammingWindow fresh [[1; 2]; [3; 4]]).
  - lia.
  - repeat constructor.
Defined.

(** ** The magnitude spectrum left by the spectral difference *)

Lemma spectralDifference_magSpec (u : ODF) (body : Z -> R * ODF -> R * ODF) :
  (forall k sum t, magSpec (snd (body k (sum, t))) = magSpec t) ->
  magSpec (snd (for_range 0 (frameSize u) body (0, u))) = magSpec u.
Proof.
  intros Hb.
  apply (for_range_preserves (fun st : R * ODF => magSpec (snd st) = magSpec u));
    [reflexivity|].
  intros k [sum t] _ Ht. rewrite Hb. exact Ht.
Qed.

Lemma mirroredMagnitude_symmetric (N : Z) (out : list complex) (i : Z) :
  (0 <= N)%Z -> (1 <= i < N)%Z ->
  mirroredMagnitude N out i = mirroredMagnitude N out (N - i).
Proof.
  intros HN Hi. unfold mirroredMagnitude.
  destruct (half_frame N HN) as (H0 & H1 & H2).
  destruct (Z.ltb_spec i (N ÷ 2 + 1)), (Z.ltb_spec (N - i) (N ÷ 2 + 1)).
  - assert (i = N - i)%Z as <- by lia. reflexivity.
  - replace (N - (N - i))%Z with i by lia. reflexivity.
  - reflexivity.
  - exfalso. lia.
Qed.

(** After the spectral difference, plain or rectified, on a well-formed
    state the magnitude spectrum is symmetric, [magSpec[i] =
    magSpec[frameSize - i]] for [1 <= i < frameSize], its first
    [frameSize/2 + 1] bins are the magnitudes of the transform, and the
    stored previous spectrum is this spectrum. *)
Theorem spectralDifference_leaves_symmetric_spectrum (s : ODF) :
  sized s -> (1 <= frameSize s)%Z ->
  forall s', s' = snd (spectralDifference s) \/ s' = snd (spectralDifferenceHWR s) ->
  prevMagSpec s' = magSpec s' /\
  (forall i, (1 <= i < frameSize s)%Z ->
     rd 0 (magSpec s') i = rd 0 (magSpec s') (frameSize s - i)) /\
  (forall i, (0 <= i <= frameSize s ÷ 2)%Z ->
     rd 0 (magSpec s') i = binMagnitude (performFFT s) i).
Proof.
  intros Hs H1 s' Hs'.
  destruct (performFFT_sized s Hs) as (Hu & F & _).
  destruct (fillMagSpec_sized _ Hu ltac:(lia)) as (Hv & F' & _).
  destruct (fillMagSpec_spec (performFFT s) ltac:(lia) ltac:(apply Hu)) as (_ & Lm & Hm).
  rewrite F in Hm, Lm.
  assert (magSpec s' = magSpec (fillMagSpec (performFFT s)) /\
          length (prevMagSpec s') = Z.to_nat (frameSize s) /\
          forall j, (0 <= j < frameSize s)%Z ->
            rd 0 (prevMagSpec s') j = rd 0 (magSpec (fillMagSpec (performFFT s))) j)
    as (Em & Lp & Hp).
  { destruct Hs' as [-> | ->].
    - destruct (kept_sized _ _ Hs (spectralDifference_kept s))
        as (_ & _ & _ & _ & Lp & _).
      destruct (spectralDifference_kept s) as (Fk & _). rewrite Fk in Lp.
      unfold spectralDifference in *. cbv zeta in *.
      split; [apply spectralDifference_magSpec; intros; reflexivity|].
      split; [exact Lp|].
      destruct (spectralDifference_loop (fillMagSpec (performFFT s)) ltac:(apply Hv)
                  ltac:(apply Hv)) as (_ & _ & Hpost).
      intros j Hj. apply Hpost. lia.
    - destruct (kept_sized _ _ Hs (spectralDifferenceHWR_kept s))
        as (_ & _ & _ & _ & Lp & _).
      destruct (spectralDifferenceHWR_kept s) as (Fk & _). rewrite Fk in Lp.
      unfold spectralDifferenceHWR in *. cbv zeta in *.
      split; [apply spectralDifference_magSpec; intros; reflexivity|].
      split; [exact Lp|].
      destruct (spectralDifferenceHWR_loop (fillMagSpec (performFFT s)) ltac:(apply Hv)
                  ltac:(apply Hv)) as (_ & _ & Hpost).
      intros j Hj. apply Hpost. lia. }
  rewrite Em. split; [|split].
  - apply (rd_ext 0); [congruence|]. intros j Hj. apply Hp. lia.
  - intros i Hi. rewrite !Hm by lia.
    apply mirroredMagnitude_symmetric; lia.
  - intros i Hi. destruct (half_frame (frameSize s) ltac:(lia)) as (H0 & H2 & H3).
    rewrite Hm by lia. unfold mirroredMagnitude, binMagnitude, bin.
    destruct (Z.ltb_spec i (frameSize s ÷ 2 + 1)); [reflexivity | exfalso; lia].
Qed.

Lemma spectralDifference_leaves_symmetric_spectrum_witness :
  prevMagSpec (snd (spectralDifference fourSamples_inUse))
  = magSpec (snd (spectralDifference fourSamples_inUse)) /\
  (forall i, (1 <= i < frameSize fourSamples_inUse)%Z ->
     rd 0 (magSpec (snd (spectralDifference fourSamples_inUse))) i
     = rd 0 (magSpec (snd (spectralDifference fourSamples_inUse)))
         (frameSize fourSamples_inUse - i)) /\
  (forall i, (0 <= i <= frameSize fourSamples_inUse ÷ 2)%Z ->
     rd 0 (magSpec (snd (spectralDifference fourSamples_inUse))) i
     = binMagnitude (performFFT fourSamples_inUse) i).
Proof.
  apply (spectralDifference_leaves_symmetric_spectrum fourSamples_inUse).
  - unfold sized. simpl. repeat split; lia.
  - simpl. lia.
  - left. reflexivity.
Defined.

(** ** The spectral metrics as sums over the bins *)

(** On a well-formed state each spectral metric returns the sum, over the
    bins [0 .. frameSize-1] in this order, of its term of the table: the
    term of bin [k] is computed from bin [k] of the transform of the current
    frame and from element [k] of the history as it was before the call
    (the updates of the history inside the loop never reach a later bin).
    The history seen by the terms is that of the state at entry. *)
Theorem spectral_metrics_are_bin_sums (s : ODF) :
  sized s ->
  let u := performFFT s in
  let N := frameSize s in
  (prevMagSpec u = prevMagSpec s /\ prevPhase u = prevPhase s /\
   prevPhase2 u = prevPhase2 s) /\
  fst (phaseDeviation s) = sum_terms N (phaseDeviation_term u) /\
  fst (complexSpectralDifference s) = sum_terms N (complexSpectralDifference_term u) /\
  fst (complexSpectralDifferenceHWR s)
  = sum_terms N (complexSpectralDifferenceHWR_term u) /\
  fst (highFrequencyContent s) = sum_terms N (highFrequencyContent_term u) /\
  fst (highFrequencySpectralDifference s)
  = sum_terms N (highFrequencySpectralDifference_term u) /\
  fst (highFrequencySpectralDifferenceHWR s)
  = sum_terms N (highFrequencySpectralDifferenceHWR_term u) /\
  ((1 <= N)%Z ->
   fst (spectralDifference s)
   = sum_terms N (fun k =>
       Rabs (mirroredMagnitude N (complexOut u) k - rd 0 (prevMagSpec s) k)) /\
   fst (spectralDifferenceHWR s)
   = sum_terms N (fun k =>
       Rmax 0 (mirroredMagnitude N (complexOut u) k - rd 0 (prevMagSpec s) k))).
Proof.
  intros Hs. cbv zeta.
  destruct (performFFT_sized s Hs) as (Hu & F & P & P1 & P2).
  split; [tauto|].
  split; [apply phaseDeviation_sum; assumption|].
  split; [apply complexSpectralDifference_sum; assumption|].
  split; [apply complexSpectralDifferenceHWR_sum; assumption|].
  split; [apply highFrequencyContent_sum; assumption|].
  split; [apply highFrequencySpectralDifference_sum; assumption|].
  split; [apply highFrequencySpectralDifferenceHWR_sum; assumption|].
  intros H1.
  destruct (fillMagSpec_sized _ Hu ltac:(lia)) as (_ & _ & Pf & _).
  destruct (fillMagSpec_spec (performFFT s) ltac:(lia) ltac:(apply Hu)) as (_ & _ & Hm).
  rewrite spectralDifference_sum, spectralDifferenceHWR_sum by assumption.
  split; apply sum_terms_ext; intros k Hk;
    unfold spectralDifference_term, spectralDifferenceHWR_term; cbv zeta;
    rewrite Hm by lia; rewrite Pf, P, F.
  - unfold Rabs. destruct (Rlt_dec _ 0), (Rcase_abs _); lra.
  - unfold Rmax. destruct (Rgt_dec _ 0), (Rle_dec 0 _); lra.
Qed.

Lemma spectral_metrics_are_bin_sums_witness :
  fst (highFrequencyContent twoSamples_afterImpulse)
  = sum_terms (frameSize twoSamples_afterImpulse)
      (highFrequencyContent_term (performFFT twoSamples_afterImpulse)).
Proof.
  refine (proj1 (proj2 (proj2 (proj2 (proj2
            (spectral_metrics_are_bin_sums twoSamples_afterImpulse _)))))).
  unfold sized. simpl. repeat split; lia.
Defined.

(** ** The other metrics with a history, on a repeated frame *)

Lemma highFrequency_loop_after (u : ODF) (body : Z -> R * ODF -> R * ODF) :
  (forall k sum t, snd (body k (sum, t)) = highFrequency_update k t) ->
  (0 <= frameSize u)%Z ->
  length (magSpec u) = Z.to_nat (frameSize u) ->
  length (prevMagSpec u) = Z.to_nat (frameSize u) ->
  let r := for_range 0 (frameSize u) body (0, u) in
  complexIn (snd r) = complexIn u /\
  forall j, (0 <= j < frameSize u)%Z ->
    rd 0 (prevMagSpec (snd r)) j = binMagnitude u j.
Proof.
  intros Hb HN L1 L2 r.
  set (P := fun (k : Z) (st : R * ODF) =>
      let t := snd st in
      (complexOut t = complexOut u /\ complexIn t = complexIn u /\
       length (magSpec t) = Z.to_nat (frameSize u) /\
       length (prevMagSpec t) = Z.to_nat (frameSize u)) /\
      (forall j, (0 <= j < k)%Z -> rd 0 (prevMagSpec t) j = binMagnitude u j)).
  assert (P (frameSize u) r) as ((_ & Hc & _) & Hp).
  { apply for_range_invariant; [assumption| |].
    - unfold P. simpl. repeat split; try assumption; intros; lia.
    - intros k [sum t] Hk ((O & I & M1 & M2) & Hlow). simpl in O, I, M1, M2, Hlow.
      unfold P. cbv zeta. rewrite Hb. unfold highFrequency_update. simpl.
      split; [rewrite !length_wr; tauto|].
      intros j Hj. destruct (Z.eq_dec j k) as [->|Hne].
      + rewrite !rd_wr_same by lia. rewrite O. reflexivity.
      + rewrite rd_wr_other by congruence. apply Hlow. lia. }
  split; [exact Hc | exact Hp].
Qed.

Lemma dispatch_highFrequencyContent (u : ODF) :
  onsetDetectionFunctionType u = HighFrequencyContent -> dispatch u = highFrequencyContent u.
Proof. intros H. unfold dispatch. cbv zeta. rewrite H. reflexivity. Qed.

Lemma dispatch_highFrequencySpectralDifference (u : ODF) :
  onsetDetectionFunctionType u = HighFrequencySpectralDifference ->
  dispatch u = highFrequencySpectralDifference u.
Proof. intros H. unfold dispatch. cbv zeta. rewrite H. reflexivity. Qed.

Lemma dispatch_highFrequencySpectralDifferenceHWR (u : ODF) :
  onsetDetectionFunctionType u = HighFrequencySpectralDifferenceHWR ->
  dispatch u = highFrequencySpectralDifferenceHWR u.
Proof. intros H. unfold dispatch. cbv zeta. rewrite H. reflexivity. Qed.

Lemma dispatch_phaseDeviation (u : ODF) :
  onsetDetectionFunctionType u = PhaseDeviation -> dispatch u = phaseDeviation u.
Proof. intros H. unfold dispatch. cbv zeta. rewrite H. reflexivity. Qed.

(** After a call of one of the three high-frequency metrics, [prevMagSpec]
    holds the magnitudes of the transform of the frame. *)
Lemma highFrequency_family_after (u : ODF) :
  sized u ->
  onsetDetectionFunctionType u = HighFrequencyContent \/
  onsetDetectionFunctionType u = HighFrequencySpectralDifference \/
  onsetDetectionFunctionType u = HighFrequencySpectralDifferenceHWR ->
  complexIn (snd (dispatch u)) = complexIn (performFFT u) /\
  forall j, (0 <= j < frameSize u)%Z ->
    rd 0 (prevMagSpec (snd (dispatch u))) j = binMagnitude (performFFT u) j.
Proof.
  intros Hs Ht.
  destruct (performFFT_sized u Hs) as (Hu & F & _).
  assert (forall body,
            (forall k sum t, snd (body k (sum, t)) = highFrequency_update k t) ->
            complexIn (snd (for_range 0 (frameSize (performFFT u)) body (0, performFFT u)))
            = complexIn (performFFT u) /\
            forall j, (0 <= j < frameSize u)%Z ->
              rd 0 (prevMagSpec
                      (snd (for_range 0 (frameSize (performFFT u)) body (0, performFFT u)))) j
              = binMagnitude (performFFT u) j) as H.
  { intros body Hb.
    destruct (highFrequency_loop_after (performFFT u) body Hb) as [Hc Hp];
      try apply Hu.
    split; [exact Hc|]. intros j Hj. apply Hp. lia. }
  destruct Ht as [Ht|[Ht|Ht]].
  - rewrite dispatch_highFrequencyContent by assumption.
    apply (H highFrequencyContent_body). intros; reflexivity.
  - rewrite dispatch_highFrequencySpectralDifference by assumption.
    apply (H highFrequencySpectralDifference_body). intros; reflexivity.
  - rewrite dispatch_highFrequencySpectralDifferenceHWR by assumption.
    apply (H highFrequencySpectralDifferenceHWR_body). intros; reflexivity.
Qed.

Lemma highFrequencySpectralDifference_settled (u : ODF) :
  sized u ->
  (forall j, (0 <= j < frameSize u)%Z ->
     rd 0 (prevMagSpec u) j = binMagnitude (performFFT u) j) ->
  fst (highFrequencySpectralDifference u) = 0 /\
  fst (highFrequencySpectralDifferenceHWR u) = 0.
Proof.
  intros Hs Hp.
  destruct (performFFT_sized u Hs) as (Hu & F & P & _).
  rewrite highFrequencySpectralDifference_sum, highFrequencySpectralDifferenceHWR_sum
    by assumption.
  split; apply sum_terms_zero; intros k Hk;
    unfold highFrequencySpectralDifference_term, highFrequencySpectralDifferenceHWR_term;
    cbv zeta; rewrite P, Hp by lia.
  - destruct (Rlt_dec _ 0); [lra | ring].
  - destruct (Rgt_dec _ 0); [lra | reflexivity].
Qed.

Lemma phaseDeviation_after (u : ODF) :
  sized u ->
  complexIn (snd (phaseDeviation u)) = complexIn (performFFT u) /\
  forall j, (0 <= j < frameSize u)%Z ->
    rd 0 (prevPhase (snd (phaseDeviation u))) j = binPhase (performFFT u) j /\
    rd 0 (prevPhase2 (snd (phaseDeviation u))) j = rd 0 (prevPhase u) j.
Proof.
  intros Hs.
  destruct (performFFT_sized u Hs) as (Hu & F & _ & P1 & _).
  split.
  - unfold phaseDeviation. cbv zeta.
    apply (for_range_preserves
             (fun st : R * ODF => complexIn (snd st) = complexIn (performFFT u)));
      [reflexivity|].
    intros k [sum t] _ Ht. exact Ht.
  - intros j Hj. unfold phaseDeviation. cbv zeta.
    destruct (phaseDeviation_loop_history (performFFT u) 0) with (i := j)
      as (H2 & H1 & H0); try apply Hu; try lia.
    rewrite H2, H1, H0, P1. split; reflexivity.
Qed.

Lemma phaseDeviation_settled (u : ODF) :
  sized u ->
  (forall j, (0 <= j < frameSize u)%Z ->
     rd 0 (prevPhase u) j = binPhase (performFFT u) j /\
     rd 0 (prevPhase2 u) j = binPhase (performFFT u) j) ->
  fst (phaseDeviation u) = 0.
Proof.
  intros Hs Hp.
  destruct (performFFT_sized u Hs) as (Hu & F & _ & P1 & P2).
  rewrite phaseDeviation_sum by assumption.
  apply sum_terms_zero. intros k Hk. unfold phaseDeviation_term, binPhaseDeviation.
  cbv zeta. rewrite P1, P2. destruct (Hp k Hk) as [-> ->].
  replace (binPhase (performFFT u) k - 2 * binPhase (performFFT u) k
           + binPhase (performFFT u) k) with 0 by ring.
  rewrite princarg_fixed by (unfold pi; lra).
  destruct (Rgt_dec _ 0.1); [|reflexivity]. destruct (Rlt_dec 0 0); lra.
Qed.

(** When two consecutive calls leave the same frame, the second call returns
    0 for the high-frequency spectral difference, plain and rectified; the
    phase deviation returns 0 on a third call that again leaves the same
    frame, once both stored phase spectra are the phase of that frame. *)
Theorem repeated_frame_other_metrics (c1 c2 : list R) (s : ODF) :
  sized s ->
  let s1 := snd (calculateOnsetDetectionFunctionSample c1 s) in
  let r2 := calculateOnsetDetectionFunctionSample c2 s1 in
  frame (snd r2) = frame s1 ->
  (onsetDetectionFunctionType s = HighFrequencySpectralDifference \/
   onsetDetectionFunctionType s = HighFrequencySpectralDifferenceHWR ->
   fst r2 = 0) /\
  (onsetDetectionFunctionType s = PhaseDeviation ->
   forall c3 : list R,
     let r3 := calculateOnsetDetectionFunctionSample c3 (snd r2) in
     frame (snd r3) = frame (snd r2) -> fst r3 = 0).
Proof.
  intros Hs. cbv zeta. unfold calculateOnsetDetectionFunctionSample.
  pose proof (call_step c1 s Hs) as K1. cbv zeta in K1.
  destruct K1 as ((Hu1 & Hs1) & (F1 & F1') & (T1 & T1') & (W1 & W1') & Fr1 & C1 & M1 & P1 & Q1).
  pose proof (call_step c2 _ Hs1) as K2. cbv zeta in K2.
  destruct K2 as ((Hu2 & Hs2) & (F2 & F2') & (T2 & T2') & (W2 & W2') & Fr2 & C2 & M2 & P2 & Q2).
  intros Hfr.
  set (u1 := shiftFrame c1 s) in *.
  set (u2 := shiftFrame c2 (snd (dispatch u1))) in *.
  split.
  - intros Ht.
    destruct (highFrequency_family_after u1 Hu1) as [Hc Hp];
      [right; rewrite T1; exact Ht|].
    destruct (performFFT_again u1 u2 Hu1 Hu2) as [_ Ho]; try congruence.
    assert (forall j, (0 <= j < frameSize u2)%Z ->
              rd 0 (prevMagSpec u2) j = binMagnitude (performFFT u2) j) as Hset.
    { intros j Hj. rewrite M2, Hp by lia. unfold binMagnitude, bin. rewrite Ho.
      reflexivity. }
    destruct (highFrequencySpectralDifference_settled u2 Hu2 Hset) as [Z1 Z2].
    destruct Ht as [Ht|Ht].
    + rewrite dispatch_highFrequencySpectralDifference by congruence. exact Z1.
    + rewrite dispatch_highFrequencySpectralDifferenceHWR by congruence. exact Z2.
  - intros Ht c3 Hfr3.
    pose proof (call_step c3 _ Hs2) as K3. cbv zeta in K3.
    destruct K3 as ((Hu3 & Hs3) & (F3 & F3') & (T3 & T3') & (W3 & W3') & Fr3 & C3 & M3 & P3 & Q3).
    set (u3 := shiftFrame c3 (snd (dispatch u2))) in *.
    assert (onsetDetectionFunctionType u1 = PhaseDeviation) as Tu1 by congruence.
    assert (onsetDetectionFunctionType u2 = PhaseDeviation) as Tu2 by congruence.
    assert (onsetDetectionFunctionType u3 = PhaseDeviation) as Tu3 by congruence.
    rewrite (dispatch_phaseDeviation u1 Tu1) in *.
    rewrite (dispatch_phaseDeviation u2 Tu2) in *.
    rewrite (dispatch_phaseDeviation u3 Tu3) in *.
    destruct (phaseDeviation_after u1 Hu1) as [Hc1 Hp1].
    destruct (phaseDeviation_after u2 Hu2) as [Hc2 Hp2].
    destruct (performFFT_again u1 u2 Hu1 Hu2) as [_ Ho2]; try congruence.
    destruct (performFFT_again u2 u3 Hu2 Hu3) as [_ Ho3]; try congruence.
    apply phaseDeviation_settled; [assumption|].
    intros j Hj. rewrite P3, Q3.
    destruct (Hp2 j ltac:(lia)) as (-> & ->).
    rewrite P2. destruct (Hp1 j ltac:(lia)) as (-> & _).
    unfold binPhase, bin. rewrite Ho3, Ho2. split; reflexivity.
Qed.

Lemma repeated_frame_other_metrics_witness :
  fst (calculateOnsetDetectionFunctionSample [1; 0]
         (snd (calculateOnsetDetectionFunctionSample [1; 0]
                 (setOnsetDetectionFunctionType HighFrequencySpectralDifference
                    twoSamples)))) = 0.
Proof.
  assert (forall t, sized (setOnsetDetectionFunctionType t twoSamples)) as Hsized.
  { intros t. unfold sized. simpl. repeat split; lia. }
  refine (proj1 (repeated_frame_other_metrics [1; 0] [1; 0]
                   (setOnsetDetectionFunctionType HighFrequencySpectralDifference
                      twoSamples) (Hsized _) _) _).
  - run. reflexivity.
  - left. reflexivity.
Defined.

(** ** The scratch buffers *)

(** Rewrites the members of the first state into those of the second, from
    [scratch_eq] and the equalities at hand, and closes the field-by-field
    goals. *)
Ltac by_fields :=
  unfold scratch_eq in *; simpl in *;
  repeat match goal with H : _ /\ _ |- _ => destruct H end;
  rewrite ?length_wr;
  repeat match goal with E : ?f ?t1 = ?f ?t2 |- _ => rewrite E in *; clear E end;
  repeat split; first [reflexivity | assumption | congruence].

Lemma shiftFrame_scratch (c : list R) (a b : ODF) :
  scratch_eq a b -> scratch_eq (shiftFrame c a) (shiftFrame c b).
Proof.
  intros H. unfold shiftFrame. cbv zeta.
  assert (frameSize a = frameSize b /\ hopSize a = hopSize b) as [F Hh]
      by (unfold scratch_eq in H; tauto).
  rewrite F, Hh.
  match goal with
  | |- context [for_range ?lo ?hi ?body a] =>
      assert (scratch_eq (for_range lo hi body a) (for_range lo hi body b)) as Hl;
      [| revert Hl; generalize (for_range lo hi body a) (for_range lo hi body b) ]
  end.
  - apply (for_range_related scratch_eq); [assumption|].
    intros k t1 t2 _ Ht. by_fields.
  - intros t1 t2 Ht.
    assert (frameSize t1 = frameSize t2 /\ hopSize t1 = hopSize t2) as [F' Hh']
        by (unfold scratch_eq in Ht; tauto).
    rewrite F', Hh'.
    apply (for_range_related (fun st1 st2 : Z * ODF =>
             fst st1 = fst st2 /\ scratch_eq (snd st1) (snd st2))).
    + split; [reflexivity | assumption].
    + intros k [j1 u1] [j2 u2] _ [Hj Hu]. simpl in Hj. subst j2.
      split; [reflexivity|]. by_fields.
Qed.

Lemma performFFT_scratch (a b : ODF) :
  scratch_eq a b ->
  scratch_eq (performFFT a) (performFFT b) /\
  complexOut (performFFT a) = complexOut (performFFT b).
Proof.
  intros H. unfold performFFT. cbv zeta.
  assert (frameSize a = frameSize b) as F by (unfold scratch_eq in H; tauto).
  rewrite F.
  match goal with
  | |- context [fftw_execute (for_range ?lo ?hi ?body a)] =>
      assert (scratch_eq (for_range lo hi body a) (for_range lo hi body b)) as Hl;
      [| revert Hl; generalize (for_range lo hi body a) (for_range lo hi body b) ]
  end.
  - apply (for_range_related scratch_eq); [assumption|].
    intros k t1 t2 _ Ht. by_fields.
  - intros t1 t2 Ht. unfold fftw_execute. by_fields.
Qed.

(** One iteration of a summing loop keeps two runs in step. *)
Ltac keeps_in_step body :=
  let n := fresh "n" in let k := fresh "k" in
  let sum1 := fresh "sum" in let sum2 := fresh "sum" in
  let t1 := fresh "t" in let t2 := fresh "t" in
  let Hk := fresh "Hk" in let Es := fresh "Es" in let Hsc := fresh "Hsc" in
  let Eo := fresh "Eo" in let L1 := fresh "L" in let L2 := fresh "L" in
  let L3 := fresh "L" in let L4 := fresh "L" in
  intros n k [sum1 t1] [sum2 t2] Hk (Es & Hsc & Eo & L1 & L2 & L3 & L4);
  simpl in Es, Hsc, Eo, L1, L2, L3, L4; subst sum2;
  unfold in_step, body, csd_distance; cbv zeta; simpl;
  rewrite !rd_wr_same by lia;
  by_fields.

Lemma phaseDeviation_body_in_step :
  forall (n : nat) (k : Z) (st1 st2 : R * ODF),
    (0 <= k < Z.of_nat n)%Z -> in_step n st1 st2 ->
    in_step n (phaseDeviation_body k st1) (phaseDeviation_body k st2).
Proof. keeps_in_step phaseDeviation_body. Qed.

Lemma complexSpectralDifference_body_in_step :
  forall (n : nat) (k : Z) (st1 st2 : R * ODF),
    (0 <= k < Z.of_nat n)%Z -> in_step n st1 st2 ->
    in_step n (complexSpectralDifference_body k st1)
              (complexSpectralDifference_body k st2).
Proof. keeps_in_step complexSpectralDifference_body. Qed.

Lemma complexSpectralDifferenceHWR_body_in_step :
  forall (n : nat) (k : Z) (st1 st2 : R * ODF),
    (0 <= k < Z.of_nat n)%Z -> in_step n st1 st2 ->
    in_step n (complexSpectralDifferenceHWR_body k st1)
              (complexSpectralDifferenceHWR_body k st2).
Proof. keeps_in_step complexSpectralDifferenceHWR_body. Qed.

Lemma highFrequencyContent_body_in_step :
  forall (n : nat) (k : Z) (st1 st2 : R * ODF),
    (0 <= k < Z.of_nat n)%Z -> in_step n st1 st2 ->
    in_step n (highFrequencyContent_body k st1) (highFrequencyContent_body k st2).
Proof. keeps_in_step highFrequencyContent_body. Qed.

Lemma highFrequencySpectralDifference_body_in_step :
  forall (n : nat) (k : Z) (st1 st2 : R * ODF),
    (0 <= k < Z.of_nat n)%Z -> in_step n st1 st2 ->
    in_step n (highFrequencySpectralDifference_body k st1)
              (highFrequencySpectralDifference_body k st2).
Proof. keeps_in_step highFrequencySpectralDifference_body. Qed.

Lemma highFrequencySpectralDifferenceHWR_body_in_step :
  forall (n : nat) (k : Z) (st1 st2 : R * ODF),
    (0 <= k < Z.of_nat n)%Z -> in_step n st1 st2 ->
    in_step n (highFrequencySpectralDifferenceHWR_body k st1)
              (highFrequencySpectralDifferenceHWR_body k st2).
Proof. keeps_in_step highFrequencySpectralDifferenceHWR_body. Qed.

Lemma spectral_loop_scratch (body : Z -> R * ODF -> R * ODF) (a b : ODF) :
  (forall (n : nat) (k : Z) (st1 st2 : R * ODF),
     (0 <= k < Z.of_nat n)%Z -> in_step n st1 st2 ->
     in_step n (body k st1) (body k st2)) ->
  sized a -> sized b -> scratch_eq a b ->
  fst (for_range 0 (frameSize (performFFT a)) body (0, performFFT a)) =
  fst (for_range 0 (frameSize (performFFT b)) body (0, performFFT b)) /\
  scratch_eq (snd (for_range 0 (frameSize (performFFT a)) body (0, performFFT a)))
             (snd (for_range 0 (frameSize (performFFT b)) body (0, performFFT b))).
Proof.
  intros Hstep Ha Hb Hab.
  destruct (performFFT_scratch a b Hab) as [Hsc Ho].
  destruct (performFFT_sized a Ha) as ((HN & _ & _ & La & _ & Lpa & _) & Fa & _).
  destruct (performFFT_sized b Hb) as ((_ & _ & _ & Lb & _ & Lpb & _) & Fb & _).
  assert (frameSize a = frameSize b) as F by (unfold scratch_eq in Hab; tauto).
  rewrite Fa, Fb, F in *.
  assert (in_step (Z.to_nat (frameSize b))
            (for_range 0 (frameSize b) body (0, performFFT a))
            (for_range 0 (frameSize b) body (0, performFFT b))) as (E & S & _).
  { apply (for_range_related (in_step (Z.to_nat (frameSize b)))).
    - unfold in_step. simpl. tauto.
    - intros k st1 st2 Hk. apply Hstep. lia. }
  split; assumption.
Qed.

Lemma fillMagSpec_only (s : ODF) :
  set_magSpec [] (fillMagSpec s) = set_magSpec [] s /\
  length (magSpec (fillMagSpec s)) = length (magSpec s).
Proof.
  unfold fillMagSpec. cbv zeta.
  set (Q := fun t : ODF =>
              set_magSpec [] t = set_magSpec [] s /\
              length (magSpec t) = length (magSpec s)).
  apply (for_range_preserves Q).
  - apply (for_range_preserves Q); [split; reflexivity|].
    intros k t _ [Ht Hl]. split; [exact Ht|]. simpl. rewrite length_wr. exact Hl.
  - intros k t _ [Ht Hl]. split; [exact Ht|]. simpl. rewrite length_wr. exact Hl.
Qed.

Lemma fillMagSpec_scratch (a b : ODF) :
  sized a -> sized b -> scratch_eq a b -> complexOut a = complexOut b ->
  scratch_eq (fillMagSpec a) (fillMagSpec b) /\
  magSpec (fillMagSpec a) = magSpec (fillMagSpec b).
Proof.
  intros Ha Hb Hab Ho.
  destruct (fillMagSpec_only a) as [Sa La]. destruct (fillMagSpec_only b) as [Sb Lb].
  pose proof Ha as (HN & _ & _ & Lma & _). pose proof Hb as (_ & _ & _ & Lmb & _).
  assert (frameSize a = frameSize b) as F by (unfold scratch_eq in Hab; tauto).
  split.
  - revert Sa Sb. generalize (fillMagSpec a) (fillMagSpec b). intros ta tb Sa Sb.
    pose proof (f_equal frameSize Sa). pose proof (f_equal frameSize Sb).
    pose proof (f_equal hopSize Sa). pose proof (f_equal hopSize Sb).
    pose proof (f_equal onsetDetectionFunctionType Sa).
    pose proof (f_equal onsetDetectionFunctionType Sb).
    pose proof (f_equal windowType Sa). pose proof (f_equal windowType Sb).
    pose proof (f_equal initialised Sa). pose proof (f_equal initialised Sb).
    pose proof (f_equal complexIn Sa). pose proof (f_equal complexIn Sb).
    pose proof (f_equal frame Sa). pose proof (f_equal frame Sb).
    pose proof (f_equal window Sa). pose proof (f_equal window Sb).
    pose proof (f_equal prevEnergySum Sa). pose proof (f_equal prevEnergySum Sb).
    pose proof (f_equal prevMagSpec Sa). pose proof (f_equal prevMagSpec Sb).
    pose proof (f_equal prevPhase Sa). pose proof (f_equal prevPhase Sb).
    pose proof (f_equal prevPhase2 Sa). pose proof (f_equal prevPhase2 Sb).
    clear Sa Sb. unfold scratch_eq in *. simpl in *.
    repeat match goal with H : _ /\ _ |- _ => destruct H end.
    repeat split; congruence.
  - destruct (Z_lt_le_dec (frameSize a) 1) as [H0|H1].
    + assert (length (magSpec (fillMagSpec a)) = 0%nat) as Za by lia.
      assert (length (magSpec (fillMagSpec b)) = 0%nat) as Zb by lia.
      apply nil_length_inv in Za, Zb. congruence.
    + destruct (fillMagSpec_spec a H1 Lma) as (_ & La' & Hma).
      destruct (fillMagSpec_spec b ltac:(lia) Lmb) as (_ & Lb' & Hmb).
      apply (rd_ext 0); [lia|].
      intros j Hj. rewrite Hma, Hmb by lia. rewrite F, Ho. reflexivity.
Qed.

Lemma spectralDifference_loops_scratch (body : Z -> R * ODF -> R * ODF) (a b : ODF) :
  (forall k sum t1 t2,
     scratch_eq t1 t2 -> magSpec t1 = magSpec t2 ->
     fst (body k (sum, t1)) = fst (body k (sum, t2)) /\
     scratch_eq (snd (body k (sum, t1))) (snd (body k (sum, t2))) /\
     magSpec (snd (body k (sum, t1))) = magSpec (snd (body k (sum, t2)))) ->
  sized a -> sized b -> scratch_eq a b ->
  fst (for_range 0 (frameSize (fillMagSpec (performFFT a))) body
         (0, fillMagSpec (performFFT a))) =
  fst (for_range 0 (frameSize (fillMagSpec (performFFT b))) body
         (0, fillMagSpec (performFFT b))) /\
  scratch_eq
    (snd (for_range 0 (frameSize (fillMagSpec (performFFT a))) body
            (0, fillMagSpec (performFFT a))))
    (snd (for_range 0 (frameSize (fillMagSpec (performFFT b))) body
            (0, fillMagSpec (performFFT b)))).
Proof.
  intros Hstep Ha Hb Hab.
  destruct (performFFT_scratch a b Hab) as [Hsc Ho].
  destruct (performFFT_sized a Ha) as (Hpa & _).
  destruct (performFFT_sized b Hb) as (Hpb & _).
  destruct (fillMagSpec_scratch _ _ Hpa Hpb Hsc Ho) as [Hf Hm].
  revert Hf Hm. generalize (fillMagSpec (performFFT a)) (fillMagSpec (performFFT b)).
  intros ua ub Hf Hm.
  assert (frameSize ua = frameSize ub) as -> by (unfold scratch_eq in Hf; tauto).
  pose (Q := fun st1 st2 : R * ODF =>
               fst st1 = fst st2 /\ scratch_eq (snd st1) (snd st2) /\
               magSpec (snd st1) = magSpec (snd st2)).
  assert (Q (for_range 0 (frameSize ub) body (0, ua))
            (for_range 0 (frameSize ub) body (0, ub))) as (E & S & _).
  { apply (for_range_related Q).
    - unfold Q. simpl. tauto.
    - intros k [sum1 t1] [sum2 t2] _ (Es & S & M). simpl in Es, S, M. subst sum2.
      apply Hstep; assumption. }
  split; assumption.
Qed.

Lemma spectralDifference_scratch (a b : ODF) :
  sized a -> sized b -> scratch_eq a b ->
  (fst (spectralDifference a) = fst (spectralDifference b) /\
   scratch_eq (snd (spectralDifference a)) (snd (spectralDifference b))) /\
  (fst (spectralDifferenceHWR a) = fst (spectralDifferenceHWR b) /\
   scratch_eq (snd (spectralDifferenceHWR a)) (snd (spectralDifferenceHWR b))).
Proof.
  intros Ha Hb Hab. unfold spectralDifference, spectralDifferenceHWR. cbv zeta. split.
  - refine (spectralDifference_loops_scratch spectralDifference_body a b _ Ha Hb Hab).
    intros k sum t1 t2 S M. unfold spectralDifference_body. cbv zeta. simpl.
    rewrite M. by_fields.
  - refine (spectralDifference_loops_scratch spectralDifferenceHWR_body a b _ Ha Hb Hab).
    intros k sum t1 t2 S M. unfold spectralDifferenceHWR_body. cbv zeta. simpl.
    rewrite M. by_fields.
Qed.

Lemma spectral_metrics_scratch (a b : ODF) :
  sized a -> sized b -> scratch_eq a b ->
  (fst (phaseDeviation a) = fst (phaseDeviation b) /\
   scratch_eq (snd (phaseDeviation a)) (snd (phaseDeviation b))) /\
  (fst (complexSpectralDifference a) = fst (complexSpectralDifference b) /\
   scratch_eq (snd (complexSpectralDifference a)) (snd (complexSpectralDifference b))) /\
  (fst (complexSpectralDifferenceHWR a) = fst (complexSpectralDifferenceHWR b) /\
   scratch_eq (snd (complexSpectralDifferenceHWR a))
              (snd (complexSpectralDifferenceHWR b))) /\
  (fst (highFrequencyContent a) = fst (highFrequencyContent b) /\
   scratch_eq (snd (highFrequencyContent a)) (snd (highFrequencyContent b))) /\
  (fst (highFrequencySpectralDifference a) = fst (highFrequencySpectralDifference b) /\
   scratch_eq (snd (highFrequencySpectralDifference a))
              (snd (highFrequencySpectralDifference b))) /\
  (fst (highFrequencySpectralDifferenceHWR a) =
   fst (highFrequencySpectralDifferenceHWR b) /\
   scratch_eq (snd (highFrequencySpectralDifferenceHWR a))
              (snd (highFrequencySpectralDifferenceHWR b))).
Proof.
  intros Ha Hb Hab.
  unfold phaseDeviation, complexSpectralDifference, complexSpectralDifferenceHWR,
    highFrequencyContent, highFrequencySpectralDifference,
    highFrequencySpectralDifferenceHWR. cbv zeta.
  split; [|split; [|split; [|split; [|split]]]].
  - exact (spectral_loop_scratch _ a b phaseDeviation_body_in_step Ha Hb Hab).
  - exact (spectral_loop_scratch _ a b complexSpectralDifference_body_in_step Ha Hb Hab).
  - exact (spectral_loop_scratch _ a b complexSpectralDifferenceHWR_body_in_step
             Ha Hb Hab).
  - exact (spectral_loop_scratch _ a b highFrequencyContent_body_in_step Ha Hb Hab).
  - exact (spectral_loop_scratch _ a b highFrequencySpectralDifference_body_in_step
             Ha Hb Hab).
  - exact (spectral_loop_scratch _ a b highFrequencySpectralDifferenceHWR_body_in_step
             Ha Hb Hab).
Qed.

Lemma energy_metrics_scratch (a b : ODF) :
  scratch_eq a b ->
  (fst (energyEnvelope a) = fst (energyEnvelope b) /\
   scratch_eq (snd (energyEnvelope a)) (snd (energyEnvelope b))) /\
  (fst (energyDifference a) = fst (energyDifference b) /\
   scratch_eq (snd (energyDifference a)) (snd (energyDifference b))).
Proof.
  intros Hab.
  assert (frameSize a = frameSize b) as F by (unfold scratch_eq in Hab; tauto).
  assert (frame a = frame b) as Fr by (unfold scratch_eq in Hab; tauto).
  assert (prevEnergySum a = prevEnergySum b) as P by (unfold scratch_eq in Hab; tauto).
  unfold energyEnvelope, energyDifference. cbv zeta. rewrite F, Fr, P.
  generalize (for_range 0 (frameSize b)
                (fun (i : Z) (sum : R) => sum + rd 0 (frame b) i * rd 0 (frame b) i) 0).
  intros e. split.
  - split; [reflexivity | exact Hab].
  - destruct (Rgt_dec (e - prevEnergySum b) 0); (split; [reflexivity|]); by_fields.
Qed.

Lemma dispatch_scratch (a b : ODF) :
  sized a -> sized b -> scratch_eq a b ->
  fst (dispatch a) = fst (dispatch b) /\
  scratch_eq (snd (dispatch a)) (snd (dispatch b)).
Proof.
  intros Ha Hb Hab.
  assert (onsetDetectionFunctionType a = onsetDetectionFunctionType b) as T
    by (unfold scratch_eq in Hab; tauto).
  destruct (energy_metrics_scratch a b Hab) as (E1 & E2).
  destruct (spectralDifference_scratch a b Ha Hb Hab) as (S1 & S2).
  destruct (spectral_metrics_scratch a b Ha Hb Hab) as (M1 & M2 & M3 & M4 & M5 & M6).
  unfold dispatch. cbv zeta. rewrite T.
  repeat match goal with
         | |- context [if ?c then _ else _] => destruct c; [assumption|]
         end.
  split; [reflexivity | exact Hab].
Qed.

Lemma call_scratch (buffer : list R) (a b : ODF) :
  sized a -> sized b -> scratch_eq a b ->
  fst (calculateOnsetDetectionFunctionSample buffer a) =
  fst (calculateOnsetDetectionFunctionSample buffer b) /\
  scratch_eq (snd (calculateOnsetDetectionFunctionSample buffer a))
             (snd (calculateOnsetDetectionFunctionSample buffer b)).
Proof.
  intros Ha Hb Hab. unfold calculateOnsetDetectionFunctionSample.
  apply dispatch_scratch.
  - apply shiftFrame_sized; assumption.
  - apply shiftFrame_sized; assumption.
  - apply shiftFrame_scratch; assumption.
Qed.

Lemma processChunks_scratch (chunks : list (list R)) :
  forall a b : ODF,
  sized a -> sized b -> scratch_eq a b ->
  fst (processChunks chunks a) = fst (processChunks chunks b) /\
  scratch_eq (snd (processChunks chunks a)) (snd (processChunks chunks b)).
Proof.
  induction chunks as [|c cs IH]; intros a b Ha Hb Hab; [split; [reflexivity | exact Hab]|].
  simpl.
  destruct (call_scratch c a b Ha Hb Hab) as [E S].
  pose proof (call_keeps c a Ha) as Ka. pose proof (call_keeps c b Hb) as Kb.
  cbv zeta in Ka, Kb. destruct Ka as [Ka _]. destruct Kb as [Kb _].
  revert E S Ka Kb.
  destruct (calculateOnsetDetectionFunctionSample c a) as [x a'].
  destruct (calculateOnsetDetectionFunctionSample c b) as [y b'].
  simpl. intros E S Ka Kb. subst y.
  destruct (IH a' b' Ka Kb S) as [E' S']. revert E' S'.
  destruct (processChunks cs a') as [xs a''].
  destruct (processChunks cs b') as [ys b''].
  simpl. intros -> S'. split; [reflexivity | exact S'].
Qed.

(** [magSpec], [phase] and [complexOut] are scratch buffers: two engines
    whose buffers are sized to [frameSize] and that agree on every other
    member return the same samples for every run of chunks of [hopSize]
    samples, and still agree on every other member afterwards.  What a
    metric left in the three buffers never reaches a later sample. *)
Theorem samples_do_not_depend_on_scratch_buffers
    (chunks : list (list R)) (a b : ODF) :
  sized a -> sized b -> scratch_eq a b ->
  Forall (fun c => length c = Z.to_nat (hopSize a)) chunks ->
  fst (processChunks chunks a) = fst (processChunks chunks b) /\
  scratch_eq (snd (processChunks chunks a)) (snd (processChunks chunks b)).
Proof.
  intros Ha Hb Hab _. apply processChunks_scratch; assumption.
Qed.

Lemma samples_do_not_depend_on_scratch_buffers_witness :
  fst (processChunks [[1; 0]; [0; 1]] twoSamples) =
  fst (processChunks [[1; 0]; [0; 1]] twoSamples_otherScratch) /\
  scratch_eq (snd (processChunks [[1; 0]; [0; 1]] twoSamples))
             (snd (processChunks [[1; 0]; [0; 1]] twoSamples_otherScratch)).
Proof.
  apply (samples_do_not_depend_on_scratch_buffers [[1; 0]; [0; 1]] twoSamples
           twoSamples_otherScratch).
  - unfold sized, twoSamples. simpl. split; [lia|]. repeat split; reflexivity.
  - unfold sized, twoSamples_otherScratch, twoSamples. simpl.
    split; [lia|]. repeat split; reflexivity.
  - unfold scratch_eq, twoSamples_otherScratch, twoSamples. simpl.
    repeat split; reflexivity.
  - repeat constructor.
Defined.

(** [initialise] gives a clean start: with [0 < hopSize <= frameSize] and the
    same contents of the newly allocated blocks, an engine that is
    initialised again after any use returns, for every run of chunks of
    [hopSize] samples, the samples that any other engine initialised with
    the same arguments returns (a new one, for instance), although
    [initialise] leaves the old values in [magSpec] and [phase]. *)
Theorem initialise_gives_a_clean_start
    (uninit : nat -> complex) (h f t w : Z) (s1 s2 : ODF) (chunks : list (list R)) :
  (0 < h <= f)%Z ->
  Forall (fun c => length c = Z.to_nat h) chunks ->
  exists a b,
    initialise uninit h f t w s1 = Returned a /\
    initialise uninit h f t w s2 = Returned b /\
    fst (processChunks chunks a) = fst (processChunks chunks b).
Proof.
  intros Hh _.
  destruct (initialise_returns uninit h f t w s1 ltac:(lia)) as (a & Ia & Aa).
  destruct (initialise_returns uninit h f t w s2 ltac:(lia)) as (b & Ib & Ab).
  destruct (initialise_window uninit h f t w s1 ltac:(lia)) as (a' & Ia' & Wa).
  destruct (initialise_window uninit h f t w s2 ltac:(lia)) as (b' & Ib' & Wb).
  assert (a' = a) as -> by congruence. assert (b' = b) as -> by congruence.
  exists a, b. split; [assumption|]. split; [assumption|].
  assert (sized a) as Sa by (apply (initialised_as_sized uninit h f t w); [lia | exact Aa]).
  assert (sized b) as Sb by (apply (initialised_as_sized uninit h f t w); [lia | exact Ab]).
  apply processChunks_scratch; try assumption.
  unfold initialised_as in Aa, Ab. cbv zeta in Aa, Ab.
  destruct Aa as (A1 & A2 & A3 & A4 & A5 & A6 & A7 & A8 & A9 & A10 & _ & _ & _ & A11 & _).
  destruct Ab as (B1 & B2 & B3 & B4 & B5 & B6 & B7 & B8 & B9 & B10 & _ & _ & _ & B11 & _).
  unfold scratch_eq. repeat split; congruence.
Qed.

Lemma initialise_gives_a_clean_start_witness :
  exists a b,
    initialise (fun _ => czero) 2 2 ComplexSpectralDifference RectangularWindow fresh
      = Returned a /\
    initialise (fun _ => czero) 2 2 ComplexSpectralDifference RectangularWindow
      twoSamples_afterImpulse = Returned b /\
    fst (processChunks [[1; 0]; [1; 0]] a) = fst (processChunks [[1; 0]; [1; 0]] b).
Proof.
  apply (initialise_gives_a_clean_start (fun _ => czero) 2 2 ComplexSpectralDifference
           RectangularWindow fresh twoSamples_afterImpulse [[1; 0]; [1; 0]]).
  - lia.
  - repeat constructor.
Defined.

(** ** Binary floating point *)

Lemma library_with_facts (cos : PrimFloat.float -> PrimFloat.float)
    (atan2 : PrimFloat.float -> PrimFloat.float -> PrimFloat.float)
    (dft : list Binary.complex -> list Binary.complex) :
  Binary.library_facts cos atan2 dft ->
  cos = Binary.cos_with_facts cos /\
  atan2 = Binary.atan2_with_facts atan2 /\
  dft = Binary.dft_with_facts dft.
Proof.
  intros (Hcos & Hatan2 & Hdft). split; [|split].
  - apply functional_extensionality. intros x. unfold Binary.cos_with_facts.
    destruct (PrimFloat.Leibniz.eqb x _) eqn:E; [|reflexivity].
    apply FloatAxioms.Leibniz.eqb_spec in E. subst x. exact Hcos.
  - apply functional_extensionality. intros y. apply functional_extensionality. intros x.
    unfold Binary.atan2_with_facts.
    destruct (PrimFloat.Leibniz.eqb y _) eqn:E; [|reflexivity].
    destruct (PrimFloat.ltb _ x) eqn:L; [|reflexivity].
    apply FloatAxioms.Leibniz.eqb_spec in E. subst y. simpl. apply Hatan2. exact L.
  - apply functional_extensionality. intros x. unfold Binary.dft_with_facts.
    destruct x as [|[a b] [|[c d] [|? ?]]]; try reflexivity. apply Hdft.
Qed.

(** C9, on the code: in the arithmetic of the source the claim fails for
    both complex spectral differences.  With [frameSize = hopSize = 2] and
    the rectangular window, after the chunk [chunk1] (first call, sample 2)
    the chunk [chunk2] makes the radicand of line 460 (506 for the rectified
    variant) negative in bin 0: the two magnitudes differ by [3.1e-9], the
    rounded sum of their squares is below the rounded double product, [sqrt]
    returns a NaN and so does the call.  A NaN is not [>= 0].  The samples of
    both chunks are [float] values.  Assumed of the libraries:
    [library_facts]. *)
Theorem complexSpectralDifference_returns_NaN
    (cos : PrimFloat.float -> PrimFloat.float)
    (atan2 : PrimFloat.float -> PrimFloat.float -> PrimFloat.float)
    (dft : list Binary.complex -> list Binary.complex) (kind : Z) :
  Binary.library_facts cos atan2 dft ->
  kind = ComplexSpectralDifference \/ kind = ComplexSpectralDifferenceHWR ->
  exists (s1 s2 : Binary.ODF) (x2 : PrimFloat.float),
    Binary.calculateOnsetDetectionFunctionSample cos atan2 dft Binary.chunk1
      (Binary.twoSamples kind) = Some (PrimFloat.two, s1) /\
    Binary.calculateOnsetDetectionFunctionSample cos atan2 dft Binary.chunk2 s1
    = Some (x2, s2) /\
    PrimFloat.is_nan x2 = true /\
    Binary.nonnegative x2 = false /\
    forallb Binary.is_float (Binary.chunk1 ++ Binary.chunk2) = true.
Proof.
  intros Hlib Hkind.
  destruct (library_with_facts cos atan2 dft Hlib) as (Ec & Ea & Ed).
  rewrite Ec, Ea, Ed. clear Ec Ea Ed Hlib.
  destruct Hkind as [-> | ->].
  - eexists _, _, _. split; [vm_compute; reflexivity|].
    split; [vm_compute; reflexivity|]. repeat split; vm_compute; reflexivity.
  - eexists _, _, _. split; [vm_compute; reflexivity|].
    split; [vm_compute; reflexivity|]. repeat split; vm_compute; reflexivity.
Qed.

Lemma complexSpectralDifference_returns_NaN_witness :
  exists (s1 s2 : Binary.ODF) (x2 : PrimFloat.float),
    Binary.calculateOnsetDetectionFunctionSample Binary.cos_at_0 Binary.atan2_at_0
      Binary.dft2 Binary.chunk1 (Binary.twoSamples ComplexSpectralDifference)
    = Some (PrimFloat.two, s1) /\
    Binary.calculateOnsetDetectionFunctionSample Binary.cos_at_0 Binary.atan2_at_0
      Binary.dft2 Binary.chunk2 s1
    = Some (x2, s2) /\
    PrimFloat.is_nan x2 = true /\
    Binary.nonnegative x2 = false /\
    forallb Binary.is_float (Binary.chunk1 ++ Binary.chunk2) = true.
Proof.
  apply (complexSpectralDifference_returns_NaN Binary.cos_at_0 Binary.atan2_at_0
           Binary.dft2 ComplexSpectralDifference).
  - repeat split; reflexivity.
  - left. reflexivity.
Defined.
